(** * Post-processing of object-detection outputs ([detect.py])

    A shallow embedding of the [Detector] class of [detect.py]: the label
    table built by [__init__], the direct decode path [get_frames_ssd], the
    IoU function [bboxes_iou] and the anchor decode path [get_frames_yolo]
    with its per-class greedy non-max suppression; and, around the class,
    the rounding of the buffer size, the model file [main] selects, the flip
    applied to camera images and the scaling of the input.

    Numbers are modelled as the code has them.  A NumPy [float64] or a Python
    [float] is a primitive binary64 [float]; a NumPy [float32] tensor element
    is a [spec_float] operated on at precision 24; Python integers are [Z].
    Python exceptions are values of [exn] carried by the [result] monad. *)

From Stdlib Require Import ZArith Floats Lia Ascii String Sorted.
From stdpp Require Import gmap strings list.

Set Warnings "-inexact-float".

Local Open Scope Z_scope.

(** ** Exceptions and the result monad *)

Inductive exn : Set :=
  | ValueError
  | IndexError
  | OverflowError
  | NotImplementedError.

Inductive result (A : Type) : Type :=
  | Ok (a : A)
  | Raise (e : exn).
Arguments Ok {A} a.
Arguments Raise {A} e.

#[global] Instance result_ret : MRet result := @Ok.
#[global] Instance result_bind : MBind result := fun A B f m =>
  match m with
  | Ok a => f a
  | Raise e => Raise e
  end.

(** ** Floating-point layer *)

Module F64.

(** [np.maximum] and [np.minimum] on two float64 scalars, as NumPy's
    scalar loops compute them: the first operand wins when the comparison
    holds or when it is NaN, so a NaN on either side is propagated. *)
Definition maximum (a b : float) : float :=
  if (b <=? a)%float || is_nan a then a else b.

Definition minimum (a b : float) : float :=
  if (a <=? b)%float || is_nan a then a else b.

(** Conversion of a Python [int] to binary64 (round to nearest even). *)
Definition of_Z (z : Z) : float :=
  SF2Prim (binary_normalize prec emax z 0 false).

(** Truncation toward zero of a finite value [(-1)^s * m * 2^e]. *)
Definition trunc_finite (s : bool) (m : positive) (e : Z) : Z :=
  let a := match e with
           | Zneg k => Z.shiftr (Zpos m) (Zpos k)
           | _ => Z.shiftl (Zpos m) e
           end in
  if s then - a else a.

(** Python's [int(x)] on a float: truncation toward zero; NaN raises
    [ValueError] and an infinity raises [OverflowError]. *)
Definition sf_to_int (x : spec_float) : result Z :=
  match x with
  | S754_zero _ => Ok 0
  | S754_finite s m e => Ok (trunc_finite s m e)
  | S754_infinity _ => Raise OverflowError
  | S754_nan => Raise ValueError
  end.

Definition to_int (x : float) : result Z := sf_to_int (Prim2SF x).

(** [np.finfo(np.float32).eps], that is 2^-23, exact in binary64. *)
Definition eps32 : float := 0x1p-23%float.

End F64.

(** Single-precision values: a [spec_float] canonical for precision 24, with
    the arithmetic NumPy performs when a [float32] array meets a Python
    scalar (the scalar is cast to [float32] and the operation is done in
    single precision). *)
Module F32.

Definition prec32 : Z := 24.
Definition emax32 : Z := 128.

Definition t : Set := spec_float.

Definition mul (x y : t) : t := SFmul prec32 emax32 x y.
Definition sub (x y : t) : t := SFsub prec32 emax32 x y.

(** Cast of a Python [int] to [float32]. *)
Definition of_Z (z : Z) : t := binary_normalize prec32 emax32 z 0 false.

(** Cast of a Python [float] to [float32] (round to nearest even). *)
Definition of_f64 (x : float) : t :=
  match Prim2SF x with
  | S754_finite s m e => binary_round prec32 emax32 s m e
  | other => other
  end.

(** Widening to binary64, which is exact. *)
Definition to_f64 (x : t) : float := SF2Prim x.

Definition to_int (x : t) : result Z := F64.sf_to_int x.

End F32.

(** ** Python strings

    A [str] is modelled as a [string] whose characters are the code points
    U+0000 to U+00FF. *)

Module PyStr.

Local Open Scope N_scope.

(** [str.isspace] on a single code point below U+0100. *)
Definition is_space (c : ascii) : bool :=
  let n := N_of_ascii c in
  ((9 <=? n) && (n <=? 13)) || ((28 <=? n) && (n <=? 32))
  || (n =? 133) || (n =? 160).

Fixpoint lstrip (s : string) : string :=
  match s with
  | EmptyString => EmptyString
  | String c r => if is_space c then lstrip r else s
  end.

Fixpoint rstrip (s : string) : string :=
  match s with
  | EmptyString => EmptyString
  | String c r =>
      match rstrip r with
      | EmptyString => if is_space c then EmptyString else String c EmptyString
      | r' => String c r'
      end
  end.

(** [s.strip()] *)
Definition strip (s : string) : string := rstrip (lstrip s).

(** [s.split(' ', 1)]: the text before the first space and, when there is
    a space, the text after it. *)
Fixpoint split_once (s : string) : string * option string :=
  match s with
  | EmptyString => (EmptyString, None)
  | String c r =>
      if Ascii.eqb c " " then (EmptyString, Some r)
      else let '(a, b) := split_once r in (String c a, b)
  end.

(** [s.replace(' ', '_')] *)
Fixpoint replace_spaces (s : string) : string :=
  match s with
  | EmptyString => EmptyString
  | String c r => String (if Ascii.eqb c " " then "_"%char else c) (replace_spaces r)
  end.

Definition digit_of (c : ascii) : option Z :=
  let n := N_of_ascii c in
  if (48 <=? n) && (n <=? 57) then Some (Z.of_N (n - 48)) else None.

(** Decimal digits with single underscores allowed between digits. *)
Fixpoint int_digits (s : string) (acc : Z) (after_digit : bool) : option Z :=
  match s with
  | EmptyString => if after_digit then Some acc else None
  | String c r =>
      match digit_of c with
      | Some d => int_digits r (10 * acc + d)%Z true
      | None =>
          if Ascii.eqb c "_" && after_digit then int_digits r acc false
          else None
      end
  end.

(** [int(s)] in base ten. *)
Definition to_int (s : string) : result Z :=
  let parsed :=
    match strip s with
    | String "+" r => int_digits r 0%Z false
    | String "-" r => Z.opp <$> int_digits r 0%Z false
    | body => int_digits body 0%Z false
    end in
  match parsed with
  | Some z => Ok z
  | None => Raise ValueError
  end.

(** [needle in s] *)
Fixpoint contains (needle s : string) : bool :=
  String.prefix needle s ||
  match s with
  | EmptyString => false
  | String _ r => contains needle r
  end.

End PyStr.

(** ** The label table built by [Detector.__init__] *)

Record label_table : Type := LabelTable {
  tbl_id2label : gmap Z string;
  tbl_label2id : gmap string Z;
}.

Definition empty_table : label_table := LabelTable ∅ ∅.

(** One line of [models/coco_labels.txt]: the parsed first column and the
    label with its spaces replaced. *)
Definition parse_label_line (line : string) : result (Z * string) :=
  let '(a, b) := PyStr.split_once (PyStr.strip line) in
  idx ← PyStr.to_int (PyStr.strip a);
  match b with
  | None => Raise IndexError
  | Some rest => Ok (idx, PyStr.replace_spaces (PyStr.strip rest))
  end.

(** The [while line:] loop: [lines] is what successive [readline()] calls
    return, [off] the running line offset. *)
Fixpoint load_labels (is_yolo : bool) (lines : list string) (off : Z)
    (tbl : label_table) : result label_table :=
  match lines with
  | [] => Ok tbl
  | line :: rest =>
      if String.eqb line EmptyString then Ok tbl
      else
        '(idx, label) ← parse_label_line line;
        let key := if is_yolo then off else idx in
        load_labels is_yolo rest (off + 1)
          (LabelTable (<[key := label]> (tbl_id2label tbl))
                      (<[label := key]> (tbl_label2id tbl)))
  end.

(** ** The detector's configuration *)

Record Detector : Type := MkDetector {
  is_yolo : bool;
  yolo_version : string;
  id2label : gmap Z string;
  label2id : gmap string Z;
  target_id : Z;
  image_width : Z;
  image_height : Z;
  camera_width : Z;
  camera_height : Z;
  threshold : float;
}.

Definition scale_width (d : Detector) : float :=
  (F64.of_Z (camera_width d) / F64.of_Z (image_width d))%float.

Definition scale_height (d : Detector) : float :=
  (F64.of_Z (camera_height d) / F64.of_Z (image_height d))%float.

(** The part of [__init__] that does not touch the interpreter: the model
    family from the path, the label table, and the target class.  The file
    stem [version] and the input shape come from the file system and the
    interpreter. *)
Definition Detector_init (model_path version : string) (lines : list string)
    (target : string) (shape_h shape_w width height : Z) (thr : float)
    : result Detector :=
  let yolo := PyStr.contains "yolo" model_path in
  tbl ← load_labels yolo lines 0 empty_table;
  tid ← (if String.eqb target "all" then Ok (-1)
         else match tbl_label2id tbl !! target with
              | Some i => Ok i
              | None => Raise ValueError
              end);
  Ok (MkDetector yolo version (tbl_id2label tbl) (tbl_label2id tbl) tid
        shape_w shape_h width height thr).

(** ** Detections *)

Record frame : Type := MkFrame {
  name : string;
  prob : float;
  bbox : Z * Z * Z * Z;   (* (xmin, ymin, xmax, ymax) *)
}.

Definition frame_xmin (f : frame) : Z := let '(a, _, _, _) := bbox f in a.
Definition frame_ymin (f : frame) : Z := let '(_, b, _, _) := bbox f in b.
Definition frame_xmax (f : frame) : Z := let '(_, _, c, _) := bbox f in c.
Definition frame_ymax (f : frame) : Z := let '(_, _, _, d) := bbox f in d.

(** The two guards shared by both decode paths once a class id is known:
    [self.target_id != -1 and self.target_id != cid] and
    [prob < self.threshold]. *)
Definition target_rejects (d : Detector) (cid : Z) : bool :=
  negb (target_id d =? -1) && negb (target_id d =? cid).

Definition below_threshold (d : Detector) (p : float) : bool :=
  (p <? threshold d)%float.

(** ** Direct decode path: [get_frames_ssd]

    The four output tensors after [squeeze()]: rows of [float32] boxes in
    [(ymin, xmin, ymax, xmax)] order, class ids and scores, and the scalar
    count.  [squeeze()] removes every axis of length one: the batch axis
    and, when there is a single detection slot, the detection axis too. *)

Record ssd_entry : Type := MkSsdEntry {
  e_ymin : F32.t;
  e_xmin : F32.t;
  e_ymax : F32.t;
  e_xmax : F32.t;
  e_class : F32.t;
  e_score : F32.t;
}.

Record ssd_outputs : Type := MkSsdOutputs {
  ssd_entries : list ssd_entry;
  ssd_count : F32.t;
}.

(** [int(x * size)] for a [np.float32] scalar [x] and a Python [int]
    [size].  Under the NumPy 1.x releases the program runs on (it uses
    [np.float], removed in 1.24) both operands are scalars, the [int] counts
    as an [int64], and the product is computed in binary64. *)
Definition ssd_pixel (x : F32.t) (size : Z) : result Z :=
  F64.to_int (F32.to_f64 x * F64.of_Z size)%float.

(** Lines 407-411: pixel coordinates, clamped below at 0 for the minima and
    above at the camera size for the maxima. *)
Definition ssd_bbox (d : Detector) (e : ssd_entry) : result (Z * Z * Z * Z) :=
  ymin ← ssd_pixel (e_ymin e) (camera_height d);
  xmin ← ssd_pixel (e_xmin e) (camera_width d);
  ymax ← ssd_pixel (e_ymax e) (camera_height d);
  xmax ← ssd_pixel (e_xmax e) (camera_width d);
  Ok (Z.max 0 xmin, Z.max 0 ymin,
      Z.min (camera_width d) xmax, Z.min (camera_height d) ymax).

(** The body of the [for i in range(count)] loop: [Ok None] is [continue]. *)
Definition ssd_frame (d : Detector) (e : ssd_entry) : result (option frame) :=
  cid ← F32.to_int (e_class e);
  let p := F32.to_f64 (e_score e) in
  match id2label d !! cid with
  | None => Ok None
  | Some nm =>
      if target_rejects d cid then Ok None
      else if below_threshold d p then Ok None
      else bb ← ssd_bbox d e; Ok (Some (MkFrame nm p bb))
  end.

Fixpoint ssd_loop (d : Detector) (entries : list ssd_entry) (i n : nat)
    (frames : list frame) : result (list frame) :=
  match n with
  | O => Ok frames
  | S n' =>
      match entries !! i with
      | None => Raise IndexError
      | Some e =>
          r ← ssd_frame d e;
          ssd_loop d entries (S i) n' (frames ++ option_list r)
      end
  end.

(** With a single detection slot [class_ids] is a 0-d array after
    [squeeze()], and [class_ids[i]] raises [IndexError] in the first
    iteration. *)
Definition get_frames_ssd (d : Detector) (out : ssd_outputs) : result (list frame) :=
  count ← F32.to_int (ssd_count out);
  match ssd_entries out with
  | [_] => if 0 <? count then Raise IndexError else Ok []
  | entries => ssd_loop d entries 0 (Z.to_nat count) []
  end.

(** ** Intersection over union: [bboxes_iou] *)

Record box : Type := MkBox {
  bx1 : float;
  by1 : float;
  bx2 : float;
  by2 : float;
}.

Definition box_area (b : box) : float :=
  ((bx2 b - bx1 b) * (by2 b - by1 b))%float.

(** [right_down - left_up], per axis: the signed extent of the overlap. *)
Definition overlap_w (b1 b2 : box) : float :=
  (F64.minimum (bx2 b1) (bx2 b2) - F64.maximum (bx1 b1) (bx1 b2))%float.

Definition overlap_h (b1 b2 : box) : float :=
  (F64.minimum (by2 b1) (by2 b2) - F64.maximum (by1 b1) (by1 b2))%float.

(** [np.maximum(right_down - left_up, 0.0)], per axis. *)
Definition inter_w (b1 b2 : box) : float := F64.maximum (overlap_w b1 b2) 0%float.
Definition inter_h (b1 b2 : box) : float := F64.maximum (overlap_h b1 b2) 0%float.

Definition inter_area (b1 b2 : box) : float :=
  (inter_w b1 b2 * inter_h b1 b2)%float.

Definition union_area (b1 b2 : box) : float :=
  (box_area b1 + box_area b2 - inter_area b1 b2)%float.

Definition bboxes_iou (b1 b2 : box) : float :=
  F64.maximum (1 * inter_area b1 b2 / union_area b1 b2)%float F64.eps32.

(** ** Anchor decode path: [get_frames_yolo] *)

(** Anchors and xy-scales per model version (lines 444-465). *)
Definition yolo_params (version : string)
    : result (list (list (Z * Z)) * list float) :=
  if String.eqb version "yolov3-tiny" then
    Ok ([ [(10, 14); (23, 27); (37, 58)];
          [(81, 82); (135, 169); (344, 319)] ],
        [1%float; 1%float])
  else if String.eqb version "yolov3" then
    Ok ([ [(10, 13); (16, 30); (33, 23)];
          [(30, 61); (62, 45); (59, 119)];
          [(116, 90); (156, 198); (373, 326)] ],
        [1%float; 1%float; 1%float])
  else if String.eqb version "yolov4" then
    Ok ([ [(12, 16); (19, 36); (40, 28)];
          [(36, 75); (76, 55); (72, 146)];
          [(142, 110); (192, 243); (459, 401)] ],
        [1.2%float; 1.1%float; 1.05%float])
  else Raise NotImplementedError.

(** One [float32] output tensor of shape [(1, dim1, dim2, 3, 5 + nclass)]:
    [chan t i j a c] is the element at index [[0, i, j, a, c]].  Elements
    are canonical single-precision values. *)
Record tensor : Type := MkTensor {
  dim1 : nat;
  dim2 : nat;
  nclass : nat;
  chan : nat -> nat -> nat -> nat -> F32.t;
}.

(** [xy, wh, confprob = np.split(pred, (2, 4), axis=-1)] at index
    [[0, i, j, a]]: channels 0-1, channels 2-3, and the objectness followed
    by the class probabilities. *)
Record raw_cell : Type := MkRawCell {
  raw_x : F32.t;
  raw_y : F32.t;
  raw_w : F32.t;
  raw_h : F32.t;
  raw_conf : F32.t;
  raw_probs : list F32.t;
}.

Definition cell (t : tensor) (i j a : nat) : raw_cell :=
  MkRawCell (chan t i j a 0) (chan t i j a 1) (chan t i j a 2) (chan t i j a 3)
            (chan t i j a 4)
            ((fun k => chan t i j a (5 + k)) <$> seq 0 (nclass t)).

(** A row of [pred_bbox] after decoding: [ [cx, cy, w, h, conf, p_0, ...] ]. *)
Record row : Type := MkRow {
  r_cx : float;
  r_cy : float;
  r_w : float;
  r_h : float;
  r_conf : float;
  r_probs : list float;
}.

(** [strides = (self.image_width // pred_x, self.image_height // pred_y)]
    with [pred_x = pred.shape[1]] and [pred_y = pred.shape[2]].  Division
    by an empty axis yields 0, as NumPy's integer division does. *)
Definition strides (d : Detector) (t : tensor) : Z * Z :=
  (image_width d / Z.of_nat (dim1 t), image_height d / Z.of_nat (dim2 t)).

(** [np.meshgrid(np.arange(pred_x), np.arange(pred_y))]: two arrays of
    shape [(pred_y, pred_x)]; the first holds the column index, the second
    the row index. *)
Definition meshgrid (pred_x pred_y : nat) : (nat -> nat -> Z) * (nat -> nat -> Z) :=
  (fun _ c => Z.of_nat c, fun r _ => Z.of_nat r).

(** [xy_offset] after [stack], [expand_dims], [tile] and
    [astype(np.float)] (binary64): shape [(1, pred_y, pred_x, 3, 2)], the
    same pair for each of the 3 anchors. *)
Definition xy_offset (pred_x pred_y : nat) (r c a : nat) : Z * Z :=
  let '(gx, gy) := meshgrid pred_x pred_y in (gx r c, gy r c).

(** Lines 482-485 at index [[0, i, j, a]], once the shapes
    [(1, pred_x, pred_y, 3, 2)] of [xy] and [(1, pred_y, pred_x, 3, 2)] of
    [xy_offset] have been broadcast together. *)
Definition decode_cell (d : Detector) (t : tensor) (anchor : list (Z * Z))
    (xyscale : float) (i j a : nat) : row :=
  let c := cell t i j a in
  let '(sx, sy) := strides d t in
  let '(ox, oy) := xy_offset (dim1 t) (dim2 t) i j a in
  let '(aw, ah) := nth a anchor (0, 0) in
  let shift := F32.of_f64 (0.5 * (xyscale - 1))%float in
  let x32 := F32.sub (F32.mul (raw_x c) (F32.of_f64 xyscale)) shift in
  let y32 := F32.sub (F32.mul (raw_y c) (F32.of_f64 xyscale)) shift in
  MkRow ((F32.to_f64 x32 + F64.of_Z ox) * F64.of_Z sx)%float
        ((F32.to_f64 y32 + F64.of_Z oy) * F64.of_Z sy)%float
        (F32.to_f64 (raw_w c) * F64.of_Z aw)%float
        (F32.to_f64 (raw_h c) * F64.of_Z ah)%float
        (F32.to_f64 (raw_conf c))
        (F32.to_f64 <$> raw_probs c).

(** One scale, flattened by [np.reshape(x, (-1, x.shape[-1]))]: index [i]
    is the slowest, then [j], then the anchor.  The broadcast of [xy] with
    [xy_offset], followed by the concatenation with [wh], requires
    [pred_x = pred_y]; NumPy raises [ValueError] otherwise. *)
Definition decode_scale (d : Detector) (anchor : list (Z * Z)) (xyscale : float)
    (t : tensor) : result (list row) :=
  if Nat.eqb (dim1 t) (dim2 t) then
    Ok (i ← seq 0 (dim1 t); j ← seq 0 (dim2 t); a ← seq 0 3;
        [decode_cell d t anchor xyscale i j a])
  else Raise ValueError.

(** The [for i, pred in enumerate(outputs)] loop; the rows of all scales
    in order. *)
Fixpoint decode_outputs (d : Detector) (anchors : list (list (Z * Z)))
    (xyscales : list float) (i : nat) (outputs : list tensor) : result (list row) :=
  match outputs with
  | [] => Ok []
  | t :: rest =>
      match anchors !! i, xyscales !! i with
      | Some anchor, Some xyscale =>
          rows ← decode_scale d anchor xyscale t;
          more ← decode_outputs d anchors xyscales (S i) rest;
          Ok (rows ++ more)
      | _, _ => Raise IndexError
      end
  end.

(** [np.argmax] over a row of float64: the first NaN if there is one, else
    the first index of the largest value (NumPy's [DOUBLE_argmax] loop). *)
Fixpoint argmax_from (l : list float) (i : nat) (mp : float) (best : nat) : nat :=
  match l with
  | [] => best
  | x :: r =>
      if negb (x <=? mp)%float then
        if is_nan x then i else argmax_from r (S i) x i
      else argmax_from r (S i) mp best
  end.

Definition np_argmax (l : list float) : nat :=
  match l with
  | [] => O
  | x :: r => if is_nan x then O else argmax_from r 1 x O
  end.

(** [np.maximum.reduce] taken from left to right with the scalar loop. *)
Definition seq_max (l : list float) : float :=
  match l with
  | [] => nan
  | x :: r => fold_left F64.maximum r x
  end.

(** Two float64 values that are the same number: equal under [==], which
    does not tell the two zeros apart, or both NaN. *)
Definition same_value (x y : float) : bool :=
  (x =? y)%float || (is_nan x && is_nan y).

(** [np.max]: [np.maximum.reduce].  NumPy reduces with the vector
    instructions of the machine it runs on, and the order in which it
    combines the elements is not that of the list; the number it returns
    is that of the left-to-right reduction, but of two zeros of opposite
    sign either one may come out.  The reduction is a parameter known
    only up to [same_value]. *)
Class MaxReduce : Type := {
  np_max : list float -> float;
  np_max_value : forall l, same_value (np_max l) (seq_max l) = true;
}.

(** A candidate: a row of [bboxes], [ [xmin, ymin, xmax, ymax, class, score] ].
    The class column holds an index produced by [np.argmax]. *)
Record cand : Type := MkCand {
  c_box : box;
  c_class : Z;
  c_score : float;
}.

(** Lines 492-512 for one row: class and score, corner form, clipping to
    the model input, and zeroing of inverted boxes.  [np.argmax] raises
    [ValueError] on an empty class axis. *)
Definition clip_box (d : Detector) (b : box) : box :=
  let b' := MkBox (F64.maximum (bx1 b) (F64.of_Z 0))
                  (F64.maximum (by1 b) (F64.of_Z 0))
                  (F64.minimum (bx2 b) (F64.of_Z (image_width d)))
                  (F64.minimum (by2 b) (F64.of_Z (image_height d))) in
  if (bx2 b' <? bx1 b')%float || (by2 b' <? by1 b')%float
  then MkBox 0 0 0 0
  else b'.

Definition corners (r : row) : box :=
  MkBox (r_cx r - r_w r * 0.5)%float (r_cy r - r_h r * 0.5)%float
        (r_cx r + r_w r * 0.5)%float (r_cy r + r_h r * 0.5)%float.

Definition row_cand `{MaxReduce} (d : Detector) (r : row) : result cand :=
  let p := (fun x => r_conf r * x)%float <$> r_probs r in
  match p with
  | [] => Raise ValueError
  | _ => Ok (MkCand (clip_box d (corners r)) (Z.of_nat (np_argmax p)) (np_max p))
  end.

(** Lines 514-522: the scale mask and the score mask. *)
Definition box_scale (b : box) : float :=
  sqrt ((bx2 b - bx1 b) * (by2 b - by1 b))%float.

Definition scale_mask (c : cand) : bool :=
  (0 <? box_scale (c_box c))%float && (box_scale (c_box c) <? infinity)%float.

Definition score_mask (d : Detector) (c : cand) : bool :=
  (threshold d <? c_score c)%float.

Definition mask (d : Detector) (c : cand) : bool :=
  scale_mask c && score_mask d c.

(** *** Greedy per-class suppression (lines 526-550) *)

(** The order in which [list(set(class_ids))] yields the distinct class
    ids is fixed by the interpreter's hashing, not by the program: it is a
    parameter, known only to list each class id once. *)
Class SetOrder : Type := {
  set_to_list : list Z -> list Z;
  set_to_list_NoDup : forall l, NoDup (set_to_list l);
  set_to_list_elem : forall l x, x ∈ set_to_list l <-> x ∈ l;
}.

Definition iou_threshold : float := 0.213%float.

(** Lines 541-548 for one remaining row: its score times a weight that is
    0 when the IoU with [best] exceeds the threshold and 1 otherwise. *)
Definition reweigh (best c : cand) : cand :=
  let iou := bboxes_iou (c_box best) (c_box c) in
  let weight := if (iou_threshold <? iou)%float then 0%float else 1%float in
  MkCand (c_box c) (c_class c) (c_score c * weight)%float.

Definition positive_score (c : cand) : bool := (0 <? c_score c)%float.

(** State of the [while len(cls_bboxes) > 0] loop. *)
Record nms_state : Type := MkNms {
  cls_bboxes : list cand;
  best_bboxes : list cand;
}.

(** One iteration of the loop body, entered with [cls_bboxes] non-empty. *)
Definition nms_body (st : nms_state) : nms_state :=
  match cls_bboxes st with
  | [] => st
  | c0 :: _ =>
      let max_ind := np_argmax (c_score <$> cls_bboxes st) in
      let best_bbox := nth max_ind (cls_bboxes st) c0 in
      let rest := take max_ind (cls_bboxes st) ++ drop (S max_ind) (cls_bboxes st) in
      MkNms (filter (fun c => positive_score c = true) (reweigh best_bbox <$> rest))
            (best_bboxes st ++ [best_bbox])
  end.

(** The loop, run for at most [n] iterations. *)
Fixpoint nms_while (n : nat) (st : nms_state) : nms_state :=
  match n with
  | O => st
  | S n' =>
      match cls_bboxes st with
      | [] => st
      | _ :: _ => nms_while n' (nms_body st)
      end
  end.

(** The loop for one class partition; [length] iterations always reach the
    exit condition (see [nms_while_exits_gen]). *)
Definition nms_class (cls_rows best : list cand) : list cand :=
  best_bboxes (nms_while (length cls_rows) (MkNms cls_rows best)).

Definition class_rows (cls : Z) (bboxes : list cand) : list cand :=
  filter (fun c => c_class c = cls) bboxes.

(** The [for cls in unique_class_ids] loop. *)
Fixpoint nms_classes (classes : list Z) (bboxes best : list cand) : list cand :=
  match classes with
  | [] => best
  | cls :: rest => nms_classes rest bboxes (nms_class (class_rows cls bboxes) best)
  end.

Definition suppress `{SetOrder} (bboxes : list cand) : list cand :=
  nms_classes (set_to_list (c_class <$> bboxes)) bboxes [].

(** *** Frames (lines 551-572) *)

Definition yolo_bbox (d : Detector) (b : box) : result (Z * Z * Z * Z) :=
  xmin ← F64.to_int (bx1 b * scale_width d)%float;
  xmax ← F64.to_int (bx2 b * scale_width d)%float;
  ymin ← F64.to_int (by1 b * scale_height d)%float;
  ymax ← F64.to_int (by2 b * scale_height d)%float;
  Ok (Z.max 0 xmin, Z.max 0 ymin,
      Z.min (camera_width d) xmax, Z.min (camera_height d) ymax).

Definition yolo_frame (d : Detector) (c : cand) : result (option frame) :=
  let cid := c_class c in
  let p := c_score c in
  match id2label d !! cid with
  | None => Ok None
  | Some nm =>
      if target_rejects d cid then Ok None
      else if below_threshold d p then Ok None
      else bb ← yolo_bbox d (c_box c); Ok (Some (MkFrame nm p bb))
  end.

Fixpoint yolo_frames (d : Detector) (best : list cand) : result (list frame) :=
  match best with
  | [] => Ok []
  | c :: rest =>
      r ← yolo_frame d c;
      more ← yolo_frames d rest;
      Ok (option_list r ++ more)
  end.

(** [np.concatenate(pred_bbox, axis=0)] needs at least one array, and
    arrays with the same number of columns; it raises [ValueError]
    otherwise. *)
Definition concatenable (outputs : list tensor) : bool :=
  match outputs with
  | [] => false
  | t :: rest => forallb (fun u => Nat.eqb (nclass u) (nclass t)) rest
  end.

(** The length of the class axis of [prob = pred_bbox[:, 5:]]. *)
Definition class_axis (outputs : list tensor) : nat :=
  match outputs with
  | [] => 0
  | t :: _ => nclass t
  end.

(** [np.argmax(prob, axis=-1)] raises [ValueError] when the class axis is
    empty, whether or not there is a row. *)
Definition get_frames_yolo `{SetOrder} `{MaxReduce} (d : Detector)
    (outputs : list tensor) : result (list frame) :=
  '(anchors, xyscales) ← yolo_params (yolo_version d);
  pred_bbox ← decode_outputs d anchors xyscales 0 outputs;
  if concatenable outputs then
    if Nat.eqb (class_axis outputs) 0 then Raise ValueError
    else
      cands ← mapM (row_cand d) pred_bbox;
      let bboxes := filter (fun c => mask d c = true) cands in
      yolo_frames d (suppress bboxes)
  else Raise ValueError.

(** ** Buffer dimensions: [_round_up] and [_round_buffer_dims] (lines 30-36) *)

(** [n * ((value + (n - 1)) // n)].  Python's [//] on integers is floor
    division, as [Z.div] is; [None] is the [ZeroDivisionError] of a zero
    divisor. *)
Definition _round_up (value n : Z) : option Z :=
  if n =? 0 then None else Some (n * ((value + (n - 1)) / n)).

Definition _round_buffer_dims (dims : Z * Z) : option (Z * Z) :=
  let '(width, height) := dims in
  w ← _round_up width 32;
  h ← _round_up height 16;
  Some (w, h).

(** ** File names: [os.path.basename] and [os.path.splitext] (POSIX) *)

Module PosixPath.

(** [s.rfind(c)] for a single character: the last index of [c], or -1. *)
Fixpoint rfind_from (c : ascii) (s : string) (i last : Z) : Z :=
  match s with
  | EmptyString => last
  | String x r => rfind_from c r (i + 1) (if Ascii.eqb x c then i else last)
  end.

Definition rfind (c : ascii) (s : string) : Z := rfind_from c s 0 (-1).

(** [p[i:]] and [p[:i]] for [0 <= i]. *)
Definition from (i : Z) (p : string) : string :=
  String.substring (Z.to_nat i) (String.length p - Z.to_nat i) p.

Definition upto (i : Z) (p : string) : string :=
  String.substring 0 (Z.to_nat i) p.

(** [basename]: the text after the last slash. *)
Definition basename (p : string) : string := from (rfind "/" p + 1) p.

(** [splitext]: the split is at the last dot of the last component,
    unless every character of the component before that dot is a dot. *)
Definition splitext (p : string) : string * string :=
  let sepIndex := rfind "/" p in
  let dotIndex := rfind "." p in
  if (sepIndex <? dotIndex)
     && existsb (fun k => match String.get k p with
                          | Some c => negb (Ascii.eqb c ".")
                          | None => false
                          end)
                (seq (Z.to_nat (sepIndex + 1)) (Z.to_nat (dotIndex - (sepIndex + 1))))
  then (upto dotIndex p, from dotIndex p)
  else (p, EmptyString).

End PosixPath.

(** ** The model file chosen by [main] (lines 647-676) *)

Definition main_model_path (model : string) (tpu : bool) : string :=
  if String.eqb model "yolov3" then
    "yolo/yolov3" ++ (if tpu then "_edgetpu.tflite" else ".tflite")
  else if String.eqb model "yolov3-tiny" then
    "yolo/yolov3-tiny" ++ (if tpu then "_edgetpu.tflite" else ".tflite")
  else if String.eqb model "yolov4" then
    "yolo/yolov4" ++ (if tpu then "_edgetpu.tflite" else ".tflite")
  else if String.eqb model "face" then
    "models/mobilenet_ssd_v2_"
    ++ (if tpu then "face_quant_postprocess_edgetpu.tflite"
        else "face_quant_postprocess.tflite")
  else
    "models/mobilenet_ssd_v2_"
    ++ (if tpu then "coco_quant_postprocess_edgetpu.tflite"
        else "coco_quant_postprocess.tflite").

(** What [__init__] reads off the path (lines 315-325): the version, which
    is the file stem, and the accelerator flag. *)
Definition path_yolo_version (model_path : string) : string :=
  (PosixPath.splitext (PosixPath.basename model_path)).1.

Definition path_is_tpu (model_path : string) : bool :=
  PyStr.contains "edgetpu" model_path.

(** ** Flipping of camera images: [CvCamera] (lines 225-233 and 253-254) *)

Definition flipcode (hflip vflip : bool) : option Z :=
  if hflip then (if vflip then Some (-1) else Some 1)
  else if vflip then Some 0
  else None.

(** [cv2.flip] on an image given as its rows: code 0 flips around the
    x-axis (the rows are reversed), a positive code around the y-axis (each
    row is reversed), a negative code around both. *)
Definition cv2_flip {A} (image : list (list A)) (code : Z) : list (list A) :=
  if code =? 0 then reverse image
  else if 0 <? code then reverse <$> image
  else reverse (reverse <$> image).

(** Lines 253-254 of [yield_image]. *)
Definition flip_image {A} (hflip vflip : bool) (image : list (list A)) : list (list A) :=
  match flipcode hflip vflip with
  | Some code => cv2_flip image code
  | None => image
  end.

(** ** Input scaling of [detect_objects] (line 581)

    One channel value [v] of the resized image, as the [float32] element
    [np.array(image, dtype=np.float32) / 255.0] holds. *)
Definition normalize_pixel (v : Z) : F32.t :=
  SFdiv F32.prec32 F32.emax32 (F32.of_Z v) (F32.of_f64 255).

(** * Auxiliary definitions

    Predicates and functions used to state and prove the properties below. *)

(** The value is a zero of either sign. *)
Definition sf_zero (x : spec_float) : Prop :=
  match x with S754_zero _ => True | _ => False end.

(** The value is a zero or a finite non-zero number. *)
Definition sf_fin (x : spec_float) : Prop :=
  match x with S754_zero _ | S754_finite _ _ _ => True | _ => False end.

(** A box whose four coordinates are finite. *)
Definition finite_box (b : box) : bool :=
  is_finite (bx1 b) && is_finite (by1 b) && is_finite (bx2 b) && is_finite (by2 b).

(** One box ends, along the axis, where the other begins or before. *)
Definition separated_w (b1 b2 : box) : bool :=
  (bx2 b1 <=? bx1 b2)%float || (bx2 b2 <=? bx1 b1)%float.

Definition separated_h (b1 b2 : box) : bool :=
  (by2 b1 <=? by1 b2)%float || (by2 b2 <=? by1 b1)%float.

(** A remaining row survives one iteration when its overlap with the
    emitted row does not exceed the threshold and its score is positive. *)
Definition keep (best c : cand) : bool :=
  negb (iou_threshold <? bboxes_iou (c_box best) (c_box c))%float && positive_score c.

(** The rows emitted for one class partition. *)
Definition emit (rows : list cand) : list cand := nms_class rows [].

(** The value found by the scan. *)
Fixpoint maxval_from (l : list float) (mp : float) : float :=
  match l with
  | [] => mp
  | x :: r =>
      if negb (x <=? mp)%float then
        if is_nan x then x else maxval_from r x
      else maxval_from r mp
  end.

(** What both paths guarantee of a frame: the minima are clamped below at
    0 and the maxima above at the camera size. *)
Definition clamped (d : Detector) (f : frame) : Prop :=
  0 <= frame_xmin f /\ 0 <= frame_ymin f
  /\ frame_xmax f <= camera_width d /\ frame_ymax f <= camera_height d.

(** The key under which a line is stored: its offset for the anchor
    family, its parsed first column for the direct family. *)
Definition line_key (yolo : bool) (off idx : Z) : Z := if yolo then off else idx.

(** ** One enumeration order: CPython's [set]

    The order in which CPython (3.7 and later) lists a [set] of small
    non-negative integers, such as class ids.  The hash of such an integer
    is the integer; the table has a power of two of slots; a key goes to the
    first unused slot of its probe sequence; [list(s)] reads the slots in
    order.  It is used to run the model on concrete pools. *)
Module PySet.

Definition table : Type := list (option Z).

Definition MINSIZE : nat := 8.
Definition LINEAR_PROBES : Z := 9.
Definition PERTURB_SHIFT : Z := 5.

Definition mask (t : table) : Z := Z.of_nat (length t) - 1.

(** The slots examined at one position of the probe sequence: the slot
    itself and, when they all lie inside the table, the next nine. *)
Definition window (t : table) (i : Z) : list Z :=
  if i + LINEAR_PROBES <=? mask t then seqZ i (LINEAR_PROBES + 1) else [i].

(** The first slot of the window that is unused or holds the key. *)
Fixpoint scan (t : table) (key : Z) (slots : list Z) : option (Z * bool) :=
  match slots with
  | [] => None
  | j :: rest =>
      match t !! Z.to_nat j with
      | Some None => Some (j, false)
      | Some (Some k) => if k =? key then Some (j, true) else scan t key rest
      | None => None
      end
  end.

(** The probe sequence of [set_add_entry] and [set_insert_clean]. *)
Fixpoint probe (fuel : nat) (t : table) (key i perturb : Z) : option (Z * bool) :=
  match fuel with
  | O => None
  | S fuel' =>
      match scan t key (window t i) with
      | Some r => Some r
      | None =>
          let perturb' := Z.shiftr perturb PERTURB_SHIFT in
          probe fuel' t key (Z.land (i * 5 + 1 + perturb') (mask t)) perturb'
      end
  end.

Definition find (t : table) (key : Z) : option (Z * bool) :=
  probe (64 + 2 * length t) t key (Z.land key (mask t)) key.

Definition used (t : table) : Z := Z.of_nat (length (omap id t)).

(** [set_insert_clean]: the key is known to be absent. *)
Definition insert_clean (t : table) (key : Z) : table :=
  match find t key with
  | Some (j, _) => <[Z.to_nat j := Some key]> t
  | None => t
  end.

(** [set_table_resize]: the smallest power of two above [minused], at
    least [MINSIZE]; the keys are re-inserted in slot order. *)
Fixpoint new_size (fuel : nat) (size : nat) (minused : Z) : nat :=
  match fuel with
  | O => size
  | S fuel' => if Z.of_nat size <=? minused then new_size fuel' (2 * size) minused else size
  end.

Definition resize (t : table) (minused : Z) : table :=
  fold_left insert_clean (omap id t) (replicate (new_size 64 MINSIZE minused) None).

(** [set_add_entry]: nothing changes when the key is there; otherwise it
    takes the unused slot found, and the table is resized once three
    fifths of it are filled. *)
Definition add (t : table) (key : Z) : table :=
  match find t key with
  | Some (j, true) => t
  | Some (j, false) =>
      let t' := <[Z.to_nat j := Some key]> t in
      if used t' * 5 <? mask t' * 3 then t'
      else resize t' (if 50000 <? used t' then used t' * 2 else used t' * 4)
  | None => t
  end.

(** [set(l)]: the keys are added in the order of [l]. *)
Definition of_list (l : list Z) : table := fold_left add l (replicate MINSIZE None).

(** [list(s)] *)
Definition to_list (t : table) : list Z := omap id t.

End PySet.

(** The order is used as computed whenever it lists each element of [l]
    once, which makes the laws of [SetOrder] hold by construction. *)
Definition enumerates (l order : list Z) : bool :=
  bool_decide (NoDup order) && bool_decide (order ⊆ l) && bool_decide (l ⊆ order).

Definition cpython_set_to_list (l : list Z) : list Z :=
  let order := PySet.to_list (PySet.of_list l) in
  if enumerates l order then order else remove_dups l.

Definition cpython_order : SetOrder.
Proof.
  refine {| set_to_list := cpython_set_to_list |}.
  - intros l. unfold cpython_set_to_list.
    destruct (enumerates l _) eqn:He; [|apply NoDup_remove_dups].
    unfold enumerates in He. apply andb_true_iff in He as [He _].
    apply andb_true_iff in He as [He _]. by apply bool_decide_eq_true in He.
  - intros l x. unfold cpython_set_to_list.
    destruct (enumerates l _) eqn:He; [|apply elem_of_remove_dups].
    unfold enumerates in He. apply andb_true_iff in He as [He H3].
    apply andb_true_iff in He as [_ H2].
    apply bool_decide_eq_true in H2, H3. split; [apply H2 | apply H3].
Defined.

(** The reduction from left to right. *)
Definition sequential_max : MaxReduce.
Proof.
  refine {| np_max := seq_max |}.
  intros l. simpl. unfold same_value, is_nan.
  by destruct (seq_max l =? seq_max l)%float.
Defined.

(** A reported box with its corners in order. *)
Definition ordered (f : frame) : Prop :=
  frame_xmin f <= frame_xmax f /\ frame_ymin f <= frame_ymax f.

(** [int(size * scale)] is computed and does not exceed [limit]. *)
Definition pixel_within (size : Z) (scale : float) (limit : Z) : bool :=
  match F64.to_int (F64.of_Z size * scale)%float with
  | Ok a => a <=? limit
  | Raise _ => false
  end.

(** The camera frame has non-negative sides, the scale factors of the
    anchor path are non-negative, and they take the sides of the model
    input to pixels inside the frame. *)
Definition scales_into_frame (d : Detector) : bool :=
  (0 <=? camera_width d) && (0 <=? camera_height d)
  && (0 <=? scale_width d)%float && (0 <=? scale_height d)%float
  && pixel_within (image_width d) (scale_width d) (camera_width d)
  && pixel_within (image_height d) (scale_height d) (camera_height d).

(** A direct-path entry whose normalised corners are in order and inside
    the unit square: [0 <= xmin <= xmax <= 1] and [0 <= ymin <= ymax <= 1]. *)
Definition unit_box (e : ssd_entry) : bool :=
  let x1 := F32.to_f64 (e_xmin e) in
  let x2 := F32.to_f64 (e_xmax e) in
  let y1 := F32.to_f64 (e_ymin e) in
  let y2 := F32.to_f64 (e_ymax e) in
  ((0 <=? x1) && (x1 <=? x2) && (x2 <=? 1)
   && (0 <=? y1) && (y1 <=? y2) && (y2 <=? 1))%float.

(** The position of a remainder [rho] in an interval of length [step]. *)
Definition loc_of (rho step : Z) : location :=
  if rho =? 0 then loc_Exact else loc_Inexact (2 * rho ?= step).

(** [M / 2^n] rounded to nearest, ties to even. *)
Definition rne (M n : Z) : Z :=
  round_nearest_even (M / 2 ^ n) (loc_of (M mod 2 ^ n) (2 ^ n)).

(** A string without any character of [str.isspace]. *)
Definition no_white_space (s : string) : bool :=
  forallb (fun c => negb (PyStr.is_space c)) (list_ascii_of_string s).

(** The number of rows decoded from the outputs before output [s]. *)
Definition rows_before (outputs : list tensor) (s : nat) : nat :=
  sum_list ((fun t => 3 * (dim1 t * dim2 t))%nat <$> take s outputs).

(** The three model names [main] maps to the anchor family. *)
Definition is_yolo_model (model : string) : bool :=
  String.eqb model "yolov3" || String.eqb model "yolov3-tiny"
  || String.eqb model "yolov4".

(** Checks run over all 256 channel values. *)
Definition pixel_in_unit (v : Z) : bool :=
  SpecFloat.valid_binary F32.prec32 F32.emax32 (normalize_pixel v)
  && SFleb (S754_zero false) (normalize_pixel v)
  && SFleb (normalize_pixel v) (F32.of_Z 1)
  && Bool.eqb (SFeqb (normalize_pixel v) (F32.of_Z 1)) (v =? 255).

(** The channel values with their scaled values, and the check that the
    scaled values increase with the channel values. *)
Definition pixel_table : list (Z * F32.t) :=
  (fun v => (v, normalize_pixel v)) <$> seqZ 0 256.

Definition increasing_table (tbl : list (Z * F32.t)) : bool :=
  forallb (fun x => forallb (fun y => implb (x.1 <? y.1) (SFltb x.2 y.2)) tbl) tbl.

(** ** Concrete inputs *)

(** A label table with two classes, a direct-family detector on a
    640 x 640 frame and an anchor-family detector on a 640 x 480 frame, both
    with threshold 0.5 and no target class. *)
Definition demo_labels : gmap Z string := {[ 0 := "person"%string; 17 := "cat"%string ]}.

Definition demo_ssd : Detector :=
  MkDetector false "" demo_labels ∅ (-1) 300 300 640 640 0.5.

Definition demo_yolo : Detector :=
  MkDetector true "yolov3-tiny" demo_labels ∅ (-1) 416 416 640 480 0.5.

(** A direct-path entry inside the frame, and one to the right of it. *)
Definition demo_entry (cls : Z) (score : float) : ssd_entry :=
  MkSsdEntry (F32.of_f64 0.1) (F32.of_f64 0.1) (F32.of_f64 0.5) (F32.of_f64 0.5)
             (F32.of_Z cls) (F32.of_f64 score).

Definition outside_entry : ssd_entry :=
  MkSsdEntry (F32.of_f64 0.1) (F32.of_f64 1.5) (F32.of_f64 0.5) (F32.of_f64 2)
             (F32.of_Z 17) (F32.of_f64 0.75).

(** A one-cell grid with one class whose first anchor has objectness 1 and
    class probability [p]; the other two anchors have objectness 0. *)
Definition demo_tensor (p : float) : tensor :=
  MkTensor 1 1 1 (fun _ _ a c =>
    match c with
    | 0 | 1 => F32.of_f64 0.5
    | 2 | 3 => F32.of_f64 4
    | 4 => if Nat.eqb a 0 then F32.of_f64 1 else F32.of_f64 0
    | _ => F32.of_f64 p
    end%nat).

(** Three lines of a label file; the third has index 12 at offset 2. *)
Definition demo_lines : list string :=
  ["0  person
"%string; "1  bicycle
"%string; "12  stop sign
"%string].

(** A 2 x 2 grid with one class whose raw offsets are (0.5, 0.25) and
    whose raw sizes are (2, 3) in every cell. *)
Definition grid_tensor : tensor :=
  MkTensor 2 2 1 (fun _ _ _ c =>
    match c with
    | 0 => F32.of_f64 0.5
    | 1 => F32.of_f64 0.25
    | 2 => F32.of_f64 2
    | 3 => F32.of_f64 3
    | 4 => F32.of_f64 1
    | _ => F32.of_f64 0.75
    end%nat).

(** A 2 x 2 grid with two classes whose elements all differ: the element
    at [[0, i, j, a, c]] is [(1 + c + 7 a + 21 j + 42 i) / 128]. *)
Definition varied_tensor : tensor :=
  MkTensor 2 2 2 (fun i j a c =>
    F32.of_f64 (F64.of_Z (Z.of_nat (1 + c + 7 * a + 21 * j + 42 * i)) / 128)%float).

Definition demo_yolo4 : Detector :=
  MkDetector true "yolov4" demo_labels ∅ (-1) 416 416 640 480 0.5.

(** A model input of 300 x 300 with a 19 x 19 grid. *)
Definition demo_yolo300 : Detector :=
  MkDetector true "yolov3" demo_labels ∅ (-1) 300 300 640 480 0.5.

Definition grid19_tensor : tensor :=
  MkTensor 19 19 1 (fun _ _ _ c =>
    match c with
    | 0 | 1 => F32.of_f64 0.5
    | _ => F32.of_f64 1
    end%nat).

(** Two overlapping rows of class 0 (IoU 0.9) and one row of class 15. *)
Definition demo_pool : list cand :=
  [ MkCand (MkBox 0 0 100 90) 0 0.625;
    MkCand (MkBox 0 0 100 100) 0 0.75;
    MkCand (MkBox 0 0 100 100) 15 0.5 ].

(** * Facts about binary floating-point arithmetic *)

Section Rounding.
Variables p emx : Z.

(** Shifting an exact record right over [k] trailing zero bits. *)
Lemma iter_pos_shr_1_exact (k m : positive) :
  SpecFloat.iter_pos shr_1 k
    {| shr_m := Zpos (Pos.iter xO m k); shr_r := false; shr_s := false |}
  = {| shr_m := Zpos m; shr_r := false; shr_s := false |}.
Proof.
  revert m. induction k as [k IH|k IH|]; intros m; simpl.
  - by rewrite !IH.
  - by rewrite !IH.
  - done.
Qed.

Lemma digits2_pos_iter_xO (m k : positive) :
  Zpos (digits2_pos (Pos.iter xO m k)) = Zpos (digits2_pos m) + Zpos k.
Proof.
  induction k as [|k IH] using Pos.peano_ind.
  - simpl. lia.
  - rewrite Pos.iter_succ. simpl. lia.
Qed.

Lemma shr_fexp_canonical m e :
  canonical_mantissa p emx m e = true ->
  shr_fexp p emx (Zpos m) e loc_Exact
  = ({| shr_m := Zpos m; shr_r := false; shr_s := false |}, e).
Proof.
  unfold canonical_mantissa. intros Hc%Z.eqb_eq.
  unfold shr_fexp. cbn [Zdigits2]. by rewrite Hc, Z.sub_diag.
Qed.

Lemma shr_fexp_shifted m e k :
  canonical_mantissa p emx m e = true ->
  shr_fexp p emx (Zpos (Pos.iter xO m k)) (e - Zpos k) loc_Exact
  = ({| shr_m := Zpos m; shr_r := false; shr_s := false |}, e).
Proof.
  unfold canonical_mantissa. intros Hc%Z.eqb_eq.
  unfold shr_fexp, Zdigits2. rewrite digits2_pos_iter_xO.
  replace (Zpos (digits2_pos m) + Zpos k + (e - Zpos k))
    with (Zpos (digits2_pos m) + e) by lia.
  rewrite Hc. replace (e - (e - Zpos k)) with (Zpos k) by lia.
  unfold shr, shr_record_of_loc. rewrite iter_pos_shr_1_exact.
  f_equal. lia.
Qed.

(** Rounding a mantissa that already sits at its canonical exponent. *)
Lemma binary_round_aux_canonical s m e :
  canonical_mantissa p emx m e = true ->
  binary_round_aux p emx s (Zpos m) e loc_Exact
  = if e <=? emx - p then S754_finite s m e else S754_infinity s.
Proof.
  intros Hc. unfold binary_round_aux. rewrite shr_fexp_canonical by done.
  cbn [shr_m loc_of_shr_record round_nearest_even].
  by rewrite shr_fexp_canonical.
Qed.

(** Rounding [m * 2^k] at exponent [e - k] when [(m, e)] is canonical. *)
Lemma binary_round_aux_shifted s m e k :
  canonical_mantissa p emx m e = true ->
  binary_round_aux p emx s (Zpos (Pos.iter xO m k)) (e - Zpos k) loc_Exact
  = if e <=? emx - p then S754_finite s m e else S754_infinity s.
Proof.
  intros Hc. unfold binary_round_aux. rewrite shr_fexp_shifted by done.
  cbn [shr_m loc_of_shr_record round_nearest_even].
  by rewrite shr_fexp_canonical.
Qed.

Lemma binary_round_canonical s m e :
  canonical_mantissa p emx m e = true ->
  binary_round p emx s m e
  = if e <=? emx - p then S754_finite s m e else S754_infinity s.
Proof.
  intros Hc. unfold binary_round, shl_align.
  pose proof Hc as Hc'. unfold canonical_mantissa in Hc'.
  apply Z.eqb_eq in Hc'. rewrite Hc', Z.sub_diag.
  by apply binary_round_aux_canonical.
Qed.
End Rounding.

Lemma valid_canonical (x : float) s m e :
  Prim2SF x = S754_finite s m e ->
  canonical_mantissa prec emax m e = true /\ (e <=? emax - prec) = true.
Proof.
  intros Hx. pose proof (Prim2SF_valid x) as Hv. rewrite Hx in Hv.
  by apply andb_prop in Hv.
Qed.

Lemma SFcompare_refl s : SFcompare s s = None \/ SFcompare s s = Some Eq.
Proof.
  destruct s as [[]|[]| |[] m e]; simpl; auto; right;
    by rewrite Z.compare_refl, Pos.compare_cont_refl.
Qed.

Lemma ltb_irrefl (x : float) : (x <? x)%float = false.
Proof.
  rewrite ltb_spec. unfold SFltb.
  by destruct (SFcompare_refl (Prim2SF x)) as [-> | ->].
Qed.

Lemma mul_1_r (x : float) : (x * 1)%float = x.
Proof.
  apply Prim2SF_inj. rewrite mul_spec.
  change (Prim2SF 1) with (S754_finite false 4503599627370496 (-52)).
  destruct (Prim2SF x) as [[]|[]| |s m e] eqn:Hx; try done.
  destruct (valid_canonical _ _ _ _ Hx) as [Hc He].
  unfold SF64mul, SFmul. rewrite xorb_false_r.
  replace (m * 4503599627370496)%positive with (Pos.iter xO m 52)
    by (by rewrite Pos.mul_comm).
  change (e + -52) with (e - 52).
  by rewrite binary_round_aux_shifted, He.
Qed.

Lemma mul_1_l (x : float) : (1 * x)%float = x.
Proof.
  apply Prim2SF_inj. rewrite mul_spec.
  change (Prim2SF 1) with (S754_finite false 4503599627370496 (-52)).
  destruct (Prim2SF x) as [[]|[]| |s m e] eqn:Hx; try done.
  destruct (valid_canonical _ _ _ _ Hx) as [Hc He].
  unfold SF64mul, SFmul. rewrite xorb_false_l.
  change (4503599627370496 * m)%positive with (Pos.iter xO m 52).
  replace (-52 + e) with (e - 52) by lia.
  by rewrite binary_round_aux_shifted, He.
Qed.

(** Doubling then subtracting gives the value back when the double does
    not overflow. *)
Lemma fexp_succ_cases d e :
  fexp prec emax (d + e) = e ->
  fexp prec emax (d + 1 + e) = e \/ fexp prec emax (d + 1 + e) = e + 1.
Proof. unfold fexp, SpecFloat.emin. lia. Qed.

Lemma shl_align_same m e : shl_align m e e = (m, e).
Proof. unfold shl_align. by rewrite Z.sub_diag. Qed.

Lemma SF64add_self_round m e :
  SF64add (S754_finite false m e) (S754_finite false m e)
  = binary_round prec emax false m~0 e.
Proof.
  unfold SF64add, SFadd. rewrite Z.min_id, shl_align_same.
  cbn [fst cond_Zopp]. change (Z.pos m + Z.pos m) with (Z.pos (m + m)).
  by rewrite Pos.add_diag.
Qed.

Lemma binary_round_double m e :
  canonical_mantissa prec emax m e = true ->
  (e <=? emax - prec) = true ->
  binary_round prec emax false m~0 e = S754_finite false m~0 e
  \/ binary_round prec emax false m~0 e
     = (if e + 1 <=? emax - prec then S754_finite false m (e + 1) else S754_infinity false).
Proof.
  intros Hc He. unfold binary_round.
  pose proof Hc as Hc'. unfold canonical_mantissa in Hc'. apply Z.eqb_eq in Hc'.
  cbn [digits2_pos]. rewrite Pos2Z.inj_succ.
  replace (Z.succ (Z.pos (digits2_pos m)) + e) with (Z.pos (digits2_pos m) + 1 + e) by lia.
  destruct (fexp_succ_cases _ _ Hc') as [Hf | Hf]; rewrite Hf; unfold shl_align.
  - rewrite Z.sub_diag. left.
    assert (canonical_mantissa prec emax m~0 e = true) as Hc2.
    { unfold canonical_mantissa. cbn [digits2_pos]. rewrite Pos2Z.inj_succ.
      apply Z.eqb_eq. rewrite <- Hf at 2. f_equal; lia. }
    by rewrite binary_round_aux_canonical, He.
  - replace (e + 1 - e) with 1 by lia. right.
    assert (canonical_mantissa prec emax m (e + 1) = true) as Hc2.
    { unfold canonical_mantissa. apply Z.eqb_eq. rewrite <- Hf at 2. f_equal; lia. }
    change (m~0)%positive with (Pos.iter xO m 1).
    replace e with (e + 1 - 1) at 1 by lia.
    by rewrite binary_round_aux_shifted.
Qed.

Lemma SF64sub_double m e :
  canonical_mantissa prec emax m e = true ->
  (e <=? emax - prec) = true ->
  SF64sub (S754_finite false m~0 e) (S754_finite false m e) = S754_finite false m e
  /\ SF64sub (S754_finite false m (e + 1)) (S754_finite false m e) = S754_finite false m e.
Proof.
  intros Hc He. unfold SF64sub, SFsub. split.
  - rewrite Z.min_id, !shl_align_same. cbn [fst cond_Zopp].
    replace (Z.pos m~0 - Z.pos m) with (Z.pos m) by lia.
    cbn [binary_normalize]. by rewrite binary_round_canonical, He.
  - replace (Z.min (e + 1) e) with e by lia. rewrite shl_align_same.
    unfold shl_align. replace (e - (e + 1)) with (Z.neg 1) by lia.
    cbn [fst cond_Zopp Pos.iter].
    replace (Z.pos m~0 - Z.pos m) with (Z.pos m) by lia.
    cbn [binary_normalize]. by rewrite binary_round_canonical, He.
Qed.

Lemma ltb_zero_finite (x : float) :
  (0 <? x)%float = true ->
  Prim2SF x = S754_infinity false \/ exists m e, Prim2SF x = S754_finite false m e.
Proof.
  rewrite ltb_spec. change (Prim2SF 0) with (S754_zero false).
  destruct (Prim2SF x) as [[]|[]| |[] m e]; try done; eauto.
Qed.

Lemma ltb_infinity_finite (x : float) :
  (x <? infinity)%float = true ->
  match Prim2SF x with
  | S754_nan | S754_infinity false => False
  | _ => True
  end.
Proof.
  rewrite ltb_spec. change (Prim2SF infinity) with (S754_infinity false).
  by destruct (Prim2SF x) as [[]|[]| |[] m e].
Qed.

Lemma add_self_sub (a : float) :
  (0 <? a)%float = true ->
  (a + a <? infinity)%float = true ->
  (a + a - a)%float = a.
Proof.
  intros Hpos Hfin. apply Prim2SF_inj.
  apply ltb_infinity_finite in Hfin. rewrite sub_spec. rewrite add_spec in *.
  destruct (ltb_zero_finite _ Hpos) as [Hx | (m & e & Hx)]; rewrite Hx in *.
  { done. }
  destruct (valid_canonical _ _ _ _ Hx) as [Hc He].
  destruct (SF64sub_double m e Hc He) as [H1 H2].
  rewrite SF64add_self_round in *.
  destruct (binary_round_double m e Hc He) as [Hr | Hr]; rewrite Hr in *.
  - done.
  - destruct (e + 1 <=? emax - prec); done.
Qed.

Lemma div_self (a : float) :
  (0 <? a)%float = true ->
  (a <? infinity)%float = true ->
  (a / a)%float = 1%float.
Proof.
  intros Hpos Hfin. apply Prim2SF_inj.
  apply ltb_infinity_finite in Hfin. rewrite div_spec.
  destruct (ltb_zero_finite _ Hpos) as [Hx | (m & e & Hx)]; rewrite Hx in *.
  { done. }
  unfold SF64div, SFdiv, SFdiv_core_binary.
  rewrite !Z.sub_diag. 
  change (Z.min (fexp prec emax 0) 0) with (-53).
  change (0 - -53) with 53.
  cbv iota beta.
  rewrite Z.shiftl_mul_pow2 by lia.
  pose proof (Z.div_mul (2 ^ 53) (Z.pos m) ltac:(lia)) as Hq.
  pose proof (Z.mod_mul (2 ^ 53) (Z.pos m) ltac:(lia)) as Hr.
  rewrite (Z.mul_comm (Z.pos m)).
  unfold Z.div, Z.modulo in Hq, Hr.
  destruct (Z.div_eucl (2 ^ 53 * Z.pos m) (Z.pos m)) as [q r]. subst q r.
  assert (new_location (Z.pos m) 0 = loc_Exact) as ->.
  { unfold new_location, new_location_even, new_location_odd.
    by destruct (Z.even (Z.pos m)). }
  by vm_compute.
Qed.

(** ** Comparisons and zeros *)

Lemma is_nan_spec (x : float) :
  is_nan x = match Prim2SF x with S754_nan => true | _ => false end.
Proof.
  unfold is_nan. rewrite FloatAxioms.eqb_spec. unfold SFeqb.
  destruct (Prim2SF x) as [[]|[]| |[] m e]; simpl; try done;
    by rewrite Z.compare_refl, Pos.compare_cont_refl.
Qed.

Lemma is_zero_spec (x : float) : is_zero x = true <-> sf_zero (Prim2SF x).
Proof.
  unfold is_zero. rewrite FloatAxioms.eqb_spec. unfold SFeqb.
  change (Prim2SF PrimFloat.zero) with (S754_zero false).
  by destruct (Prim2SF x) as [[]|[]| |[] m e].
Qed.

Lemma ltb_leb (x y : float) : (x <? y)%float = true -> (x <=? y)%float = true.
Proof.
  rewrite ltb_spec, leb_spec. unfold SFltb, SFleb.
  by destruct (SFcompare _ _) as [[]|].
Qed.

Lemma minimum_same (x : float) : F64.minimum x x = x.
Proof. unfold F64.minimum. by destruct (_ || _). Qed.

Lemma maximum_same (x : float) : F64.maximum x x = x.
Proof. unfold F64.maximum. by destruct (_ || _). Qed.

Lemma maximum_pos (x : float) : (0 <? x)%float = true -> F64.maximum x 0 = x.
Proof. intros H%ltb_leb. unfold F64.maximum. by rewrite H. Qed.

Lemma maximum_nan (x y : float) : is_nan x = true -> F64.maximum x y = x.
Proof. intros H. unfold F64.maximum. by rewrite H, orb_true_r. Qed.

(** [np.maximum(d, 0.0)] of a non-positive extent is a zero. *)
Lemma maximum_nonpos (d : float) :
  (d <=? 0)%float = true -> sf_zero (Prim2SF (F64.maximum d 0)).
Proof.
  unfold F64.maximum. rewrite is_nan_spec, !leb_spec. unfold SFleb.
  change (Prim2SF 0) with (S754_zero false).
  destruct (Prim2SF d) as [[]|[]| |[] m e] eqn:Hd; simpl; try done;
    intros _; by rewrite ?Hd.
Qed.

(** [np.maximum(d, 0.0)], when finite, is a zero or a finite value. *)
Lemma maximum_finite (d : float) :
  (F64.maximum d 0 <? infinity)%float = true -> sf_fin (Prim2SF (F64.maximum d 0)).
Proof.
  unfold F64.maximum. rewrite is_nan_spec, leb_spec, ltb_spec. unfold SFleb, SFltb.
  change (Prim2SF 0) with (S754_zero false).
  change (Prim2SF infinity) with (S754_infinity false).
  destruct (Prim2SF d) as [[]|[]| |[] m e] eqn:Hd; simpl; rewrite ?Hd; try done.
Qed.

Lemma SF64mul_zero_l x y : sf_zero x -> sf_fin y -> sf_zero (SF64mul x y).
Proof. by destruct x, y. Qed.

Lemma SF64mul_zero_r x y : sf_fin x -> sf_zero y -> sf_zero (SF64mul x y).
Proof. by destruct x, y. Qed.

Lemma SF64sub_zero_r (s : float) z :
  (0 <? s)%float = true -> sf_zero z -> SF64sub (Prim2SF s) z = Prim2SF s.
Proof.
  intros Hs Hz. destruct (ltb_zero_finite _ Hs) as [-> | (m & e & ->)];
    by destruct z.
Qed.

Lemma SF64div_zero_l z (u : float) :
  sf_zero z -> (0 <? u)%float = true -> sf_zero (SF64div z (Prim2SF u)).
Proof.
  intros Hz Hu. destruct (ltb_zero_finite _ Hu) as [-> | (m & e & ->)];
    by destruct z.
Qed.

Lemma maximum_zero_eps (z : float) :
  sf_zero (Prim2SF z) -> F64.maximum z F64.eps32 = F64.eps32.
Proof.
  intros Hz. unfold F64.maximum. rewrite is_nan_spec, leb_spec. unfold SFleb.
  change (Prim2SF F64.eps32) with (S754_finite false 4503599627370496 (-75)).
  by destruct (Prim2SF z) as [[]|[]| |[] m e].
Qed.

(** ** The order on floats *)

Ltac sf_cases x := destruct x as [[]|[]| |[] ? ?].

Ltac cmp_cases :=
  repeat match goal with
  | |- context [Z.compare ?a ?b] => destruct (Z.compare_spec a b)
  | H : context [Z.compare ?a ?b] |- _ => destruct (Z.compare_spec a b)
  | |- context [Pos.compare ?a ?b] => destruct (Pos.compare_spec a b)
  | H : context [Pos.compare ?a ?b] |- _ => destruct (Pos.compare_spec a b)
  end.

Lemma SFleb_trans x y z :
  SFleb x y = true -> SFleb y z = true -> SFleb x z = true.
Proof.
  unfold SFleb. sf_cases x; sf_cases y; sf_cases z; simpl; try done;
    change (Pos.compare_cont Eq ?a ?b) with (Pos.compare a b);
    cmp_cases; simpl; try done; try lia.
Qed.

Lemma SFleb_total x y :
  SFleb x y = false -> x <> S754_nan -> y <> S754_nan -> SFleb y x = true.
Proof.
  unfold SFleb. sf_cases x; sf_cases y; simpl; try done;
    change (Pos.compare_cont Eq ?a ?b) with (Pos.compare a b);
    cmp_cases; simpl; try done; try lia.
Qed.

Lemma leb_trans (x y z : float) :
  (x <=? y)%float = true -> (y <=? z)%float = true -> (x <=? z)%float = true.
Proof. rewrite !leb_spec. apply SFleb_trans. Qed.

Lemma leb_total (x y : float) :
  (x <=? y)%float = false -> is_nan x = false -> is_nan y = false ->
  (y <=? x)%float = true.
Proof.
  rewrite !leb_spec, !is_nan_spec. intros H Hx Hy.
  apply SFleb_total; [done| |]; by intros E; rewrite E in *.
Qed.

Lemma leb_refl (x : float) : is_nan x = false -> (x <=? x)%float = true.
Proof.
  rewrite leb_spec, is_nan_spec. unfold SFleb.
  destruct (SFcompare_refl (Prim2SF x)) as [H | H]; rewrite H; [|done].
  by destruct (Prim2SF x) as [[]|[]| |[] m e].
Qed.

Lemma leb_nan_l (x y : float) : (x <=? y)%float = true -> is_nan x = false.
Proof.
  rewrite leb_spec, is_nan_spec. by destruct (Prim2SF x).
Qed.

(** A score multiplied by the weight 0 is never positive. *)
Lemma mul_0_not_pos (x : float) : (0 <? x * 0)%float = false.
Proof.
  rewrite ltb_spec, mul_spec. 
  change (Prim2SF 0) with (S754_zero false).
  by destruct (Prim2SF x) as [[]|[]| |[] m e].
Qed.

(** ** The sign of a difference *)

Lemma digits2_pos_bounds (m : positive) :
  2 ^ (Z.pos (digits2_pos m) - 1) <= Z.pos m < 2 ^ Z.pos (digits2_pos m).
Proof.
  induction m as [m IH|m IH|]; cbn [digits2_pos].
  - rewrite Pos2Z.inj_succ.
    replace (Z.succ (Z.pos (digits2_pos m)) - 1) with (Z.succ (Z.pos (digits2_pos m) - 1)) by lia.
    rewrite !Z.pow_succ_r by lia. lia.
  - rewrite Pos2Z.inj_succ.
    replace (Z.succ (Z.pos (digits2_pos m)) - 1) with (Z.succ (Z.pos (digits2_pos m) - 1)) by lia.
    rewrite !Z.pow_succ_r by lia. lia.
  - simpl. lia.
Qed.

Lemma Zpos_iter_xO (m k : positive) :
  Z.pos (Pos.iter xO m k) = Z.pos m * 2 ^ Z.pos k.
Proof.
  induction k as [|k IH] using Pos.peano_ind.
  - simpl. lia.
  - rewrite Pos.iter_succ, Pos2Z.inj_succ, Z.pow_succ_r by lia.
    rewrite Pos2Z.inj_xO, IH. lia.
Qed.

Lemma shl_align_fst (m : positive) (e ez : Z) :
  ez <= e -> Z.pos (shl_align m e ez).1 = Z.pos m * 2 ^ (e - ez).
Proof.
  intros Hle. unfold shl_align.
  destruct (ez - e) as [|d|d] eqn:Hd; simpl.
  - replace (e - ez) with 0 by lia. lia.
  - lia.
  - rewrite Zpos_iter_xO. f_equal. f_equal. lia.
Qed.

Lemma canonical_digits (m : positive) (e : Z) :
  canonical_mantissa prec emax m e = true ->
  Z.pos (digits2_pos m) <= 53 /\ -1074 <= e
  /\ (-1074 < e -> Z.pos (digits2_pos m) = 53).
Proof.
  unfold canonical_mantissa, fexp, SpecFloat.emin, prec, emax.
  intros H%Z.eqb_eq. lia.
Qed.

(** Canonical mantissas compare like the values they stand for once they
    are aligned on the smaller exponent. *)
Lemma aligned_le (mx my : positive) (ex ey : Z) :
  canonical_mantissa prec emax mx ex = true ->
  canonical_mantissa prec emax my ey = true ->
  ex < ey \/ (ex = ey /\ (mx <= my)%positive) ->
  Z.pos (shl_align mx ex (Z.min ex ey)).1 <= Z.pos (shl_align my ey (Z.min ex ey)).1.
Proof.
  intros Hx%canonical_digits Hy%canonical_digits Hle.
  rewrite !shl_align_fst by lia.
  destruct Hle as [Hlt | [-> Hm]].
  - replace (Z.min ex ey) with ex by lia. rewrite Z.sub_diag, Z.pow_0_r.
    pose proof (digits2_pos_bounds mx) as Bx.
    pose proof (digits2_pos_bounds my) as By.
    destruct Hy as (_ & _ & Hy). rewrite Hy in By by lia.
    assert (Z.pos mx < 2 ^ 53) as Hmx.
    { eapply Z.lt_le_trans; [apply Bx|]. apply Z.pow_le_mono_r; lia. }
    assert (2 ^ 1 <= 2 ^ (ey - ex)) as Hp by (apply Z.pow_le_mono_r; lia).
    change (2 ^ (53 - 1)) with 4503599627370496 in By.
    change (2 ^ 53) with 9007199254740992 in Hmx.
    change (2 ^ 1) with 2 in Hp. nia.
  - rewrite Z.min_id, Z.sub_diag, Z.pow_0_r. lia.
Qed.

Lemma shr_1_nonneg mrs : 0 <= shr_m mrs -> 0 <= shr_m (shr_1 mrs).
Proof. destruct mrs as [[|[p|p|]|p] r s]; simpl; lia. Qed.

Lemma iter_pos_shr_1_nonneg (k : positive) mrs :
  0 <= shr_m mrs -> 0 <= shr_m (SpecFloat.iter_pos shr_1 k mrs).
Proof.
  revert mrs. induction k as [k IH|k IH|]; intros mrs H; simpl.
  - by apply IH, IH, shr_1_nonneg.
  - by apply IH, IH.
  - by apply shr_1_nonneg.
Qed.

Lemma shr_fexp_nonneg (m e : Z) l :
  0 <= m -> 0 <= shr_m (shr_fexp prec emax m e l).1.
Proof.
  intros Hm. unfold shr_fexp, shr.
  assert (0 <= shr_m (shr_record_of_loc m l)) as H0.
  { by destruct l as [|[]]. }
  destruct (fexp prec emax (Zdigits2 m + e) - e); simpl; [done| |done].
  by apply iter_pos_shr_1_nonneg.
Qed.

(** Rounding keeps the sign it is given. *)
Lemma binary_round_aux_sign s (m e : Z) l :
  0 <= m ->
  match binary_round_aux prec emax s m e l with
  | S754_zero s' | S754_infinity s' | S754_finite s' _ _ => s' = s
  | S754_nan => False
  end.
Proof.
  intros Hm. unfold binary_round_aux.
  pose proof (shr_fexp_nonneg m e l Hm) as H1.
  destruct (shr_fexp prec emax m e l) as [mrs' e']. simpl in H1.
  assert (0 <= round_nearest_even (shr_m mrs') (loc_of_shr_record mrs')) as H2.
  { unfold round_nearest_even. destruct (loc_of_shr_record mrs') as [|[]]; try lia.
    destruct (Z.even _); lia. }
  pose proof (shr_fexp_nonneg _ e' loc_Exact H2) as H3.
  destruct (shr_fexp prec emax _ e' loc_Exact) as [mrs'' e'']. simpl in H3.
  destruct (shr_m mrs'') as [|p|p]; [done| |lia].
  by destruct (e'' <=? emax - prec).
Qed.

Lemma binary_round_sign s (m : positive) (e : Z) :
  match binary_round prec emax s m e with
  | S754_zero s' | S754_infinity s' | S754_finite s' _ _ => s' = s
  | S754_nan => False
  end.
Proof.
  unfold binary_round. destruct (shl_align _ _ _) as [mz ez].
  apply binary_round_aux_sign. lia.
Qed.

Lemma binary_normalize_nonpos (D e : Z) :
  D <= 0 -> SFleb (binary_normalize prec emax D e false) (S754_zero false) = true.
Proof.
  intros HD. destruct D as [|p|p]; [done|lia|]. cbn [binary_normalize].
  pose proof (binary_round_sign true p e) as Hs.
  by destruct (binary_round prec emax true p e) as [[]|[]| |[] ? ?].
Qed.

Lemma SFleb_finite_cases sx mx ex sy my ey :
  SFleb (S754_finite sx mx ex) (S754_finite sy my ey) = true ->
  (sx = true /\ sy = false)
  \/ (sx = false /\ sy = false /\ (ex < ey \/ (ex = ey /\ (mx <= my)%positive)))
  \/ (sx = true /\ sy = true /\ (ey < ex \/ (ex = ey /\ (my <= mx)%positive))).
Proof.
  unfold SFleb. simpl. change (Pos.compare_cont Eq mx my) with (Pos.compare mx my).
  destruct sx, sy; try done; [| |]; try (by left);
    destruct (Z.compare_spec ex ey); destruct (Pos.compare_spec mx my);
    simpl; try done; intros _; try (right; left; repeat split; lia);
    try (right; right; repeat split; lia).
Qed.

(** For finite [x <= y] the difference [x - y] is not positive. *)
Lemma SF64sub_nonpos x y :
  valid_binary x = true -> valid_binary y = true ->
  sf_fin x -> sf_fin y -> SFleb x y = true ->
  SFleb (SF64sub x y) (S754_zero false) = true.
Proof.
  intros Vx Vy Fx Fy Hle. unfold SF64sub.
  destruct x as [sx|sx| |sx mx ex], y as [sy|sy| |sy my ey]; try done.
  - by destruct sx, sy.
  - destruct sx, sy; simpl in *; done.
  - apply andb_prop in Vx as [Cx _]. apply andb_prop in Vy as [Cy _].
    unfold SFsub. apply binary_normalize_nonpos.
    destruct (SFleb_finite_cases _ _ _ _ _ _ Hle)
      as [[-> ->] | [(-> & -> & Hc) | (-> & -> & Hc)]]; cbn [cond_Zopp].
    + lia.
    + pose proof (aligned_le mx my ex ey Cx Cy Hc). lia.
    + assert (ey < ex \/ (ey = ex /\ (my <= mx)%positive)) as Hc' by lia.
      pose proof (aligned_le my mx ey ex Cy Cx Hc') as Ha.
      rewrite (Z.min_comm ey ex) in Ha. lia.
Qed.

Lemma is_finite_spec (x : float) : is_finite x = true <-> sf_fin (Prim2SF x).
Proof.
  unfold is_finite, is_infinity. rewrite is_nan_spec, FloatAxioms.eqb_spec, abs_spec.
  change (Prim2SF infinity) with (S754_infinity false).
  by destruct (Prim2SF x) as [[]|[]| |[] m e].
Qed.

Lemma sub_nonpos (x y : float) :
  is_finite x = true -> is_finite y = true ->
  (x <=? y)%float = true -> (x - y <=? 0)%float = true.
Proof.
  rewrite !is_finite_spec, !leb_spec, sub_spec. intros Fx Fy Hle.
  apply SF64sub_nonpos; try done; apply Prim2SF_valid.
Qed.

Lemma is_finite_not_nan (x : float) : is_finite x = true -> is_nan x = false.
Proof. unfold is_finite. by destruct (is_nan x). Qed.

Lemma minimum_cases (a b : float) : F64.minimum a b = a \/ F64.minimum a b = b.
Proof. unfold F64.minimum. destruct (_ || _); auto. Qed.

Lemma maximum_cases (a b : float) : F64.maximum a b = a \/ F64.maximum a b = b.
Proof. unfold F64.maximum. destruct (_ || _); auto. Qed.

Lemma minimum_le (a b : float) :
  is_nan a = false -> is_nan b = false ->
  (F64.minimum a b <=? a)%float = true /\ (F64.minimum a b <=? b)%float = true.
Proof.
  intros Ha Hb. unfold F64.minimum. rewrite Ha, orb_false_r.
  destruct (a <=? b)%float eqn:Hle.
  - split; [by apply leb_refl | done].
  - split; [by apply leb_total | by apply leb_refl].
Qed.

Lemma maximum_ge (a b : float) :
  is_nan a = false -> is_nan b = false ->
  (a <=? F64.maximum a b)%float = true /\ (b <=? F64.maximum a b)%float = true.
Proof.
  intros Ha Hb. unfold F64.maximum. rewrite Ha, orb_false_r.
  destruct (b <=? a)%float eqn:Hle.
  - split; [by apply leb_refl | done].
  - split; [by apply leb_total | by apply leb_refl].
Qed.

Lemma separated_overlap (lo1 hi1 lo2 hi2 : float) :
  is_finite lo1 = true -> is_finite hi1 = true ->
  is_finite lo2 = true -> is_finite hi2 = true ->
  (hi1 <=? lo2)%float || (hi2 <=? lo1)%float = true ->
  (F64.minimum hi1 hi2 - F64.maximum lo1 lo2 <=? 0)%float = true.
Proof.
  intros Fl1 Fh1 Fl2 Fh2 Hsep.
  pose proof (is_finite_not_nan _ Fl1). pose proof (is_finite_not_nan _ Fh1).
  pose proof (is_finite_not_nan _ Fl2). pose proof (is_finite_not_nan _ Fh2).
  destruct (minimum_le hi1 hi2) as [M1 M2]; [done..|].
  destruct (maximum_ge lo1 lo2) as [G1 G2]; [done..|].
  apply sub_nonpos.
  - by destruct (minimum_cases hi1 hi2) as [-> | ->].
  - by destruct (maximum_cases lo1 lo2) as [-> | ->].
  - apply orb_prop in Hsep as [Hs | Hs].
    + eapply leb_trans; [exact M1|]. by eapply leb_trans.
    + eapply leb_trans; [exact M2|]. by eapply leb_trans.
Qed.

(** ** Properties of [bboxes_iou] *)

(** The intersection of a box with itself is the box, when its width and
    height are positive. *)
Lemma inter_area_self (b : box) :
  (0 <? bx2 b - bx1 b)%float = true ->
  (0 <? by2 b - by1 b)%float = true ->
  inter_area b b = box_area b.
Proof.
  intros Hw Hh. unfold inter_area, inter_w, inter_h, overlap_w, overlap_h, box_area.
  rewrite !minimum_same, !maximum_same. by rewrite !maximum_pos.
Qed.

Lemma ltb_infinity_of_double (a : float) :
  (0 <? a)%float = true -> (a + a <? infinity)%float = true ->
  (a <? infinity)%float = true.
Proof.
  intros Hpos Hfin. rewrite ltb_spec in Hfin |- *. rewrite add_spec in Hfin.
  change (Prim2SF infinity) with (S754_infinity false) in *.
  destruct (ltb_zero_finite _ Hpos) as [Hx | (m & e & Hx)]; rewrite Hx in *; done.
Qed.

Lemma bboxes_iou_self (b : box) :
  (0 <? bx2 b - bx1 b)%float = true ->
  (0 <? by2 b - by1 b)%float = true ->
  (0 <? box_area b)%float = true ->
  (box_area b + box_area b <? infinity)%float = true ->
  bboxes_iou b b = 1%float.
Proof.
  intros Hw Hh Ha Hfin. unfold bboxes_iou, union_area.
  rewrite inter_area_self by done. rewrite add_self_sub by done.
  rewrite mul_1_l, div_self by eauto using ltb_infinity_of_double. done.
Qed.

Lemma bboxes_iou_zero_inter (b1 b2 : box) :
  sf_zero (Prim2SF (inter_area b1 b2)) ->
  (0 <? box_area b1 + box_area b2)%float = true ->
  bboxes_iou b1 b2 = F64.eps32.
Proof.
  intros Hz Hu. unfold bboxes_iou, union_area.
  apply maximum_zero_eps. rewrite div_spec, mul_1_l, sub_spec.
  rewrite SF64sub_zero_r by done. by apply SF64div_zero_l.
Qed.

Lemma bboxes_iou_disjoint_w (b1 b2 : box) :
  (overlap_w b1 b2 <=? 0)%float = true ->
  (inter_h b1 b2 <? infinity)%float = true ->
  (0 <? box_area b1 + box_area b2)%float = true ->
  bboxes_iou b1 b2 = F64.eps32.
Proof.
  intros Hw Hh Hu. apply bboxes_iou_zero_inter; [|done].
  unfold inter_area. rewrite mul_spec.
  apply SF64mul_zero_l; [by apply maximum_nonpos | by apply maximum_finite].
Qed.

Lemma bboxes_iou_disjoint_h (b1 b2 : box) :
  (overlap_h b1 b2 <=? 0)%float = true ->
  (inter_w b1 b2 <? infinity)%float = true ->
  (0 <? box_area b1 + box_area b2)%float = true ->
  bboxes_iou b1 b2 = F64.eps32.
Proof.
  intros Hh Hw Hu. apply bboxes_iou_zero_inter; [|done].
  unfold inter_area. rewrite mul_spec.
  apply SF64mul_zero_r; [by apply maximum_finite | by apply maximum_nonpos].
Qed.

(** The result is NaN or at least epsilon: never zero, never negative. *)
Lemma bboxes_iou_lower_bound (b1 b2 : box) :
  is_nan (bboxes_iou b1 b2) = true \/ (F64.eps32 <=? bboxes_iou b1 b2)%float = true.
Proof.
  unfold bboxes_iou, F64.maximum.
  set (q := (1 * inter_area b1 b2 / union_area b1 b2)%float).
  destruct (F64.eps32 <=? q)%float eqn:Hle; simpl; [by right|].
  destruct (is_nan q) eqn:Hn; [by left|]. by right.
Qed.

(** Division by a zero union of a zero intersection: the quotient is NaN and
    [np.maximum] propagates it. *)
Lemma bboxes_iou_zero_union (b1 b2 : box) :
  is_zero (union_area b1 b2) = true ->
  is_zero (inter_area b1 b2) = true ->
  is_nan (bboxes_iou b1 b2) = true.
Proof.
  intros Hu%is_zero_spec Hi%is_zero_spec. unfold bboxes_iou.
  assert (is_nan (1 * inter_area b1 b2 / union_area b1 b2)%float = true) as Hn.
  { rewrite is_nan_spec, div_spec, mul_1_l.
    by destruct (Prim2SF (inter_area b1 b2)), (Prim2SF (union_area b1 b2)). }
  by rewrite maximum_nan.
Qed.

Lemma separated_w_overlap (b1 b2 : box) :
  finite_box b1 = true -> finite_box b2 = true -> separated_w b1 b2 = true ->
  (overlap_w b1 b2 <=? 0)%float = true.
Proof.
  unfold finite_box. intros F1 F2 Hsep.
  repeat (apply andb_prop in F1 as [F1 ?]). repeat (apply andb_prop in F2 as [F2 ?]).
  by apply separated_overlap.
Qed.

Lemma separated_h_overlap (b1 b2 : box) :
  finite_box b1 = true -> finite_box b2 = true -> separated_h b1 b2 = true ->
  (overlap_h b1 b2 <=? 0)%float = true.
Proof.
  unfold finite_box. intros F1 F2 Hsep.
  repeat (apply andb_prop in F1 as [F1 ?]). repeat (apply andb_prop in F2 as [F2 ?]).
  by apply separated_overlap.
Qed.

(** ** [np.argmax] *)

Lemma argmax_from_bound l i mp best :
  (best < i)%nat -> (argmax_from l i mp best < i + length l)%nat.
Proof.
  revert i mp best. induction l as [|x r IH]; intros i mp best Hb; simpl; [lia|].
  destruct (negb _); [destruct (is_nan x)|].
  - lia.
  - specialize (IH (S i) x i). lia.
  - specialize (IH (S i) mp best). lia.
Qed.

Lemma np_argmax_lt l : l <> [] -> (np_argmax l < length l)%nat.
Proof.
  destruct l as [|x r]; [done|]. intros _. simpl.
  destruct (is_nan x); [lia|].
  pose proof (argmax_from_bound r 1 x 0). lia.
Qed.

(** When nothing exceeds the running maximum the index is unchanged. *)
Lemma argmax_from_all_le l i mp best :
  Forall (fun y => (y <=? mp)%float = true) l -> argmax_from l i mp best = best.
Proof.
  revert i. induction l as [|x r IH]; intros i Hall; simpl; [done|].
  inversion Hall as [|? ? Hx Hr]; subst. rewrite Hx. simpl. by apply IH.
Qed.

Lemma argmax_from_lookup pre l mp best :
  pre !! best = Some mp ->
  (pre ++ l) !! argmax_from l (length pre) mp best = Some (maxval_from l mp).
Proof.
  revert pre mp best. induction l as [|x r IH]; intros pre mp best Hb; simpl.
  - rewrite app_nil_r. done.
  - destruct (negb _); [destruct (is_nan x)|].
    + by rewrite list_lookup_middle.
    + specialize (IH (pre ++ [x]) x (length pre)).
      rewrite length_app, <- app_assoc in IH. simpl in IH.
      replace (length pre + 1)%nat with (S (length pre)) in IH by lia.
      apply IH. by rewrite lookup_app_r, Nat.sub_diag.
    + specialize (IH (pre ++ [x]) mp best).
      rewrite length_app, <- app_assoc in IH. simpl in IH.
      replace (length pre + 1)%nat with (S (length pre)) in IH by lia.
      apply IH. apply lookup_app_l_Some. done.
Qed.

Lemma maxval_from_max l mp :
  is_nan mp = false -> is_nan (maxval_from l mp) = false ->
  (mp <=? maxval_from l mp)%float = true
  /\ Forall (fun y => (y <=? maxval_from l mp)%float = true) l.
Proof.
  revert mp. induction l as [|x r IH]; intros mp Hmp Hres; simpl in *.
  - split; [by apply leb_refl | constructor].
  - destruct (x <=? mp)%float eqn:Hle; simpl in *.
    + destruct (IH mp Hmp Hres) as [H1 H2]. split; [done|].
      constructor; [|done]. by eapply leb_trans.
    + destruct (is_nan x) eqn:Hx; [congruence|].
      destruct (IH x Hx Hres) as [H1 H2]. split.
      * eapply leb_trans; [|exact H1]. by apply leb_total.
      * by constructor.
Qed.

(** The entry selected by [np.argmax] is NaN or bounds every entry. *)
Lemma np_argmax_max (l : list float) v :
  l !! np_argmax l = Some v ->
  is_nan v = false ->
  Forall (fun y => (y <=? v)%float = true) l.
Proof.
  destruct l as [|x r]; [done|]. unfold np_argmax.
  destruct (is_nan x) eqn:Hx.
  - simpl. intros [= ->]. congruence.
  - pose proof (argmax_from_lookup [x] r x 0 eq_refl) as Hl. simpl in Hl.
    rewrite Hl. intros [= <-] Hv.
    destruct (maxval_from_max r x Hx Hv) as [H1 H2]. by constructor.
Qed.

(** ** The suppression loop *)

Lemma reweigh_positive (best c : cand) :
  positive_score (reweigh best c) = keep best c.
Proof.
  unfold reweigh, keep, positive_score. simpl.
  destruct (iou_threshold <? _)%float; simpl.
  - apply mul_0_not_pos.
  - by rewrite mul_1_r.
Qed.

Lemma reweigh_keep (best c : cand) : keep best c = true -> reweigh best c = c.
Proof.
  unfold keep, reweigh. intros [Hi _]%andb_prop.
  apply negb_true_iff in Hi. rewrite Hi, mul_1_r. by destruct c.
Qed.

(** Zero-weighting followed by the positive-score mask is a filter. *)
Lemma survivors_filter (best : cand) (rest : list cand) :
  filter (fun c => positive_score c = true) (reweigh best <$> rest)
  = filter (fun c => keep best c = true) rest.
Proof.
  induction rest as [|c r IH]; [done|].
  rewrite fmap_cons, !filter_cons, IH, reweigh_positive.
  destruct (keep best c) eqn:Hk; [|done].
  by rewrite reweigh_keep.
Qed.

Lemma nms_body_eq (l acc : list cand) (best : cand) :
  l !! np_argmax (c_score <$> l) = Some best ->
  nms_body (MkNms l acc)
  = MkNms (filter (fun c => keep best c = true) (delete (np_argmax (c_score <$> l)) l))
          (acc ++ [best]).
Proof.
  intros Hb. unfold nms_body. simpl. destruct l as [|c0 tl] eqn:El; [done|].
  rewrite <- El in *. rewrite (nth_lookup_Some _ _ _ _ Hb).
  by rewrite survivors_filter, delete_take_drop.
Qed.

Lemma argmax_lookup (l : list cand) :
  l <> [] -> exists best, l !! np_argmax (c_score <$> l) = Some best.
Proof.
  intros Hl. apply lookup_lt_is_Some.
  rewrite <- (length_fmap c_score). apply np_argmax_lt.
  by destruct l.
Qed.

(** Each iteration removes the selected row, so the partition shrinks. *)
Lemma nms_body_length (st : nms_state) :
  cls_bboxes st <> [] ->
  (length (cls_bboxes (nms_body st)) < length (cls_bboxes st))%nat.
Proof.
  destruct st as [l acc]. simpl. intros Hl.
  destruct (argmax_lookup l Hl) as [best Hb].
  rewrite (nms_body_eq _ _ _ Hb). simpl.
  pose proof (length_filter (fun c => keep best c = true)
                (delete (np_argmax (c_score <$> l)) l)) as Hf.
  rewrite length_delete in Hf by eauto.
  destruct l; simpl in *; [done|lia].
Qed.

Lemma nms_while_nil n acc : nms_while n (MkNms [] acc) = MkNms [] acc.
Proof. by destruct n. Qed.

Lemma nms_while_exits_gen n (st : nms_state) :
  (length (cls_bboxes st) <= n)%nat -> cls_bboxes (nms_while n st) = [].
Proof.
  revert st. induction n as [|n IH]; intros st Hn; simpl.
  - destruct (cls_bboxes st); [done|simpl in Hn; lia].
  - destruct (cls_bboxes st) as [|c0 tl] eqn:El; [done|].
    apply IH. pose proof (nms_body_length st). rewrite El in *.
    simpl in *. specialize (H ltac:(done)). lia.
Qed.

Lemma nms_while_fuel_eq n m (st : nms_state) :
  (length (cls_bboxes st) <= n)%nat -> (length (cls_bboxes st) <= m)%nat ->
  nms_while n st = nms_while m st.
Proof.
  revert m st. induction n as [|n IH]; intros m st Hn Hm.
  - destruct st as [[|] acc]; simpl in *; [by rewrite nms_while_nil | lia].
  - destruct m as [|m].
    { destruct st as [[|] acc]; simpl in *; [done | lia]. }
    simpl. destruct (cls_bboxes st) as [|c0 tl] eqn:El; [done|].
    pose proof (nms_body_length st) as Hlen. rewrite El in Hlen.
    specialize (Hlen ltac:(done)). simpl in *. apply IH; lia.
Qed.

Lemma nms_while_fuel n (st : nms_state) :
  (length (cls_bboxes st) <= n)%nat ->
  nms_while n st = nms_while (length (cls_bboxes st)) st.
Proof. intros Hn. by apply nms_while_fuel_eq. Qed.

Lemma survivors_length (l : list cand) (best : cand) :
  l !! np_argmax (c_score <$> l) = Some best ->
  (length (filter (fun c => keep best c = true)
             (delete (np_argmax (c_score <$> l)) l)) < length l)%nat.
Proof.
  intros Hb.
  pose proof (length_filter (fun c => keep best c = true)
                (delete (np_argmax (c_score <$> l)) l)) as Hf.
  rewrite length_delete in Hf by eauto.
  apply lookup_lt_Some in Hb. lia.
Qed.

Lemma nms_class_nil acc : nms_class [] acc = acc.
Proof. done. Qed.

Lemma nms_class_cons (l acc : list cand) (best : cand) :
  l !! np_argmax (c_score <$> l) = Some best ->
  nms_class l acc
  = nms_class (filter (fun c => keep best c = true)
                 (delete (np_argmax (c_score <$> l)) l)) (acc ++ [best]).
Proof.
  intros Hb. unfold nms_class.
  pose proof (survivors_length _ _ Hb) as Hlen.
  pose proof (nms_body_eq l acc best Hb) as Hbody.
  destruct l as [|c0 tl]; [done|].
  cbn [length nms_while cls_bboxes]. rewrite Hbody.
  f_equal. apply nms_while_fuel_eq; simpl in *; lia.
Qed.

Lemma nms_class_acc (l acc : list cand) : nms_class l acc = acc ++ emit l.
Proof.
  unfold emit. remember (length l) as n eqn:Hn.
  revert l acc Hn. induction n as [n IH] using lt_wf_ind. intros l acc ->.
  destruct (decide (l = [])) as [->|Hl].
  { by rewrite !nms_class_nil, app_nil_r. }
  destruct (argmax_lookup l Hl) as [best Hb].
  rewrite !(nms_class_cons _ _ _ Hb).
  pose proof (survivors_length _ _ Hb) as Hlen.
  rewrite (IH _ Hlen _ (acc ++ [best]) eq_refl).
  rewrite (IH _ Hlen _ ([] ++ [best]) eq_refl).
  by rewrite <- app_assoc.
Qed.

Lemma emit_nil : emit [] = [].
Proof. done. Qed.

Lemma emit_cons (l : list cand) (best : cand) :
  l !! np_argmax (c_score <$> l) = Some best ->
  emit l = best :: emit (filter (fun c => keep best c = true)
                           (delete (np_argmax (c_score <$> l)) l)).
Proof.
  intros Hb. unfold emit at 1. rewrite (nms_class_cons _ _ _ Hb).
  by rewrite nms_class_acc.
Qed.

(** Induction along the iterations of the loop. *)
Lemma emit_ind (P : list cand -> Prop) :
  P [] ->
  (forall l best,
     l !! np_argmax (c_score <$> l) = Some best ->
     P (filter (fun c => keep best c = true) (delete (np_argmax (c_score <$> l)) l)) ->
     P l) ->
  forall l, P l.
Proof.
  intros Hnil Hstep l. remember (length l) as n eqn:Hn.
  revert l Hn. induction n as [n IH] using lt_wf_ind. intros l ->.
  destruct (decide (l = [])) as [->|Hl]; [done|].
  destruct (argmax_lookup l Hl) as [best Hb].
  apply (Hstep _ _ Hb). eapply IH; [|done].
  by apply survivors_length.
Qed.

(** Every emitted row is a row of the partition, unchanged. *)
Lemma emit_subseteq (l : list cand) : emit l ⊆ l.
Proof.
  induction l as [|l best Hb IH] using emit_ind; [done|].
  rewrite (emit_cons _ _ Hb). intros x [->|Hx]%elem_of_cons.
  - by eapply list_elem_of_lookup_2.
  - apply IH in Hx. apply list_elem_of_filter in Hx as [_ Hx].
    by eapply list_subseteq_delete.
Qed.

Lemma emit_nonempty (l : list cand) : l <> [] -> emit l <> [].
Proof.
  intros Hl. destruct (argmax_lookup l Hl) as [best Hb].
  by rewrite (emit_cons _ _ Hb).
Qed.

(** A second pass over the emitted rows of one class emits them again. *)
Lemma emit_idempotent (l : list cand) : emit (emit l) = emit l.
Proof.
  induction l as [|l best Hb IH] using emit_ind; [done|].
  rewrite (emit_cons _ _ Hb).
  set (S := filter (fun c => keep best c = true) (delete (np_argmax (c_score <$> l)) l)) in *.
  assert (Forall (fun c => keep best c = true) (emit S)) as Hkeep.
  { apply Forall_forall. intros x Hx%emit_subseteq.
    by apply list_elem_of_filter in Hx as [Hx _]. }
  assert (np_argmax (c_score <$> best :: emit S) = 0%nat) as Hk.
  { rewrite fmap_cons. unfold np_argmax.
    destruct (is_nan (c_score best)) eqn:Hnan; [done|].
    apply argmax_from_all_le, Forall_fmap, Forall_forall.
    intros x Hx%emit_subseteq. simpl.
    apply list_elem_of_filter in Hx as [_ Hx]. apply list_subseteq_delete in Hx.
    assert ((c_score <$> l) !! np_argmax (c_score <$> l) = Some (c_score best)) as Hs.
    { by rewrite list_lookup_fmap, Hb. }
    pose proof (np_argmax_max _ _ Hs Hnan) as Hall.
    rewrite Forall_fmap, Forall_forall in Hall. by apply Hall. }
  rewrite (emit_cons (best :: emit S) best) by (by rewrite Hk).
  rewrite Hk. simpl. f_equal.
  assert (filter (fun c => keep best c = true) (emit S) = emit S) as ->; [|done].
  clear -Hkeep. induction Hkeep as [|x r Hx Hr IHr]; [done|].
  by rewrite filter_cons_True, IHr.
Qed.

(** ** The loop over classes *)

Lemma nms_classes_acc (cs : list Z) (pool acc : list cand) :
  nms_classes cs pool acc = acc ++ (cs ≫= fun c => emit (class_rows c pool)).
Proof.
  revert acc. induction cs as [|c cs IH]; intros acc; simpl.
  - by rewrite app_nil_r.
  - by rewrite IH, nms_class_acc, <- app_assoc.
Qed.

Lemma suppress_eq `{SetOrder} (pool : list cand) :
  suppress pool = set_to_list (c_class <$> pool) ≫= fun c => emit (class_rows c pool).
Proof. unfold suppress. by rewrite nms_classes_acc. Qed.

Lemma emit_class_rows (c : Z) (pool : list cand) :
  Forall (fun x => c_class x = c) (emit (class_rows c pool)).
Proof.
  apply Forall_forall. intros x Hx%emit_subseteq.
  by apply list_elem_of_filter in Hx as [Hx _].
Qed.

Lemma class_rows_all (c : Z) (l : list cand) :
  Forall (fun x => c_class x = c) l -> class_rows c l = l.
Proof.
  unfold class_rows. induction 1 as [|x r Hx Hr IH]; [done|].
  by rewrite filter_cons_True, IH.
Qed.

Lemma class_rows_none (c c' : Z) (l : list cand) :
  c <> c' -> Forall (fun x => c_class x = c') l -> class_rows c l = [].
Proof.
  unfold class_rows. intros Hne. induction 1 as [|x r Hx Hr IH]; [done|].
  rewrite filter_cons_False; [done|]. congruence.
Qed.

Lemma class_rows_bind_notin (c : Z) (cs : list Z) (pool : list cand) :
  c ∉ cs -> class_rows c (cs ≫= fun k => emit (class_rows k pool)) = [].
Proof.
  induction cs as [|c0 cs IH]; intros Hnotin; [done|].
  rewrite bind_cons. unfold class_rows at 1. rewrite filter_app.
  fold (class_rows c (emit (class_rows c0 pool))).
  rewrite (class_rows_none c c0) by (set_solver || apply emit_class_rows).
  apply IH. set_solver.
Qed.

Lemma class_rows_bind (c : Z) (cs : list Z) (pool : list cand) :
  NoDup cs -> c ∈ cs ->
  class_rows c (cs ≫= fun k => emit (class_rows k pool)) = emit (class_rows c pool).
Proof.
  intros Hnd. induction Hnd as [|k cs Hnotin Hnd IH]; [by intros ?%elem_of_nil|].
  intros Hin. rewrite bind_cons. unfold class_rows at 1. rewrite filter_app.
  fold (class_rows c (emit (class_rows k pool))).
  fold (class_rows c (cs ≫= fun k => emit (class_rows k pool))).
  destruct (decide (c = k)) as [->|Hne].
  - rewrite class_rows_all by apply emit_class_rows.
    by rewrite class_rows_bind_notin, app_nil_r.
  - rewrite (class_rows_none c k) by (done || apply emit_class_rows).
    apply IH. by apply elem_of_cons in Hin as [?|?].
Qed.

Lemma class_rows_absent (c : Z) (pool : list cand) :
  c ∉ c_class <$> pool -> class_rows c pool = [].
Proof.
  unfold class_rows. induction pool as [|x r IH]; intros Hnotin; [done|].
  rewrite fmap_cons in Hnotin. apply not_elem_of_cons in Hnotin as [Hx Hr].
  rewrite filter_cons_False by congruence. by apply IH.
Qed.

(** Class isolation: the survivors of class [c] are what the loop emits
    for the class-[c] rows alone. *)
Lemma class_rows_suppress `{SetOrder} (c : Z) (pool : list cand) :
  class_rows c (suppress pool) = emit (class_rows c pool).
Proof.
  rewrite suppress_eq.
  destruct (decide (c ∈ c_class <$> pool)) as [Hin|Hnotin].
  - apply class_rows_bind; [apply set_to_list_NoDup | ]. by apply (proj2 (set_to_list_elem _ _)).
  - rewrite (class_rows_absent c pool) by done.
    apply class_rows_bind_notin. by rewrite set_to_list_elem.
Qed.

(** The classes present after suppression are those of the pool. *)
Lemma suppress_classes `{SetOrder} (pool : list cand) (c : Z) :
  c ∈ c_class <$> suppress pool <-> c ∈ c_class <$> pool.
Proof.
  rewrite !list_elem_of_fmap. split.
  - intros (x & -> & Hx). rewrite suppress_eq in Hx.
    apply list_elem_of_bind in Hx as (c & Hx & _).
    apply emit_subseteq, list_elem_of_filter in Hx as [_ Hx]. eauto.
  - intros (x & -> & Hx).
    assert (class_rows (c_class x) pool <> []) as Hne.
    { intros Hnil. assert (x ∈ class_rows (c_class x) pool) as Hin.
      { by apply list_elem_of_filter. }
      rewrite Hnil in Hin. by apply elem_of_nil in Hin. }
    apply emit_nonempty in Hne. rewrite <- class_rows_suppress in Hne.
    destruct (class_rows (c_class x) (suppress pool)) as [|y r] eqn:Ey; [done|].
    assert (y ∈ class_rows (c_class x) (suppress pool)) as Hy by (rewrite Ey; left).
    apply list_elem_of_filter in Hy as [Hy1 Hy2]. eauto.
Qed.

(** The second pass emits, class by class, what the first pass emitted. *)
Lemma suppress_suppress_eq `{SetOrder} (pool : list cand) :
  suppress (suppress pool)
  = set_to_list (c_class <$> suppress pool) ≫= fun c => emit (class_rows c pool).
Proof.
  rewrite (suppress_eq (suppress pool)).
  apply list_bind_ext; [|done]. intros c.
  by rewrite class_rows_suppress, emit_idempotent.
Qed.

Lemma set_to_list_suppress `{SetOrder} (pool : list cand) :
  set_to_list (c_class <$> suppress pool) ≡ₚ set_to_list (c_class <$> pool).
Proof.
  apply NoDup_Permutation; try apply set_to_list_NoDup.
  intros c. by rewrite !set_to_list_elem, suppress_classes.
Qed.

Lemma suppress_idempotent_perm `{SetOrder} (pool : list cand) :
  suppress (suppress pool) ≡ₚ suppress pool.
Proof.
  rewrite suppress_suppress_eq, set_to_list_suppress.
  by rewrite <- suppress_eq.
Qed.

Lemma suppress_idempotent_classes `{SetOrder} (pool : list cand) (c : Z) :
  class_rows c (suppress (suppress pool)) = class_rows c (suppress pool).
Proof. by rewrite !class_rows_suppress, emit_idempotent. Qed.

Lemma suppress_idempotent_eq `{SetOrder} (pool : list cand) :
  set_to_list (c_class <$> suppress pool) = set_to_list (c_class <$> pool) ->
  suppress (suppress pool) = suppress pool.
Proof.
  intros Ho. by rewrite suppress_suppress_eq, Ho, <- suppress_eq.
Qed.

(** * The decode paths *)

Lemma bind_Ok {A B} (m : result A) (f : A -> result B) (b : B) :
  m ≫= f = Ok b <-> exists a, m = Ok a /\ f a = Ok b.
Proof.
  destruct m as [a|e]; simpl; split.
  - eauto.
  - by intros (a' & [= ->] & Hf).
  - done.
  - by intros (a' & [=] & _).
Qed.

(** ** The frame loops *)

Lemma ssd_loop_shift d x entries i n frames :
  ssd_loop d (x :: entries) (S i) n frames = ssd_loop d entries i n frames.
Proof.
  revert i frames. induction n as [|n IH]; intros i frames; simpl; [done|].
  destruct (entries !! i) as [e|]; [|done].
  destruct (ssd_frame d e) as [r|]; simpl; [|done]. apply IH.
Qed.

Lemma ssd_loop_cons d x entries n frames :
  ssd_loop d (x :: entries) 0 (S n) frames
  = r ← ssd_frame d x; ssd_loop d entries 0 n (frames ++ option_list r).
Proof.
  simpl. destruct (ssd_frame d x) as [r|]; simpl; [|done]. apply ssd_loop_shift.
Qed.


Lemma ssd_loop_frames d entries n frames out :
  ssd_loop d entries 0 n frames = Ok out ->
  (n <= length entries)%nat
  /\ exists rs, mapM (ssd_frame d) (take n entries) = Ok rs
                /\ out = frames ++ (rs ≫= option_list).
Proof.
  revert n frames. induction entries as [|x entries IH]; intros n frames.
  - destruct n; simpl; [|done]. intros [= <-]. split; [done|].
    exists []. by rewrite app_nil_r.
  - destruct n as [|n].
    + simpl. intros [= <-]. split; [lia|]. exists []. by rewrite app_nil_r.
    + rewrite ssd_loop_cons. intros (r & Hr & Hloop)%bind_Ok.
      apply IH in Hloop as (Hn & rs & Hrs & ->). split; [simpl; lia|].
      exists (r :: rs). simpl. rewrite Hr. simpl. rewrite Hrs. simpl.
      by rewrite <- app_assoc.
Qed.

Lemma mapM_Ok_lookup {A B} (f : A -> result B) (l : list A) (rs : list B) k a :
  mapM f l = Ok rs -> l !! k = Some a -> exists b, f a = Ok b /\ rs !! k = Some b.
Proof.
  revert rs k. induction l as [|x l IH]; intros rs k; [done|].
  simpl. intros (b & Hb & (bs & Hbs & [= <-])%bind_Ok)%bind_Ok.
  destruct k as [|k]; simpl.
  - intros [= ->]. eauto.
  - intros Hk. by apply (IH _ _ Hbs).
Qed.

Lemma mapM_Ok_elem {A B} (f : A -> result B) (l : list A) (rs : list B) b :
  mapM f l = Ok rs -> b ∈ rs -> exists a, a ∈ l /\ f a = Ok b.
Proof.
  revert rs. induction l as [|x l IH]; intros rs; simpl.
  - intros [= <-]. by intros ?%elem_of_nil.
  - intros (b' & Hb & (bs & Hbs & [= <-])%bind_Ok)%bind_Ok.
    intros [->|Hin]%elem_of_cons.
    + exists x. split; [left|done].
    + destruct (IH _ Hbs Hin) as (a & Ha & Hfa). exists a. split; [by right|done].
Qed.

(** What [get_frames_ssd] returns: the frames of the first [count]
    entries, in order, the skipped ones left out. *)
Lemma get_frames_ssd_frames d out frames :
  get_frames_ssd d out = Ok frames ->
  exists count rs,
    F32.to_int (ssd_count out) = Ok count
    /\ (Z.to_nat count <= length (ssd_entries out))%nat
    /\ mapM (ssd_frame d) (take (Z.to_nat count) (ssd_entries out)) = Ok rs
    /\ frames = rs ≫= option_list.
Proof.
  unfold get_frames_ssd. intros (count & Hc & Hloop)%bind_Ok.
  destruct (ssd_entries out) as [|e0 [|e1 rest]] eqn:He.
  - apply ssd_loop_frames in Hloop as (Hn & rs & Hrs & ->). eauto 10.
  - destruct (Z.ltb_spec 0 count); [done|]. injection Hloop as <-.
    exists count, []. replace (Z.to_nat count) with 0%nat by lia.
    repeat split; try done; simpl; lia.
  - apply ssd_loop_frames in Hloop as (Hn & rs & Hrs & ->). eauto 10.
Qed.

(** Away from a single detection slot the call is the loop. *)
Lemma get_frames_ssd_loop d out count :
  F32.to_int (ssd_count out) = Ok count ->
  length (ssd_entries out) <> 1%nat ->
  get_frames_ssd d out = ssd_loop d (ssd_entries out) 0 (Z.to_nat count) [].
Proof.
  intros Hc Hlen. unfold get_frames_ssd. rewrite Hc. simpl.
  by destruct (ssd_entries out) as [|e0 [|e1 rest]].
Qed.

Lemma yolo_frames_frames d best frames :
  yolo_frames d best = Ok frames <->
  exists rs, mapM (yolo_frame d) best = Ok rs /\ frames = rs ≫= option_list.
Proof.
  revert frames. induction best as [|c best IH]; intros frames; simpl.
  - split; [intros [= <-]; by exists [] | by intros (rs & [= <-] & ->)].
  - split.
    + intros (r & Hr & (more & Hmore & [= <-])%bind_Ok)%bind_Ok.
      apply IH in Hmore as (rs & Hrs & ->). exists (r :: rs).
      by rewrite Hr, Hrs.
    + intros (rs & (r & Hr & (rs' & Hrs & [= <-])%bind_Ok)%bind_Ok & ->).
      rewrite Hr. simpl.
      assert (yolo_frames d best = Ok (rs' ≫= option_list)) as -> by (apply IH; eauto).
      done.
Qed.


(** ** Clamping of pixel coordinates *)

Lemma ssd_bbox_spec d e bb :
  ssd_bbox d e = Ok bb <->
  exists ymin xmin ymax xmax,
    ssd_pixel (e_ymin e) (camera_height d) = Ok ymin
    /\ ssd_pixel (e_xmin e) (camera_width d) = Ok xmin
    /\ ssd_pixel (e_ymax e) (camera_height d) = Ok ymax
    /\ ssd_pixel (e_xmax e) (camera_width d) = Ok xmax
    /\ bb = (Z.max 0 xmin, Z.max 0 ymin,
             Z.min (camera_width d) xmax, Z.min (camera_height d) ymax).
Proof.
  unfold ssd_bbox. split.
  - intros (ymin & H1 & (xmin & H2 & (ymax & H3 & (xmax & H4 & [= <-])%bind_Ok)%bind_Ok)%bind_Ok)%bind_Ok.
    eauto 10.
  - intros (ymin & xmin & ymax & xmax & -> & -> & -> & -> & ->). done.
Qed.

Lemma yolo_bbox_spec d b bb :
  yolo_bbox d b = Ok bb <->
  exists xmin xmax ymin ymax,
    F64.to_int (bx1 b * scale_width d)%float = Ok xmin
    /\ F64.to_int (bx2 b * scale_width d)%float = Ok xmax
    /\ F64.to_int (by1 b * scale_height d)%float = Ok ymin
    /\ F64.to_int (by2 b * scale_height d)%float = Ok ymax
    /\ bb = (Z.max 0 xmin, Z.max 0 ymin,
             Z.min (camera_width d) xmax, Z.min (camera_height d) ymax).
Proof.
  unfold yolo_bbox. split.
  - intros (xmin & H1 & (xmax & H2 & (ymin & H3 & (ymax & H4 & [= <-])%bind_Ok)%bind_Ok)%bind_Ok)%bind_Ok.
    eauto 10.
  - intros (xmin & xmax & ymin & ymax & -> & -> & -> & -> & ->). done.
Qed.

Lemma ssd_frame_Some d e f :
  ssd_frame d e = Ok (Some f) ->
  exists cid,
    F32.to_int (e_class e) = Ok cid
    /\ id2label d !! cid = Some (name f)
    /\ target_rejects d cid = false
    /\ below_threshold d (F32.to_f64 (e_score e)) = false
    /\ prob f = F32.to_f64 (e_score e)
    /\ ssd_bbox d e = Ok (bbox f).
Proof.
  unfold ssd_frame. intros (cid & Hcid & H)%bind_Ok. exists cid.
  destruct (id2label d !! cid) as [nm|]; [|done].
  destruct (target_rejects d cid); [done|].
  destruct (below_threshold d _); [done|].
  apply bind_Ok in H as (bb & Hbb & [= <-]). done.
Qed.

Lemma yolo_frame_Some d c f :
  yolo_frame d c = Ok (Some f) ->
  id2label d !! c_class c = Some (name f)
  /\ target_rejects d (c_class c) = false
  /\ below_threshold d (c_score c) = false
  /\ prob f = c_score c
  /\ yolo_bbox d (c_box c) = Ok (bbox f).
Proof.
  unfold yolo_frame.
  destruct (id2label d !! c_class c) as [nm|]; [|done].
  destruct (target_rejects d _); [done|].
  destruct (below_threshold d _); [done|].
  intros (bb & Hbb & [= <-])%bind_Ok. done.
Qed.

Lemma ssd_frame_clamped d e f : ssd_frame d e = Ok (Some f) -> clamped d f.
Proof.
  intros (cid & _ & _ & _ & _ & _ & Hbb)%ssd_frame_Some.
  apply ssd_bbox_spec in Hbb as (ymin & xmin & ymax & xmax & _ & _ & _ & _ & Hbb).
  unfold clamped, frame_xmin, frame_ymin, frame_xmax, frame_ymax. rewrite Hbb. simpl. lia.
Qed.

Lemma yolo_frame_clamped d c f : yolo_frame d c = Ok (Some f) -> clamped d f.
Proof.
  intros (_ & _ & _ & _ & Hbb)%yolo_frame_Some.
  apply yolo_bbox_spec in Hbb as (xmin & xmax & ymin & ymax & _ & _ & _ & _ & Hbb).
  unfold clamped, frame_xmin, frame_ymin, frame_xmax, frame_ymax. rewrite Hbb. simpl. lia.
Qed.

Lemma frames_of_results {A} (f : A -> result (option frame)) (P : frame -> Prop)
    (l : list A) (rs : list (option frame)) :
  (forall a fr, f a = Ok (Some fr) -> P fr) ->
  mapM f l = Ok rs -> Forall P (rs ≫= option_list).
Proof.
  intros HP Hrs. apply Forall_forall. intros fr Hfr.
  apply list_elem_of_bind in Hfr as (r & Hfr & Hr).
  destruct r as [fr'|]; [|by apply elem_of_nil in Hfr].
  apply list_elem_of_singleton in Hfr as ->.
  destruct (mapM_Ok_elem _ _ _ _ Hrs Hr) as (a & _ & Ha). eauto.
Qed.

Lemma get_frames_yolo_frames `{SetOrder} `{MaxReduce} d outputs frames :
  get_frames_yolo d outputs = Ok frames ->
  exists best rs, mapM (yolo_frame d) best = Ok rs /\ frames = rs ≫= option_list.
Proof.
  unfold get_frames_yolo.
  intros ([anchors xyscales] & _ & (pred & _ & Hrest)%bind_Ok)%bind_Ok.
  destruct (concatenable outputs); [|done].
  destruct (Nat.eqb (class_axis outputs) 0); [done|].
  apply bind_Ok in Hrest as (cands & _ & Hf).
  apply yolo_frames_frames in Hf as (rs & Hrs & ->). eauto.
Qed.

(** ** The label table *)

Lemma load_labels_cons yolo line rest off tbl tbl' :
  line <> EmptyString ->
  load_labels yolo (line :: rest) off tbl = Ok tbl' ->
  exists idx label,
    parse_label_line line = Ok (idx, label)
    /\ load_labels yolo rest (off + 1)
         (LabelTable (<[line_key yolo off idx := label]> (tbl_id2label tbl))
                     (<[label := line_key yolo off idx]> (tbl_label2id tbl)))
       = Ok tbl'.
Proof.
  intros Hne. simpl. apply String.eqb_neq in Hne. rewrite Hne.
  intros ([idx label] & Hp & Hl)%bind_Ok. eauto.
Qed.

(** Keys and labels that no line writes keep their old binding. *)
Lemma load_labels_frame yolo lines off tbl tbl' :
  Forall (fun l => l <> EmptyString) lines ->
  load_labels yolo lines off tbl = Ok tbl' ->
  (forall z,
     (forall k line idx label,
        lines !! k = Some line -> parse_label_line line = Ok (idx, label) ->
        line_key yolo (off + Z.of_nat k) idx <> z) ->
     tbl_id2label tbl' !! z = tbl_id2label tbl !! z)
  /\ (forall s,
        (forall k line idx label,
           lines !! k = Some line -> parse_label_line line = Ok (idx, label) ->
           label <> s) ->
        tbl_label2id tbl' !! s = tbl_label2id tbl !! s).
Proof.
  intros Hne. revert off tbl. induction Hne as [|line rest Hl Hrest IH]; intros off tbl.
  - simpl. by intros [= <-].
  - intros (idx & label & Hp & Hload)%load_labels_cons; [|done].
    destruct (IH _ _ Hload) as [IH1 IH2]. split.
    + intros z Hz. rewrite IH1.
      * simpl. rewrite lookup_insert_ne; [done|].
        specialize (Hz 0%nat line idx label eq_refl Hp).
        by rewrite Z.add_0_r in Hz.
      * intros k line' idx' label' Hk Hp'.
        specialize (Hz (S k) line' idx' label' Hk Hp').
        by replace (off + 1 + Z.of_nat k) with (off + Z.of_nat (S k)) by lia.
    + intros s Hs. rewrite IH2.
      * simpl. rewrite lookup_insert_ne; [done|].
        by apply (Hs 0%nat line idx label).
      * intros k line' idx' label' Hk Hp'. by apply (Hs (S k) line' idx' label').
Qed.

(** The binding written for line [k] is the final one unless a later line
    writes the same key (resp. the same label). *)
Lemma load_labels_lookup yolo lines off tbl tbl' k line idx label :
  Forall (fun l => l <> EmptyString) lines ->
  load_labels yolo lines off tbl = Ok tbl' ->
  lines !! k = Some line -> parse_label_line line = Ok (idx, label) ->
  ((forall k' line' idx' label',
      (k < k')%nat -> lines !! k' = Some line' ->
      parse_label_line line' = Ok (idx', label') ->
      line_key yolo (off + Z.of_nat k') idx' <> line_key yolo (off + Z.of_nat k) idx) ->
   tbl_id2label tbl' !! line_key yolo (off + Z.of_nat k) idx = Some label)
  /\ ((forall k' line' idx' label',
         (k < k')%nat -> lines !! k' = Some line' ->
         parse_label_line line' = Ok (idx', label') -> label' <> label) ->
      tbl_label2id tbl' !! label = Some (line_key yolo (off + Z.of_nat k) idx)).
Proof.
  intros Hne. revert k off tbl.
  induction Hne as [|line0 rest Hl Hrest IH]; intros k off tbl; [done|].
  intros (idx0 & label0 & Hp0 & Hload)%load_labels_cons; [|done].
  destruct k as [|k]; simpl.
  - intros [= ->] Hp. rewrite Hp in Hp0. injection Hp0 as <- <-.
    destruct (load_labels_frame _ _ _ _ _ Hrest Hload) as [F1 F2].
    rewrite Z.add_0_r. split.
    + intros Hlater. rewrite F1; [simpl; by rewrite lookup_insert_eq|].
      intros k' line' idx' label' Hk' Hp'.
      specialize (Hlater (S k') line' idx' label' ltac:(lia) Hk' Hp').
      by replace (off + 1 + Z.of_nat k') with (off + Z.of_nat (S k')) by lia.
    + intros Hlater. rewrite F2; [simpl; by rewrite lookup_insert_eq|].
      intros k' line' idx' label' Hk' Hp'.
      apply (Hlater (S k') line' idx' label'); [lia|done..].
  - intros Hk Hp.
    destruct (IH k (off + 1) _ Hload Hk Hp) as [I1 I2].
    replace (off + 1 + Z.of_nat k) with (off + Z.of_nat (S k)) in * by lia.
    split.
    + intros Hlater. apply I1. intros k' line' idx' label' Hlt Hk' Hp'.
      specialize (Hlater (S k') line' idx' label' ltac:(lia) Hk' Hp').
      by replace (off + 1 + Z.of_nat k') with (off + Z.of_nat (S k')) by lia.
    + intros Hlater. apply I2. intros k' line' idx' label' Hlt Hk' Hp'.
      apply (Hlater (S k') line' idx' label'); [lia|done..].
Qed.

Lemma Detector_init_table path version lines target h w cw ch thr d :
  Detector_init path version lines target h w cw ch thr = Ok d ->
  is_yolo d = PyStr.contains "yolo" path
  /\ load_labels (is_yolo d) lines 0 empty_table
     = Ok (LabelTable (id2label d) (label2id d)).
Proof.
  unfold Detector_init.
  intros ([i2l l2i] & Hload & (tid & _ & [= <-])%bind_Ok)%bind_Ok. done.
Qed.

(** ** Decoding a scale *)

(** Row-major flattening: entry [m * i + r] of the concatenation of blocks
    of length [m] is entry [r] of block [i]. *)
Lemma lookup_bind_blocks {B} (f : nat -> list B) (m s n i r : nat) :
  (forall x, length (f x) = m) -> (i < n)%nat -> (r < m)%nat ->
  (seq s n ≫= f) !! (m * i + r)%nat = f (s + i)%nat !! r.
Proof.
  intros Hlen. revert s i. induction n as [|n IH]; intros s i Hi Hr; [lia|].
  simpl. destruct i as [|i].
  - rewrite Nat.mul_0_r, Nat.add_0_r. simpl.
    rewrite lookup_app_l by (rewrite Hlen; lia). done.
  - rewrite lookup_app_r by (rewrite Hlen; lia). rewrite Hlen.
    replace (m * S i + r - m)%nat with (m * i + r)%nat by lia.
    rewrite IH by lia. by replace (S s + i)%nat with (s + S i)%nat by lia.
Qed.

Lemma length_bind_blocks {B} (f : nat -> list B) (m s n : nat) :
  (forall x, length (f x) = m) -> length (seq s n ≫= f) = (n * m)%nat.
Proof.
  intros Hlen. revert s. induction n as [|n IH]; intros s; [done|].
  simpl. by rewrite length_app, Hlen, IH.
Qed.

Lemma decode_scale_Ok d anchor xyscale t rows :
  decode_scale d anchor xyscale t = Ok rows ->
  dim1 t = dim2 t
  /\ rows = (i ← seq 0 (dim1 t); j ← seq 0 (dim2 t); a ← seq 0 3;
             [decode_cell d t anchor xyscale i j a]).
Proof.
  unfold decode_scale. destruct (Nat.eqb_spec (dim1 t) (dim2 t)) as [Heq|]; [|done].
  by intros [= <-].
Qed.

Lemma decode_scale_lookup d anchor xyscale t rows i j a :
  decode_scale d anchor xyscale t = Ok rows ->
  (i < dim1 t)%nat -> (j < dim2 t)%nat -> (a < 3)%nat ->
  rows !! (3 * (dim2 t * i + j) + a)%nat = Some (decode_cell d t anchor xyscale i j a).
Proof.
  intros [Heq ->]%decode_scale_Ok Hi Hj Ha.
  set (f3 := fun i j : nat => a ← seq 0 3; [decode_cell d t anchor xyscale i j a]).
  set (f2 := fun i : nat => seq 0 (dim2 t) ≫= f3 i).
  change ((seq 0 (dim1 t) ≫= f2) !! (3 * (dim2 t * i + j) + a)%nat
          = Some (decode_cell d t anchor xyscale i j a)).
  assert (forall i j, length (f3 i j) = 3%nat) as Hlen3 by done.
  assert (forall i, length (f2 i) = (3 * dim2 t)%nat) as Hlenj.
  { intros i'. unfold f2. rewrite (length_bind_blocks _ 3) by done. lia. }
  replace (3 * (dim2 t * i + j) + a)%nat with ((3 * dim2 t) * i + (3 * j + a))%nat by lia.
  rewrite (lookup_bind_blocks f2 (3 * dim2 t) 0 (dim1 t) i (3 * j + a)) by (done || lia).
  rewrite Nat.add_0_l. unfold f2.
  rewrite (lookup_bind_blocks (f3 i) 3 0 (dim2 t) j a) by (done || lia).
  rewrite Nat.add_0_l. unfold f3.
  do 3 (destruct a as [|a]; [done|]). lia.
Qed.

Lemma decode_scale_length d anchor xyscale t rows :
  decode_scale d anchor xyscale t = Ok rows ->
  length rows = (3 * (dim1 t * dim2 t))%nat
  /\ Forall (fun r => length (r_probs r) = nclass t) rows.
Proof.
  intros [_ ->]%decode_scale_Ok. split.
  - rewrite (length_bind_blocks _ (dim2 t * 3)); [lia|].
    intros i. rewrite (length_bind_blocks _ 3); [done|].
    intros j. by rewrite (length_bind_blocks _ 1).
  - apply Forall_forall. intros r Hr.
    apply list_elem_of_bind in Hr as (i & Hr & _).
    apply list_elem_of_bind in Hr as (j & Hr & _).
    apply list_elem_of_bind in Hr as (a & Hr & _).
    apply list_elem_of_singleton in Hr as ->.
    unfold decode_cell. destruct (strides d t), (xy_offset _ _ _ _ _), (nth a anchor _).
    simpl. by rewrite !length_fmap, length_seq.
Qed.

(** The rows of output [s] follow those of the outputs before it. *)
Lemma decode_outputs_lookup d anchors xyscales i outputs rows s t anchor xyscale rows_s k :
  decode_outputs d anchors xyscales i outputs = Ok rows ->
  outputs !! s = Some t ->
  anchors !! (i + s)%nat = Some anchor ->
  xyscales !! (i + s)%nat = Some xyscale ->
  decode_scale d anchor xyscale t = Ok rows_s ->
  (k < length rows_s)%nat ->
  rows !! (rows_before outputs s + k)%nat = rows_s !! k.
Proof.
  revert i rows s. induction outputs as [|t0 outputs IH]; intros i rows s; [done|].
  simpl. destruct (anchors !! i) as [anchor0|] eqn:Ha; [|done].
  destruct (xyscales !! i) as [xyscale0|] eqn:Hx; [|done].
  intros (rows0 & H0 & (more & Hmore & [= <-])%bind_Ok)%bind_Ok.
  destruct s as [|s]; simpl.
  - intros [= ->]. rewrite Nat.add_0_r, Ha, Hx. intros [= <-] [= <-] Hs Hk.
    rewrite H0 in Hs. injection Hs as <-.
    unfold rows_before. simpl. by rewrite lookup_app_l.
  - intros Hs Han Hxs Hsc Hk.
    replace (i + S s)%nat with (S i + s)%nat in Han, Hxs by lia.
    pose proof (IH _ _ _ Hmore Hs Han Hxs Hsc Hk) as Hl.
    destruct (decode_scale_length _ _ _ _ _ H0) as [Hl0 _].
    unfold rows_before in *.
    set (B := sum_list (_ <$> take s outputs)) in *.
    change (sum_list (_ <$> take (S s) (t0 :: outputs)))
      with (3 * (dim1 t0 * dim2 t0) + B)%nat.
    rewrite <- Hl0, <- Hl. clearbody B.
    rewrite lookup_app_r by lia. f_equal. lia.
Qed.

Lemma decode_outputs_scales d anchors xyscales i outputs rows s t :
  decode_outputs d anchors xyscales i outputs = Ok rows ->
  outputs !! s = Some t ->
  exists anchor xyscale rows_s,
    anchors !! (i + s)%nat = Some anchor
    /\ xyscales !! (i + s)%nat = Some xyscale
    /\ decode_scale d anchor xyscale t = Ok rows_s
    /\ rows_s `sublist_of` rows.
Proof.
  revert i rows s. induction outputs as [|t0 outputs IH]; intros i rows s; [done|].
  simpl. destruct (anchors !! i) as [anchor|] eqn:Ha; [|done].
  destruct (xyscales !! i) as [xyscale|] eqn:Hx; [|done].
  intros (rows0 & H0 & (more & Hmore & [= <-])%bind_Ok)%bind_Ok.
  destruct s as [|s]; simpl.
  - intros [= ->]. rewrite Nat.add_0_r. exists anchor, xyscale, rows0.
    repeat split; try done. by apply sublist_inserts_r.
  - intros Hs. destruct (IH _ _ _ Hmore Hs) as (an & xs & rs & ? & ? & ? & ?).
    exists an, xs, rs. replace (i + S s)%nat with (S i + s)%nat by lia.
    repeat split; try done. by apply sublist_inserts_l.
Qed.

(** ** Integers converted to floats *)

Section IntegerRounding.
Variables p emx : Z.
Hypothesis Hp : 1 < p.
Hypothesis Hemx : p <= emx.

(** An integer of at most [p] bits is representable: rounding it shifts
    its mantissa up to [p] digits and changes nothing. *)
Lemma binary_round_int (s : bool) (m : positive) :
  Zpos m < 2 ^ p ->
  exists mz ez,
    binary_round p emx s m 0 = S754_finite s mz ez
    /\ SpecFloat.valid_binary p emx (S754_finite s mz ez) = true
    /\ ez <= 0
    /\ Zpos mz = Zpos m * 2 ^ (- ez).
Proof.
  intros Hm.
  pose proof (digits2_pos_bounds m) as [Hlo Hhi].
  assert (Hd : Zpos (digits2_pos m) <= p).
  { destruct (Z_le_gt_dec (Zpos (digits2_pos m)) p) as [|Hgt]; [done|].
    assert (2 ^ p <= 2 ^ (Zpos (digits2_pos m) - 1)) by (apply Z.pow_le_mono_r; lia).
    lia. }
  assert (Hf : fexp p emx (Zpos (digits2_pos m) + 0) = Zpos (digits2_pos m) - p).
  { unfold fexp, SpecFloat.emin. lia. }
  unfold binary_round. rewrite Hf. unfold shl_align.
  destruct (Zpos (digits2_pos m) - p - 0) as [|k|k] eqn:Hk; [|lia|].
  - exists m, 0. assert (Hc : canonical_mantissa p emx m 0 = true).
    { unfold canonical_mantissa. rewrite Hf. apply Z.eqb_eq. lia. }
    rewrite binary_round_aux_canonical by done.
    assert ((0 <=? emx - p) = true) as -> by (apply Z.leb_le; lia).
    split; [done|]. split; [|split; [lia | simpl; lia]].
    simpl. unfold bounded. rewrite Hc. simpl. apply Z.leb_le. lia.
  - exists (Pos.iter xO m k), (Zpos (digits2_pos m) - p).
    assert (Hc : canonical_mantissa p emx (Pos.iter xO m k) (Zpos (digits2_pos m) - p) = true).
    { unfold canonical_mantissa. rewrite digits2_pos_iter_xO.
      apply Z.eqb_eq. unfold fexp, SpecFloat.emin. lia. }
    rewrite binary_round_aux_canonical by done.
    assert ((Zpos (digits2_pos m) - p <=? emx - p) = true) as -> by (apply Z.leb_le; lia).
    split; [done|]. split; [|split; [lia|]].
    + simpl. unfold bounded. rewrite Hc. simpl. apply Z.leb_le. lia.
    + rewrite Zpos_iter_xO. f_equal. f_equal. lia.
Qed.

Lemma trunc_finite_int (s : bool) (m mz : positive) (ez : Z) :
  ez <= 0 -> Zpos mz = Zpos m * 2 ^ (- ez) ->
  F64.trunc_finite s mz ez = if s then Zneg m else Zpos m.
Proof.
  intros Hez Hmz. unfold F64.trunc_finite.
  assert ((match ez with
           | Zneg k => Z.shiftr (Zpos mz) (Zpos k)
           | _ => Z.shiftl (Zpos mz) ez
           end) = Zpos m) as ->; [|by destruct s].
  destruct ez as [|k|k]; [|lia|].
  - rewrite Z.shiftl_0_r, Hmz. simpl. lia.
  - rewrite Z.shiftr_div_pow2 by lia. rewrite Hmz.
    replace (- Zneg k) with (Zpos k) by lia.
    apply Z.div_mul. apply Z.pow_nonzero; lia.
Qed.

(** Converting an integer of at most [p] bits and truncating it back. *)
Lemma sf_to_int_normalize (z : Z) :
  - 2 ^ p < z < 2 ^ p ->
  SpecFloat.valid_binary p emx (binary_normalize p emx z 0 false) = true
  /\ F64.sf_to_int (binary_normalize p emx z 0 false) = Ok z
  /\ (0 <= z -> SFleb (S754_zero false) (binary_normalize p emx z 0 false) = true)
  /\ (0 < z -> exists m e, binary_normalize p emx z 0 false = S754_finite false m e).
Proof.
  intros Hz. destruct z as [|m|m]; unfold binary_normalize.
  - repeat split; try done; intros; lia.
  - destruct (binary_round_int false m) as (mz & ez & -> & Hv & Hez & Hmz); [lia|].
    split; [done|]. split; [|split; [done | eauto]].
    simpl. f_equal. by apply (trunc_finite_int false m).
  - destruct (binary_round_int true m) as (mz & ez & -> & Hv & Hez & Hmz); [lia|].
    split; [done|]. split; [|split; [lia | lia]].
    simpl. f_equal. by apply (trunc_finite_int true m).
Qed.

End IntegerRounding.

Lemma of_Z_SF (z : Z) :
  - 2 ^ 53 < z < 2 ^ 53 ->
  Prim2SF (F64.of_Z z) = binary_normalize prec emax z 0 false.
Proof.
  intros Hz. unfold F64.of_Z. apply Prim2SF_SF2Prim.
  by apply (sf_to_int_normalize prec emax). 
Qed.

Lemma of_Z_nonneg (z : Z) :
  0 <= z < 2 ^ 53 ->
  (0 <=? F64.of_Z z)%float = true /\ is_nan (F64.of_Z z) = false.
Proof.
  intros Hz.
  destruct (sf_to_int_normalize prec emax ltac:(done) ltac:(done) z
              ltac:(change prec with 53; lia))
    as (_ & _ & Hle & _).
  rewrite leb_spec, is_nan_spec, of_Z_SF by lia.
  change (Prim2SF 0) with (S754_zero false).
  specialize (Hle ltac:(lia)). split; [done|].
  by destruct (binary_normalize prec emax z 0 false) as [| | |].
Qed.

Lemma of_Z_pos (z : Z) :
  0 < z < 2 ^ 53 ->
  (0 <? F64.of_Z z)%float = true /\ (F64.of_Z z <? infinity)%float = true.
Proof.
  intros Hz.
  destruct (sf_to_int_normalize prec emax ltac:(done) ltac:(done) z
              ltac:(change prec with 53; lia))
    as (_ & _ & _ & Hpos).
  destruct (Hpos ltac:(lia)) as (m & e & Hm).
  rewrite !ltb_spec, of_Z_SF by lia. rewrite Hm.
  change (Prim2SF 0) with (S754_zero false).
  change (Prim2SF infinity) with (S754_infinity false). done.
Qed.

Lemma ltb_false_leb (x y : float) :
  (x <? y)%float = false -> is_nan x = false -> is_nan y = false ->
  (y <=? x)%float = true.
Proof.
  rewrite ltb_spec, leb_spec, !is_nan_spec. unfold SFltb, SFleb.
  sf_cases (Prim2SF x); sf_cases (Prim2SF y); simpl; try done;
    change (Pos.compare_cont Eq ?a ?b) with (Pos.compare a b);
    cmp_cases; simpl; try done; try lia.
Qed.

(** ** Rounding is monotone *)

Lemma iter_pos_nat {A} (f : A -> A) (p : positive) (x : A) :
  SpecFloat.iter_pos f p x = Nat.iter (Pos.to_nat p) f x.
Proof.
  revert x. induction p as [p IH|p IH|]; intros x; cbn [SpecFloat.iter_pos].
  - rewrite !IH, Pos2Nat.inj_xI.
    replace (S (2 * Pos.to_nat p)) with (Pos.to_nat p + S (Pos.to_nat p))%nat by lia.
    rewrite Nat.iter_add. f_equal. by rewrite Nat.iter_succ_r.
  - rewrite !IH, Pos2Nat.inj_xO.
    replace (2 * Pos.to_nat p)%nat with (Pos.to_nat p + Pos.to_nat p)%nat by lia.
    by rewrite Nat.iter_add.
  - done.
Qed.

Lemma shr_1_spec (m : Z) (r s : bool) :
  0 <= m ->
  shr_1 {| shr_m := m; shr_r := r; shr_s := s |}
  = {| shr_m := m / 2; shr_r := Z.odd m; shr_s := r || s |}.
Proof.
  intros Hm. destruct m as [|[p|p|]|p]; try lia; cbn [shr_1].
  - done.
  - f_equal. rewrite Pos2Z.inj_xI. apply Z.div_unique with 1; lia.
  - f_equal. rewrite Pos2Z.inj_xO. apply Z.div_unique with 0; lia.
  - done.
Qed.

Lemma loc_of_shr_record_exact m r s :
  r || s = negb (match loc_of_shr_record {| shr_m := m; shr_r := r; shr_s := s |} with
                 | loc_Exact => true | _ => false end).
Proof. by destruct r, s. Qed.

(** [n] steps of [shr_1] on an exact record: the quotient by [2^n] and
    the position of the remainder. *)
Lemma iter_shr_1 (M : Z) (n : nat) :
  0 <= M ->
  let mrs := Nat.iter n shr_1 {| shr_m := M; shr_r := false; shr_s := false |} in
  shr_m mrs = M / 2 ^ Z.of_nat n
  /\ loc_of_shr_record mrs = loc_of (M mod 2 ^ Z.of_nat n) (2 ^ Z.of_nat n).
Proof.
  intros HM. induction n as [|n IH].
  - simpl. rewrite Z.div_1_r, Z.mod_1_r. done.
  - cbn zeta in *. rewrite Nat.iter_succ.
    destruct (Nat.iter n shr_1 _) as [m r s]. destruct IH as [Hm Hl].
    cbn [shr_m] in Hm.
    assert (Hp : 0 < 2 ^ Z.of_nat n) by (apply Z.pow_pos_nonneg; lia).
    assert (0 <= m) by (subst m; apply Z.div_pos; lia).
    rewrite shr_1_spec by done. cbn [shr_m].
    rewrite Nat2Z.inj_succ, Z.pow_succ_r by lia.
    pose proof (Z.mod_pos_bound M (2 ^ Z.of_nat n) Hp) as Hrho.
    set (rho := M mod 2 ^ Z.of_nat n) in *.
    split.
    + subst m. rewrite Z.div_div by lia. f_equal. lia.
    + rewrite (Z.mul_comm 2), Z.rem_mul_r by lia. fold rho. rewrite <- Hm.
      pose proof (loc_of_shr_record_exact m r s) as Hrs. rewrite Hl in Hrs.
      rewrite Hrs. clear Hrs Hl.
      rewrite (Zmod_odd m). unfold loc_of.
      destruct (Z.odd m); destruct (Z.eqb_spec rho 0) as [E|E]; simpl.
      * rewrite E. destruct (Z.eqb_spec (0 + 2 ^ Z.of_nat n * 1) 0); [lia|].
        f_equal. symmetry. apply Z.compare_eq_iff. lia.
      * destruct (Z.eqb_spec (rho + 2 ^ Z.of_nat n * 1) 0); [lia|].
        f_equal. symmetry. apply Z.compare_gt_iff. lia.
      * rewrite E. simpl. destruct (Z.eqb_spec (0 + 2 ^ Z.of_nat n * 0) 0); [done|lia].
      * destruct (Z.eqb_spec (rho + 2 ^ Z.of_nat n * 0) 0); [lia|].
        f_equal. symmetry. apply Z.compare_lt_iff. lia.
Qed.

Lemma shr_exact (M : Z) (e n : Z) :
  0 <= M -> 0 <= n ->
  let res := shr {| shr_m := M; shr_r := false; shr_s := false |} e n in
  round_nearest_even (shr_m res.1) (loc_of_shr_record res.1) = rne M n
  /\ shr_m res.1 = M / 2 ^ n
  /\ res.2 = e + n.
Proof.
  intros HM Hn. unfold shr, rne. destruct n as [|p|p]; [| |lia].
  - simpl. rewrite Z.div_1_r, Z.mod_1_r. split; [done|]. split; [done|lia].
  - cbn [fst snd]. rewrite iter_pos_nat.
    destruct (iter_shr_1 M (Pos.to_nat p) HM) as [Hm Hl]. cbn zeta in Hm, Hl.
    rewrite positive_nat_Z in Hm, Hl. by rewrite Hm, Hl.
Qed.

Lemma rne_bounds (M n : Z) : M / 2 ^ n <= rne M n <= M / 2 ^ n + 1.
Proof.
  unfold rne, round_nearest_even, loc_of.
  destruct (_ =? 0); [lia|]. destruct (_ ?= _); [destruct (Z.even _)| |]; lia.
Qed.

Lemma rne_mono (M1 M2 n : Z) :
  0 <= n -> M1 <= M2 -> rne M1 n <= rne M2 n.
Proof.
  intros Hn HM.
  assert (Hp : 0 < 2 ^ n) by (apply Z.pow_pos_nonneg; lia).
  pose proof (Z.div_le_mono M1 M2 (2 ^ n) Hp HM) as Hq.
  destruct (Z.eq_dec (M1 / 2 ^ n) (M2 / 2 ^ n)) as [Heq|Hne].
  - pose proof (Z.div_mod M1 (2 ^ n) ltac:(lia)) as H1.
    pose proof (Z.div_mod M2 (2 ^ n) ltac:(lia)) as H2.
    pose proof (Z.mod_pos_bound M1 (2 ^ n) Hp) as B1.
    pose proof (Z.mod_pos_bound M2 (2 ^ n) Hp) as B2.
    assert (Hr : M1 mod 2 ^ n <= M2 mod 2 ^ n) by nia.
    unfold rne, round_nearest_even, loc_of. rewrite <- Heq.
    destruct (Z.eqb_spec (M1 mod 2 ^ n) 0), (Z.eqb_spec (M2 mod 2 ^ n) 0);
      try lia;
      repeat match goal with
             | |- context [?a ?= ?b] => destruct (Z.compare_spec a b)
             end;
      destruct (Z.even (M1 / 2 ^ n)); lia.
  - pose proof (rne_bounds M1 n). pose proof (rne_bounds M2 n). lia.
Qed.

Lemma rne_scale (M n j : Z) :
  0 <= n -> 0 <= j -> rne (M * 2 ^ j) (n + j) = rne M n.
Proof.
  intros Hn Hj.
  assert (Hp : 0 < 2 ^ n) by (apply Z.pow_pos_nonneg; lia).
  assert (Hq : 0 < 2 ^ j) by (apply Z.pow_pos_nonneg; lia).
  unfold rne. rewrite Z.pow_add_r by lia.
  rewrite Z.div_mul_cancel_r by lia.
  rewrite Z.mul_mod_distr_r by lia.
  f_equal. unfold loc_of.
  destruct (Z.eqb_spec (M mod 2 ^ n) 0) as [E|E].
  - rewrite E. done.
  - destruct (Z.eqb_spec (M mod 2 ^ n * 2 ^ j) 0) as [E'|E']; [nia|].
    f_equal. destruct (Z.compare_spec (2 * (M mod 2 ^ n)) (2 ^ n)).
    + apply Z.compare_eq_iff. nia.
    + apply Z.compare_lt_iff. nia.
    + apply Z.compare_gt_iff. nia.
Qed.

Lemma rne_0 (M : Z) : rne M 0 = M.
Proof.
  unfold rne. rewrite Z.pow_0_r, Z.div_1_r, Z.mod_1_r. done.
Qed.

Lemma shr_fexp_exact (M e : Z) :
  0 <= M ->
  let t := fexp prec emax (Zdigits2 M + e) in
  let res := shr_fexp prec emax M e loc_Exact in
  (t <= e -> res = ({| shr_m := M; shr_r := false; shr_s := false |}, e))
  /\ (e < t ->
      round_nearest_even (shr_m res.1) (loc_of_shr_record res.1) = rne M (t - e)
      /\ shr_m res.1 = M / 2 ^ (t - e)
      /\ res.2 = t).
Proof.
  intros HM t res. subst res. unfold shr_fexp.
  change (shr_record_of_loc M loc_Exact)
    with {| shr_m := M; shr_r := false; shr_s := false |}.
  fold t. split.
  - intros Hle. unfold shr. destruct (t - e) eqn:Hn; [done|lia|done].
  - intros Hlt. destruct (shr_exact M e (t - e) HM ltac:(lia)) as (H1 & H2 & H3).
    cbn zeta in H1, H2, H3. rewrite H1, H2, H3. repeat split; lia.
Qed.

(** The value of a rounded product: with [t] the exponent of the binade
    of [M * 2^E], the result is [rne] of [M * 2^E / 2^t], times [2^t]. *)
Lemma binary_round_aux_value (M : positive) (E c : Z) :
  let t := fexp prec emax (Zpos (digits2_pos M) + E) in
  c <= E -> c <= t ->
  match binary_round_aux prec emax false (Zpos M) E loc_Exact with
  | S754_nan => False
  | S754_infinity s => True
  | S754_zero s => rne (Zpos M * 2 ^ (E - c)) (t - c) = 0
  | S754_finite s m e =>
      t <= e /\ Zpos m * 2 ^ (e - t) = rne (Zpos M * 2 ^ (E - c)) (t - c)
  end.
Proof.
  intros t HcE Hct.
  assert (Ht : -1074 <= t) by (unfold t, fexp, SpecFloat.emin, prec, emax; lia).
  unfold binary_round_aux.
  destruct (shr_fexp_exact (Zpos M) E ltac:(lia)) as [Hle Hlt].
  cbn zeta in Hle, Hlt. cbn [Zdigits2] in Hle, Hlt. fold t in Hle, Hlt.
  destruct (Z_le_gt_dec t E) as [Hcase|Hcase].
  - (* no shift *)
    rewrite (Hle Hcase). cbn [shr_m loc_of_shr_record round_nearest_even].
    rewrite (Hle Hcase). cbn [shr_m].
    assert (Hv : Zpos M * 2 ^ (E - t) = rne (Zpos M * 2 ^ (E - c)) (t - c)).
    { replace (Zpos M * 2 ^ (E - c)) with (Zpos M * 2 ^ (E - t) * 2 ^ (t - c)).
      - replace (t - c) with (0 + (t - c)) at 2 by lia.
        rewrite rne_scale by lia. by rewrite rne_0.
      - rewrite <- Z.mul_assoc, <- Z.pow_add_r by lia. do 2 f_equal. lia. }
    destruct (E <=? emax - prec); [|done]. split; [lia|done].
  - (* shift by [t - E] bits *)
    destruct (Hlt ltac:(lia)) as (Hr & Hm & He). clear Hle Hlt.
    destruct (shr_fexp prec emax (Zpos M) E loc_Exact) as [mrs' e'].
    cbn [fst snd] in Hr, Hm, He. subst e'. rewrite Hr.
    assert (Hscale : rne (Zpos M * 2 ^ (E - c)) (t - c) = rne (Zpos M) (t - E)).
    { replace (t - c) with (t - E + (E - c)) by lia. apply rne_scale; lia. }
    rewrite Hscale.
    set (mr := rne (Zpos M) (t - E)) in *.
    assert (Hp : 0 < 2 ^ (t - E)) by (apply Z.pow_pos_nonneg; lia).
    assert (Hmr : 0 <= mr <= 2 ^ 53).
    { pose proof (rne_bounds (Zpos M) (t - E)) as Hb. fold mr in Hb.
      assert (0 <= Zpos M / 2 ^ (t - E)) by (apply Z.div_pos; lia).
      assert (Zpos M / 2 ^ (t - E) < 2 ^ 53); [|lia].
      apply Z.div_lt_upper_bound; [lia|].
      pose proof (digits2_pos_bounds M) as [_ Hd].
      eapply Z.lt_le_trans; [exact Hd|].
      rewrite <- Z.pow_add_r by lia. apply Z.pow_le_mono_r; [lia|].
      unfold t, fexp, SpecFloat.emin, prec, emax in *. lia. }
    destruct (shr_fexp_exact mr t ltac:(lia)) as [Hle2 Hlt2].
    cbn zeta in Hle2, Hlt2.
    destruct (Z_le_gt_dec (fexp prec emax (Zdigits2 mr + t)) t) as [Hc2|Hc2].
    + rewrite (Hle2 Hc2). cbn [shr_m].
      destruct mr as [|q|q]; [done| |lia].
      destruct (t <=? emax - prec); [|done]. split; [lia|].
      rewrite Z.sub_diag. simpl. lia.
    + (* the carry: [mr = 2^53] *)
      destruct mr as [|q|q] eqn:Emr; [|clear Hle2|lia].
      { exfalso. revert Hc2. unfold fexp, SpecFloat.emin, prec, emax. simpl. lia. }
      cbn [Zdigits2] in Hc2, Hlt2.
      pose proof (digits2_pos_bounds q) as [Hq1 Hq2].
      assert (Hd : Zpos (digits2_pos q) = 54).
      { assert (53 < Zpos (digits2_pos q)).
        { revert Hc2. unfold fexp, SpecFloat.emin, prec, emax. lia. }
        assert (Zpos (digits2_pos q) - 1 <= 53); [|lia].
        destruct (Z_le_gt_dec (Zpos (digits2_pos q) - 1) 53) as [|Hgt]; [done|].
        assert (2 ^ 54 <= 2 ^ (Zpos (digits2_pos q) - 1)) by (apply Z.pow_le_mono_r; lia).
        change (2 ^ 54) with (2 * 2 ^ 53) in *. lia. }
      rewrite Hd in *.
      assert (Hq : Zpos q = 2 ^ 53) by (change (54 - 1) with 53 in Hq1; lia).
      assert (Hf : fexp prec emax (54 + t) = t + 1).
      { unfold fexp, SpecFloat.emin, prec, emax. lia. }
      rewrite Hf in *.
      destruct (Hlt2 ltac:(lia)) as (_ & Hm2 & He2).
      destruct (shr_fexp prec emax (Zpos q) t loc_Exact) as [mrs'' e''].
      cbn [fst snd] in Hm2, He2. subst e''. rewrite Hm2.
      replace (t + 1 - t) with 1 by lia. rewrite Hq.
      change (2 ^ 53 / 2 ^ 1) with (Zpos (2 ^ 52)).
      destruct (t + 1 <=? emax - prec); [|done]. split; [lia|].
      replace (t + 1 - t) with 1 by lia. done.
Qed.

Lemma binade_le (M1 M2 : positive) (E1 E2 c : Z) :
  c <= E1 -> c <= E2 ->
  Zpos M1 * 2 ^ (E1 - c) <= Zpos M2 * 2 ^ (E2 - c) ->
  Zpos (digits2_pos M1) + E1 <= Zpos (digits2_pos M2) + E2.
Proof.
  intros H1 H2 Hle.
  destruct (Z_le_gt_dec (Zpos (digits2_pos M1) + E1) (Zpos (digits2_pos M2) + E2))
    as [|Hgt]; [done|exfalso].
  pose proof (digits2_pos_bounds M1) as [L1 _].
  pose proof (digits2_pos_bounds M2) as [_ U2].
  assert (P1 : 0 < 2 ^ (E1 - c)) by (apply Z.pow_pos_nonneg; lia).
  assert (P2 : 0 < 2 ^ (E2 - c)) by (apply Z.pow_pos_nonneg; lia).
  assert (A : 2 ^ (Zpos (digits2_pos M1) - 1 + (E1 - c)) <= Zpos M1 * 2 ^ (E1 - c)).
  { rewrite Z.pow_add_r by lia. nia. }
  assert (B : Zpos M2 * 2 ^ (E2 - c) < 2 ^ (Zpos (digits2_pos M2) + (E2 - c))).
  { rewrite Z.pow_add_r by lia. nia. }
  assert (C : 2 ^ (Zpos (digits2_pos M2) + (E2 - c))
              <= 2 ^ (Zpos (digits2_pos M1) - 1 + (E1 - c))).
  { apply Z.pow_le_mono_r; lia. }
  lia.
Qed.

(** Rounding is monotone in the value it rounds: the values are compared
    as integers, in units of [2^c]. *)
Lemma rne_value_mono (M1 M2 : positive) (E1 E2 c : Z) :
  c <= E1 -> c <= E2 -> c <= -1074 ->
  Zpos M1 * 2 ^ (E1 - c) <= Zpos M2 * 2 ^ (E2 - c) ->
  let t1 := fexp prec emax (Zpos (digits2_pos M1) + E1) in
  let t2 := fexp prec emax (Zpos (digits2_pos M2) + E2) in
  c <= t1 /\ c <= t2
  /\ rne (Zpos M1 * 2 ^ (E1 - c)) (t1 - c) * 2 ^ (t1 - c)
     <= rne (Zpos M2 * 2 ^ (E2 - c)) (t2 - c) * 2 ^ (t2 - c).
Proof.
  intros H1 H2 Hc Hle t1 t2.
  pose proof (binade_le M1 M2 E1 E2 c H1 H2 Hle) as Hmu.
  assert (Ht1 : -1074 <= t1) by (unfold t1, fexp, SpecFloat.emin, prec, emax; lia).
  assert (Ht2 : -1074 <= t2) by (unfold t2, fexp, SpecFloat.emin, prec, emax; lia).
  assert (Ht : t1 <= t2) by (unfold t1, t2, fexp, SpecFloat.emin, prec, emax; lia).
  split; [lia|]. split; [lia|].
  set (N1 := Zpos M1 * 2 ^ (E1 - c)) in *. set (N2 := Zpos M2 * 2 ^ (E2 - c)) in *.
  assert (P1 : 0 < 2 ^ (t1 - c)) by (apply Z.pow_pos_nonneg; lia).
  assert (P2 : 0 < 2 ^ (t2 - c)) by (apply Z.pow_pos_nonneg; lia).
  destruct (Z.eq_dec t1 t2) as [Heq|Hne].
  - rewrite <- Heq. pose proof (rne_mono N1 N2 (t1 - c) ltac:(lia) Hle). nia.
  - assert (Hlt : t1 < t2) by lia.
    pose proof (digits2_pos_bounds M1) as [_ U1].
    pose proof (digits2_pos_bounds M2) as [L2 _].
    assert (Q1 : 0 < 2 ^ (E1 - c)) by (apply Z.pow_pos_nonneg; lia).
    assert (Q2 : 0 < 2 ^ (E2 - c)) by (apply Z.pow_pos_nonneg; lia).
    (* the smaller value rounds to at most [2^53] units of [2^t1] *)
    assert (R1 : rne N1 (t1 - c) <= 2 ^ 53).
    { pose proof (rne_bounds N1 (t1 - c)) as Hb.
      assert (N1 / 2 ^ (t1 - c) < 2 ^ 53); [|lia].
      apply Z.div_lt_upper_bound; [lia|].
      rewrite <- Z.pow_add_r by lia.
      eapply Z.lt_le_trans with (2 ^ (Zpos (digits2_pos M1) + (E1 - c))).
      - rewrite Z.pow_add_r by lia. unfold N1. nia.
      - apply Z.pow_le_mono_r; [lia|].
        unfold t1, fexp, SpecFloat.emin, prec, emax in *. lia. }
    (* the larger one to at least [2^52] units of [2^t2] *)
    assert (Et2 : t2 = Zpos (digits2_pos M2) + E2 - 53).
    { unfold t1, t2, fexp, SpecFloat.emin, prec, emax in *. lia. }
    assert (R2 : 2 ^ 52 <= rne N2 (t2 - c)).
    { pose proof (rne_bounds N2 (t2 - c)) as Hb.
      assert (2 ^ 52 <= N2 / 2 ^ (t2 - c)); [|lia].
      apply Z.div_le_lower_bound; [lia|].
      rewrite <- Z.pow_add_r by lia.
      replace (t2 - c + 52) with (Zpos (digits2_pos M2) - 1 + (E2 - c)) by lia.
      rewrite Z.pow_add_r by lia. unfold N2. nia. }
    assert (S : 2 ^ 53 * 2 ^ (t1 - c) <= 2 ^ 52 * 2 ^ (t2 - c)).
    { rewrite <- !Z.pow_add_r by lia. apply Z.pow_le_mono_r; lia. }
    assert (0 <= rne N1 (t1 - c)).
    { pose proof (rne_bounds N1 (t1 - c)).
      assert (0 <= N1 / 2 ^ (t1 - c)) by (apply Z.div_pos; unfold N1; nia). lia. }
    nia.
Qed.

Lemma round_mono (M1 M2 : positive) (E1 E2 c : Z) :
  c <= E1 -> c <= E2 -> c <= -1074 ->
  Zpos M1 * 2 ^ (E1 - c) <= Zpos M2 * 2 ^ (E2 - c) ->
  forall s1 m1 e1,
    binary_round_aux prec emax false (Zpos M1) E1 loc_Exact = S754_finite s1 m1 e1 ->
    match binary_round_aux prec emax false (Zpos M2) E2 loc_Exact with
    | S754_finite s2 m2 e2 =>
        c <= e1 /\ c <= e2 /\ Zpos m1 * 2 ^ (e1 - c) <= Zpos m2 * 2 ^ (e2 - c)
    | S754_zero _ | S754_nan => False
    | S754_infinity _ => True
    end.
Proof.
  intros H1 H2 Hc Hle s1 m1 e1 Hr1.
  destruct (rne_value_mono M1 M2 E1 E2 c H1 H2 Hc Hle) as (Ht1 & Ht2 & Hv).
  cbn zeta in Ht1, Ht2, Hv.
  pose proof (binary_round_aux_value M1 E1 c H1 Ht1) as V1.
  pose proof (binary_round_aux_value M2 E2 c H2 Ht2) as V2.
  cbn zeta in V1, V2. rewrite Hr1 in V1. destruct V1 as [He1 V1].
  set (t1 := fexp prec emax (Zpos (digits2_pos M1) + E1)) in *.
  set (t2 := fexp prec emax (Zpos (digits2_pos M2) + E2)) in *.
  assert (P1 : 0 < 2 ^ (t1 - c)) by (apply Z.pow_pos_nonneg; lia).
  assert (P2 : 0 < 2 ^ (t2 - c)) by (apply Z.pow_pos_nonneg; lia).
  assert (Q1 : 0 < 2 ^ (e1 - t1)) by (apply Z.pow_pos_nonneg; lia).
  assert (W1 : Zpos m1 * 2 ^ (e1 - c)
               = rne (Zpos M1 * 2 ^ (E1 - c)) (t1 - c) * 2 ^ (t1 - c)).
  { rewrite <- V1, <- Z.mul_assoc, <- Z.pow_add_r by lia. do 2 f_equal. lia. }
  destruct (binary_round_aux prec emax false (Zpos M2) E2 loc_Exact)
    as [s2|s2| |s2 m2 e2]; [|done|done|].
  - rewrite V2 in Hv. nia.
  - destruct V2 as [He2 V2].
    split; [lia|]. split; [lia|]. rewrite W1.
    replace (Zpos m2 * 2 ^ (e2 - c))
      with (rne (Zpos M2 * 2 ^ (E2 - c)) (t2 - c) * 2 ^ (t2 - c)); [done|].
    rewrite <- V2, <- Z.mul_assoc, <- Z.pow_add_r by lia. do 2 f_equal. lia.
Qed.

(** Truncation of a non-negative finite value, from its integer form in
    units of [2^c]. *)
Lemma trunc_finite_scaled (m : positive) (e c : Z) :
  c <= e -> c <= 0 ->
  F64.trunc_finite false m e = (Zpos m * 2 ^ (e - c)) / 2 ^ (- c).
Proof.
  intros Hce Hc. unfold F64.trunc_finite.
  assert (P : 0 < 2 ^ (- c)) by (apply Z.pow_pos_nonneg; lia).
  destruct e as [|k|k].
  - rewrite Z.shiftl_0_r. replace (0 - c) with (- c) by lia.
    by rewrite Z.div_mul by lia.
  - rewrite Z.shiftl_mul_pow2 by lia.
    replace (Zpos k - c) with (Zpos k + - c) by lia.
    rewrite Z.pow_add_r, Z.mul_assoc by lia. by rewrite Z.div_mul by lia.
  - rewrite Z.shiftr_div_pow2 by lia.
    assert (Q : 0 < 2 ^ (Zneg k - c)) by (apply Z.pow_pos_nonneg; lia).
    replace (2 ^ (- c)) with (2 ^ Zpos k * 2 ^ (Zneg k - c)).
    + by rewrite Z.div_mul_cancel_r by lia.
    + rewrite <- Z.pow_add_r by lia. f_equal. lia.
Qed.

Lemma trunc_finite_nonneg (m : positive) (e : Z) : 0 <= F64.trunc_finite false m e.
Proof.
  unfold F64.trunc_finite. destruct e as [|k|k].
  - rewrite Z.shiftl_0_r. lia.
  - apply Z.shiftl_nonneg. lia.
  - apply Z.shiftr_nonneg. lia.
Qed.

Lemma sf_to_int_finite s m e z :
  F64.sf_to_int (S754_finite s m e) = Ok z -> z = F64.trunc_finite s m e.
Proof. by intros [= <-]. Qed.

Lemma sf_to_int_zero s z : F64.sf_to_int (S754_zero s) = Ok z -> z = 0.
Proof. by intros [= <-]. Qed.

(** The product of two non-negative finite values, truncated: monotone in
    the first factor. *)
Lemma SFmul_trunc_mono (mx my ms : positive) (ex ey es : Z) (a b : Z) :
  canonical_mantissa prec emax mx ex = true ->
  canonical_mantissa prec emax my ey = true ->
  ex < ey \/ (ex = ey /\ (mx <= my)%positive) ->
  F64.sf_to_int (SF64mul (S754_finite false mx ex) (S754_finite false ms es)) = Ok a ->
  F64.sf_to_int (SF64mul (S754_finite false my ey) (S754_finite false ms es)) = Ok b ->
  0 <= a <= b.
Proof.
  intros Hx Hy Hle. unfold SF64mul. cbn [SFmul xorb].
  pose proof (aligned_le mx my ex ey Hx Hy Hle) as Hal.
  rewrite !shl_align_fst in Hal by lia.
  set (cx := Z.min ex ey) in *.
  set (c := Z.min (cx + es) (-1074)).
  assert (Hmono : Zpos (mx * ms) * 2 ^ (ex + es - c) <= Zpos (my * ms) * 2 ^ (ey + es - c)).
  { replace (ex + es - c) with ((ex - cx) + (cx + es - c)) by lia.
    replace (ey + es - c) with ((ey - cx) + (cx + es - c)) by lia.
    rewrite !Z.pow_add_r by lia. rewrite !Pos2Z.inj_mul.
    assert (0 < 2 ^ (cx + es - c)) by (apply Z.pow_pos_nonneg; lia).
    nia. }
  pose proof (round_mono (mx * ms) (my * ms) (ex + es) (ey + es) c
                ltac:(lia) ltac:(lia) ltac:(lia) Hmono) as Hr.
  pose proof (binary_round_aux_sign false (Zpos (mx * ms)) (ex + es) loc_Exact ltac:(lia)) as S1.
  pose proof (binary_round_aux_sign false (Zpos (my * ms)) (ey + es) loc_Exact ltac:(lia)) as S2.
  destruct (binary_round_aux prec emax false (Zpos (mx * ms)) (ex + es) loc_Exact)
    as [s1|s1| |s1 m1 e1] eqn:R1; [|done|done|].
  - (* the smaller product rounds to zero *)
    intros ->%sf_to_int_zero.
    destruct (binary_round_aux prec emax false (Zpos (my * ms)) (ey + es) loc_Exact)
      as [s2|s2| |s2 m2 e2]; [|done|done|].
    + intros ->%sf_to_int_zero. lia.
    + subst s2. intros ->%sf_to_int_finite. pose proof (trunc_finite_nonneg m2 e2). lia.
  - subst s1. specialize (Hr false m1 e1 eq_refl).
    destruct (binary_round_aux prec emax false (Zpos (my * ms)) (ey + es) loc_Exact)
      as [s2|s2| |s2 m2 e2]; [done|done|done|].
    subst s2. destruct Hr as (H1 & H2 & Hv).
    intros ->%sf_to_int_finite ->%sf_to_int_finite. split; [apply trunc_finite_nonneg|].
    rewrite (trunc_finite_scaled m1 e1 c), (trunc_finite_scaled m2 e2 c) by lia.
    apply Z.div_le_mono; [apply Z.pow_pos_nonneg; lia | done].
Qed.

(** [int(x * s) <= int(y * s)] for [0 <= x <= y] and [0 <= s]. *)
Lemma mul_to_int_mono (x y s : float) (a b : Z) :
  (0 <=? x)%float = true -> (x <=? y)%float = true -> (0 <=? s)%float = true ->
  F64.to_int (x * s) = Ok a -> F64.to_int (y * s) = Ok b ->
  0 <= a <= b.
Proof.
  unfold F64.to_int. rewrite !leb_spec, !mul_spec.
  change (Prim2SF 0) with (S754_zero false).
  pose proof (Prim2SF_valid x) as Vx. pose proof (Prim2SF_valid y) as Vy.
  destruct (Prim2SF x) as [sx|sx| |sx mx ex]; try done;
    destruct (Prim2SF y) as [sy|sy| |sy my ey]; try done;
    destruct (Prim2SF s) as [ss|ss| |ss ms es]; try done.
  all: try (destruct sx; try done); try (destruct sy; try done);
    try (destruct ss; try done).
  all: try (by intros _ _ _ [= <-] [= <-]).
  all: intros H0 Hxy Hs.
  - (* zero and a finite value *)
    unfold SF64mul. cbn [SFmul xorb]. intros ->%sf_to_int_zero.
    pose proof (binary_round_aux_sign false (Zpos (my * ms)) (ey + es) loc_Exact ltac:(lia)) as S2.
    destruct (binary_round_aux prec emax false (Zpos (my * ms)) (ey + es) loc_Exact)
      as [s2|s2| |s2 m2 e2]; [|done|done|].
    + intros ->%sf_to_int_zero. lia.
    + subst s2. intros ->%sf_to_int_finite. pose proof (trunc_finite_nonneg m2 e2). lia.
  - unfold SF64mul. cbn [SFmul xorb F64.sf_to_int]. intros [= <-].
    pose proof (binary_round_aux_sign false (Zpos (my * ms)) (ey + es) loc_Exact ltac:(lia)) as S2.
    destruct (binary_round_aux prec emax false (Zpos (my * ms)) (ey + es) loc_Exact)
      as [s2|s2| |s2 m2 e2]; [|done|done|].
    + intros ->%sf_to_int_zero. lia.
    + subst s2. intros ->%sf_to_int_finite. pose proof (trunc_finite_nonneg m2 e2). lia.
  - (* two finite values *)
    simpl in Vx, Vy. unfold bounded in Vx, Vy.
    apply andb_true_iff in Vx as [Vx _]. apply andb_true_iff in Vy as [Vy _].
    apply SFmul_trunc_mono; try done.
    revert Hxy. unfold SFleb, SFcompare.
    change (Pos.compare_cont Eq mx my) with (Pos.compare mx my).
    destruct (Z.compare_spec ex ey); [|lia|done].
    destruct (Pos.compare_spec mx my); [lia|lia|done].
Qed.

(** ** What the suppressor emits, and what a call of the anchor path went through *)

Lemma emit_submseteq (l : list cand) : emit l ⊆+ l.
Proof.
  induction l as [|l best Hb IH] using emit_ind; [done|].
  rewrite (emit_cons _ _ Hb).
  trans (best :: delete (np_argmax (c_score <$> l)) l).
  - apply submseteq_skip. etrans; [exact IH|].
    apply sublist_submseteq, sublist_filter.
  - apply Permutation_submseteq. symmetry. by apply delete_Permutation.
Qed.

Lemma class_rows_partition (cs : list Z) (pool : list cand) :
  NoDup cs -> (cs ≫= fun c => class_rows c pool) ⊆+ pool.
Proof.
  intros Hnd. revert pool. induction Hnd as [|c cs Hc Hnd IH]; intros pool.
  - apply submseteq_nil_l.
  - rewrite bind_cons.
    trans (filter (fun x => c_class x = c) pool ++ filter (fun x => ¬ c_class x = c) pool);
      [|apply Permutation_submseteq, filter_app_complement].
    apply submseteq_app; [done|].
    assert ((cs ≫= fun k => class_rows k pool)
            = (cs ≫= fun k => class_rows k (filter (fun x => ¬ c_class x = c) pool))) as ->;
      [|apply IH].
    clear IH Hnd. induction cs as [|k cs IHcs]; [done|]. rewrite !bind_cons.
    rewrite IHcs by (intros Hin; apply Hc; by right). f_equal.
    unfold class_rows. symmetry. apply list_filter_filter_l.
    intros x -> ->. apply Hc. by left.
Qed.

Lemma suppress_submseteq `{SetOrder} (pool : list cand) : suppress pool ⊆+ pool.
Proof.
  rewrite suppress_eq.
  etrans; [|apply (class_rows_partition (set_to_list (c_class <$> pool)) pool),
             set_to_list_NoDup].
  induction (set_to_list (c_class <$> pool)) as [|c cs IH]; [done|].
  rewrite !bind_cons. apply submseteq_app; [apply emit_submseteq | exact IH].
Qed.

Lemma get_frames_yolo_inv `{SetOrder} `{MaxReduce} d outputs frames :
  get_frames_yolo d outputs = Ok frames ->
  exists anchors xyscales rows cands,
    yolo_params (yolo_version d) = Ok (anchors, xyscales)
    /\ decode_outputs d anchors xyscales 0 outputs = Ok rows
    /\ concatenable outputs = true
    /\ class_axis outputs <> 0%nat
    /\ mapM (row_cand d) rows = Ok cands
    /\ yolo_frames d (suppress (filter (fun c => mask d c = true) cands)) = Ok frames.
Proof.
  unfold get_frames_yolo.
  intros ([anchors xyscales] & Hp & (rows & Hrows & Hrest)%bind_Ok)%bind_Ok.
  destruct (concatenable outputs) eqn:Hc; [|done].
  destruct (Nat.eqb_spec (class_axis outputs) 0) as [|Hax]; [done|].
  apply bind_Ok in Hrest as (cands & Hcands & Hf).
  exists anchors, xyscales, rows, cands. done.
Qed.

(** ** Pixels of ordered coordinates *)

Lemma to_int_mul_nan (x s : float) (a : Z) :
  F64.to_int (x * s) = Ok a -> is_nan x = false.
Proof.
  unfold F64.to_int. rewrite mul_spec, is_nan_spec.
  by destruct (Prim2SF x).
Qed.

Lemma to_int_zero_mul (s : float) (a : Z) : F64.to_int (0 * s) = Ok a -> a = 0.
Proof.
  unfold F64.to_int. rewrite mul_spec. change (Prim2SF 0) with (S754_zero false).
  destruct (Prim2SF s) as [[]|[]| |[] m e]; try done; by intros [= <-].
Qed.

Lemma maximum_not_nan (a b : float) :
  is_nan (F64.maximum a b) = false -> is_nan a = false.
Proof.
  unfold F64.maximum. destruct (is_nan a) eqn:Ha; [|done].
  by rewrite orb_true_r, Ha.
Qed.

Lemma minimum_not_nan (a b : float) :
  is_nan (F64.minimum a b) = false -> is_nan a = false /\ is_nan b = false.
Proof.
  unfold F64.minimum. destruct (is_nan a) eqn:Ha.
  - by rewrite orb_true_r, Ha.
  - rewrite orb_false_r. destruct (a <=? b)%float eqn:Hle; [|done].
    intros _. split; [done|].
    revert Hle. rewrite leb_spec, is_nan_spec.
    by destruct (Prim2SF a) as [[]|[]| |[] ? ?], (Prim2SF b) as [[]|[]| |[] ? ?].
Qed.

(** Clamped pixels of two ordered raw pixels, the smaller one inside the
    frame. *)
Lemma clamp_ordered (u v size : Z) :
  Z.max 0 u <= Z.min size v <-> u <= v /\ u <= size /\ 0 <= v /\ 0 <= size.
Proof. lia. Qed.

(** One axis of the anchor path: the clipped coordinates [lo] and [hi] of
    a box lie between 0 and the side of the model input, and their pixels
    are in order. *)
Lemma yolo_axis_ordered (lo hi : float) (side : Z) (scale : float) (limit u v : Z) :
  0 <= limit -> (0 <=? scale)%float = true ->
  pixel_within side scale limit = true ->
  (F64.minimum hi (F64.of_Z side) <? F64.maximum lo 0)%float = false ->
  F64.to_int (F64.maximum lo 0 * scale) = Ok u ->
  F64.to_int (F64.minimum hi (F64.of_Z side) * scale) = Ok v ->
  Z.max 0 u <= Z.min limit v.
Proof.
  intros Hlim Hs Hpw Hlt Hu Hv.
  pose proof (to_int_mul_nan _ _ _ Hu) as Nlo'.
  pose proof (to_int_mul_nan _ _ _ Hv) as Nhi'.
  pose proof (maximum_not_nan _ _ Nlo') as Nlo.
  destruct (minimum_not_nan _ _ Nhi') as [Nhi Nside].
  destruct (maximum_ge lo 0 Nlo eq_refl) as [_ H0].
  destruct (minimum_le hi (F64.of_Z side) Nhi Nside) as [_ Htop].
  pose proof (ltb_false_leb _ _ Hlt Nhi' Nlo') as Hle.
  unfold pixel_within in Hpw.
  destruct (F64.to_int (F64.of_Z side * scale)) as [top|] eqn:Htopv; [|done].
  apply Z.leb_le in Hpw.
  pose proof (mul_to_int_mono _ _ _ _ _ H0 Hle Hs Hu Hv) as [? ?].
  pose proof (mul_to_int_mono _ _ _ _ _ (leb_trans _ _ _ H0 Hle) Htop Hs Hv Htopv) as [? ?].
  apply clamp_ordered. lia.
Qed.

Lemma yolo_frame_ordered (d : Detector) (b : box) (c : cand) (f : frame) :
  scales_into_frame d = true ->
  c_box c = clip_box d b ->
  yolo_frame d c = Ok (Some f) -> ordered f.
Proof.
  unfold scales_into_frame. intros Hd Hbox (_ & _ & _ & _ & Hbb)%yolo_frame_Some.
  repeat (apply andb_true_iff in Hd as [Hd ?]).
  apply Z.leb_le in Hd.
  assert (0 <= camera_height d) by (by apply Z.leb_le).
  apply yolo_bbox_spec in Hbb as (xmin & xmax & ymin & ymax & Hx1 & Hx2 & Hy1 & Hy2 & Hbb).
  unfold ordered, frame_xmin, frame_ymin, frame_xmax, frame_ymax. rewrite Hbb.
  cbn beta iota. rewrite Hbox in Hx1, Hx2, Hy1, Hy2.
  revert Hx1 Hx2 Hy1 Hy2. unfold clip_box. change (F64.of_Z 0) with 0%float.
  cbn [bx1 bx2 by1 by2].
  destruct (F64.minimum (bx2 b) (F64.of_Z (image_width d)) <? F64.maximum (bx1 b) 0)%float
    eqn:Ex;
    destruct (F64.minimum (by2 b) (F64.of_Z (image_height d)) <? F64.maximum (by1 b) 0)%float
      eqn:Ey;
    cbn [orb bx1 bx2 by1 by2];
    try (intros ->%to_int_zero_mul ->%to_int_zero_mul ->%to_int_zero_mul ->%to_int_zero_mul;
         lia).
  intros Hx1 Hx2 Hy1 Hy2. split.
  - by apply (yolo_axis_ordered (bx1 b) (bx2 b) (image_width d) (scale_width d)
                (camera_width d) xmin xmax).
  - by apply (yolo_axis_ordered (by1 b) (by2 b) (image_height d) (scale_height d)
                (camera_height d) ymin ymax).
Qed.

(** One axis of the direct path. *)
Lemma ssd_axis_ordered (lo hi : F32.t) (size u v : Z) :
  0 <= size < 2 ^ 53 ->
  (0 <=? F32.to_f64 lo)%float = true ->
  (F32.to_f64 lo <=? F32.to_f64 hi)%float = true ->
  (F32.to_f64 hi <=? 1)%float = true ->
  ssd_pixel lo size = Ok u -> ssd_pixel hi size = Ok v ->
  Z.max 0 u <= Z.min size v.
Proof.
  unfold ssd_pixel. intros Hsize H0 Hle H1 Hu Hv.
  destruct (of_Z_nonneg size Hsize) as [Hs _].
  assert (Htop : F64.to_int (1 * F64.of_Z size) = Ok size).
  { rewrite mul_1_l. unfold F64.to_int. rewrite of_Z_SF by lia.
    apply (sf_to_int_normalize prec emax); [done|done|].
    change prec with 53. lia. }
  pose proof (mul_to_int_mono _ _ _ _ _ H0 Hle Hs Hu Hv) as [? ?].
  pose proof (mul_to_int_mono _ _ _ _ _ (leb_trans _ _ _ H0 Hle) H1 Hs Hv Htop) as [? ?].
  apply clamp_ordered. lia.
Qed.

Lemma ssd_frame_ordered (d : Detector) (e : ssd_entry) (f : frame) :
  0 <= camera_width d < 2 ^ 53 -> 0 <= camera_height d < 2 ^ 53 ->
  unit_box e = true ->
  ssd_frame d e = Ok (Some f) -> ordered f.
Proof.
  intros Hw Hh Hb (cid & _ & _ & _ & _ & _ & Hbb)%ssd_frame_Some.
  unfold unit_box in Hb. cbn zeta in Hb.
  repeat (apply andb_true_iff in Hb as [Hb ?]).
  apply ssd_bbox_spec in Hbb as (ymin & xmin & ymax & xmax & Hy1 & Hx1 & Hy2 & Hx2 & Hbb).
  unfold ordered, frame_xmin, frame_ymin, frame_xmax, frame_ymax. rewrite Hbb.
  cbn beta iota. split.
  - by apply (ssd_axis_ordered (e_xmin e) (e_xmax e) (camera_width d) xmin xmax).
  - by apply (ssd_axis_ordered (e_ymin e) (e_ymax e) (camera_height d) ymin ymax).
Qed.

Lemma frames_of_results_elem {A} (f : A -> result (option frame)) (P : frame -> Prop)
    (l : list A) (rs : list (option frame)) :
  (forall a fr, a ∈ l -> f a = Ok (Some fr) -> P fr) ->
  mapM f l = Ok rs -> Forall P (rs ≫= option_list).
Proof.
  intros HP Hrs. apply Forall_forall. intros fr Hfr.
  apply list_elem_of_bind in Hfr as (r & Hfr & Hr).
  destruct r as [fr'|]; [|by apply elem_of_nil in Hfr].
  apply list_elem_of_singleton in Hfr as ->.
  destruct (mapM_Ok_elem _ _ _ _ Hrs Hr) as (a & Hin & Ha). eauto.
Qed.

Lemma row_cand_box `{MaxReduce} (d : Detector) (r : row) (c : cand) :
  row_cand d r = Ok c -> c_box c = clip_box d (corners r).
Proof.
  unfold row_cand. destruct (_ <$> r_probs r); [done|]. by intros [= <-].
Qed.

(** * The claims *)

(** C1, as the code has it.  With a score exactly equal to the threshold:
    the direct path keeps the entry (its guard is [prob < threshold]); the
    re-check after suppression in the anchor path keeps the row (same
    guard); but the mask applied before suppression in the anchor path is
    [scores > threshold], which discards the row, so it is not in the pool
    handed to the suppressor. *)
Theorem threshold_boundary (d : Detector) :
  (forall (e : ssd_entry) (cid : Z) (nm : string) (bb : Z * Z * Z * Z),
     F32.to_int (e_class e) = Ok cid -> id2label d !! cid = Some nm ->
     target_rejects d cid = false ->
     F32.to_f64 (e_score e) = threshold d ->
     ssd_bbox d e = Ok bb ->
     ssd_frame d e = Ok (Some (MkFrame nm (threshold d) bb)))
  /\ (forall (c : cand) (nm : string) (bb : Z * Z * Z * Z),
        id2label d !! c_class c = Some nm ->
        target_rejects d (c_class c) = false ->
        c_score c = threshold d ->
        yolo_bbox d (c_box c) = Ok bb ->
        yolo_frame d c = Ok (Some (MkFrame nm (threshold d) bb)))
  /\ (forall (c : cand) (cands : list cand),
        c_score c = threshold d ->
        mask d c = false /\ c ∉ filter (fun x => mask d x = true) cands).
Proof.
  split; [|split].
  - intros e cid nm bb Hcid Hnm Ht Hs Hbb. unfold ssd_frame.
    rewrite Hcid. simpl. rewrite Hnm, Ht.
    unfold below_threshold. rewrite Hs, ltb_irrefl, Hbb. done.
  - intros c nm bb Hnm Ht Hs Hbb. unfold yolo_frame.
    rewrite Hnm, Ht. unfold below_threshold. rewrite Hs, ltb_irrefl, Hbb. done.
  - intros c cands Hs.
    assert (mask d c = false) as Hm.
    { unfold mask, score_mask. rewrite Hs, ltb_irrefl. apply andb_false_r. }
    split; [done|]. intros [Hc _]%list_elem_of_filter. congruence.
Qed.

(** C1 fails as stated on the anchor path: a candidate of positive area
    whose score equals the threshold 0.5 is dropped before suppression and
    the path returns no frame, while the same candidate with score 0.75 is
    returned. *)
Lemma threshold_boundary_counterexample :
  exists c f,
    @row_cand sequential_max demo_yolo (decode_cell demo_yolo (demo_tensor 0.5)
                          [(10, 14); (23, 27); (37, 58)] 1 0 0 0) = Ok c
    /\ c_score c = threshold demo_yolo
    /\ scale_mask c = true
    /\ mask demo_yolo c = false
    /\ @get_frames_yolo cpython_order sequential_max demo_yolo [demo_tensor 0.5] = Ok []
    /\ @get_frames_yolo cpython_order sequential_max demo_yolo [demo_tensor 0.75] = Ok [f].
Proof.
  do 2 eexists. split; [by vm_compute|]. by vm_compute.
Qed.

Lemma threshold_boundary_witness :
  ssd_frame demo_ssd (demo_entry 17 0.5)
  = Ok (Some (MkFrame "cat" 0.5 (64, 64, 320, 320)))
  /\ yolo_frame demo_yolo (MkCand (MkBox 10 20 110 220) 0 0.5)
     = Ok (Some (MkFrame "person" 0.5 (15, 23, 169, 253)))
  /\ mask demo_yolo (MkCand (MkBox 10 20 110 220) 0 0.5) = false.
Proof.
  destruct (threshold_boundary demo_ssd) as (Hssd & _ & _).
  destruct (threshold_boundary demo_yolo) as (_ & Hyolo & Hmask).
  split; [|split].
  - apply (Hssd (demo_entry 17 0.5) 17 "cat"%string); by vm_compute.
  - apply (Hyolo (MkCand (MkBox 10 20 110 220) 0 0.5) "person"%string); by vm_compute.
  - by apply (Hmask (MkCand (MkBox 10 20 110 220) 0 0.5) []).
Defined.

(** C2. Two candidates with the same box and different class ids both
    survive: the pool made of the two emits both, and in any pool that
    contains them the survivors of either class are exactly what the loop
    emits for the rows of that class alone, so a row is only ever removed by
    an emitted row of its own class; in particular the row selected first in
    its class partition always survives. *)
Theorem nms_cross_class_survive `{SetOrder} (b : box) (c1 c2 : Z) (s1 s2 : float) :
  c1 <> c2 ->
  let b1 := MkCand b c1 s1 in
  let b2 := MkCand b c2 s2 in
  suppress [b1; b2] ≡ₚ [b1; b2]
  /\ forall pool : list cand,
       b1 ∈ pool -> b2 ∈ pool ->
       class_rows c1 (suppress pool) = nms_class (class_rows c1 pool) []
       /\ class_rows c2 (suppress pool) = nms_class (class_rows c2 pool) []
       /\ (class_rows c1 pool !! np_argmax (c_score <$> class_rows c1 pool) = Some b1 ->
           b1 ∈ suppress pool)
       /\ (class_rows c2 pool !! np_argmax (c_score <$> class_rows c2 pool) = Some b2 ->
           b2 ∈ suppress pool).
Proof.
  intros Hne b1 b2. split.
  - assert (class_rows c1 [b1; b2] = [b1]) as E1.
    { unfold class_rows. rewrite filter_cons_True by done.
      by rewrite filter_cons_False by (simpl; congruence). }
    assert (class_rows c2 [b1; b2] = [b2]) as E2.
    { unfold class_rows. rewrite filter_cons_False by (simpl; congruence).
      by rewrite filter_cons_True by done. }
    assert (forall x, emit [x] = [x]) as Hone.
    { intros x.
      assert (np_argmax (c_score <$> [x]) = 0%nat) as Hk.
      { simpl. by destruct (is_nan (c_score x)). }
      rewrite (emit_cons [x] x) by (by rewrite Hk). by rewrite Hk. }
    rewrite suppress_eq.
    assert (set_to_list (c_class <$> [b1; b2]) ≡ₚ [c1; c2]) as ->.
    { apply NoDup_Permutation; [apply set_to_list_NoDup| |].
      - apply NoDup_cons. split; [by intros ?%list_elem_of_singleton|apply NoDup_singleton].
      - intros x. by rewrite set_to_list_elem. }
    simpl. by rewrite E1, E2, !Hone.
  - intros pool Hin1 Hin2.
    assert (forall c x,
              class_rows c pool !! np_argmax (c_score <$> class_rows c pool) = Some x ->
              x ∈ suppress pool) as Hfirst.
    { intros c x Hx.
      assert (x ∈ class_rows c (suppress pool)) as Hin.
      { rewrite class_rows_suppress, (emit_cons _ _ Hx). left. }
      by apply list_elem_of_filter in Hin as [_ Hin]. }
    repeat split; try apply class_rows_suppress; apply Hfirst.
Qed.

Lemma nms_cross_class_survive_witness :
  let b := MkBox 10 20 110 220 in
  let b1 := MkCand b 7 0.9 in
  let b2 := MkCand b 15 0.8 in
  bboxes_iou b b = 1%float
  /\ @suppress cpython_order [b1; b2] ≡ₚ [b1; b2]
  /\ forall pool : list cand,
       b1 ∈ pool -> b2 ∈ pool ->
       class_rows 7 (@suppress cpython_order pool) = nms_class (class_rows 7 pool) []
       /\ class_rows 15 (@suppress cpython_order pool) = nms_class (class_rows 15 pool) []
       /\ (class_rows 7 pool !! np_argmax (c_score <$> class_rows 7 pool) = Some b1 ->
           b1 ∈ @suppress cpython_order pool)
       /\ (class_rows 15 pool !! np_argmax (c_score <$> class_rows 15 pool) = Some b2 ->
           b2 ∈ @suppress cpython_order pool).
Proof.
  split; [by vm_compute|].
  apply (@nms_cross_class_survive cpython_order (MkBox 10 20 110 220) 7 15 0.9 0.8).
  lia.
Defined.

(** C3, as the code has it.  For two identical boxes of positive width
    and height whose area is positive and can be doubled without overflow,
    [bboxes_iou] returns exactly 1.0.  For two disjoint boxes of positive
    total area it returns [np.finfo(np.float32).eps = 2^-23], not 0.0: the
    quotient 0 is raised to epsilon by [np.maximum].  Disjoint means that
    the boxes, of finite coordinates, are separated along one axis (one
    ends where the other begins, or before) and that their overlap along
    the other axis does not overflow; more generally it is enough that the
    extent [right_down - left_up] the code computes is not positive along
    one axis.  In every case the result is NaN or at least epsilon, so it is
    never negative and never zero. *)
Theorem bboxes_iou_values :
  (forall b : box,
     (0 <? bx2 b - bx1 b)%float = true ->
     (0 <? by2 b - by1 b)%float = true ->
     (0 <? box_area b)%float = true ->
     (box_area b + box_area b <? infinity)%float = true ->
     bboxes_iou b b = 1%float)
  /\ (forall b1 b2 : box,
        finite_box b1 = true -> finite_box b2 = true ->
        (separated_w b1 b2 = true /\ (inter_h b1 b2 <? infinity)%float = true)
        \/ (separated_h b1 b2 = true /\ (inter_w b1 b2 <? infinity)%float = true) ->
        (0 <? box_area b1 + box_area b2)%float = true ->
        bboxes_iou b1 b2 = F64.eps32)
  /\ (forall b1 b2 : box,
        ((overlap_w b1 b2 <=? 0)%float = true
         /\ (inter_h b1 b2 <? infinity)%float = true)
        \/ ((overlap_h b1 b2 <=? 0)%float = true
            /\ (inter_w b1 b2 <? infinity)%float = true) ->
        (0 <? box_area b1 + box_area b2)%float = true ->
        bboxes_iou b1 b2 = F64.eps32)
  /\ (forall b1 b2 : box,
        is_nan (bboxes_iou b1 b2) = true
        \/ (F64.eps32 <=? bboxes_iou b1 b2)%float = true)
  /\ (0 <? F64.eps32)%float = true.
Proof.
  split; [|split; [|split; [|split]]].
  - apply bboxes_iou_self.
  - intros b1 b2 F1 F2 [[Hw Hh]|[Hh Hw]] Hu.
    + apply bboxes_iou_disjoint_w; [by apply separated_w_overlap|done..].
    + apply bboxes_iou_disjoint_h; [by apply separated_h_overlap|done..].
  - intros b1 b2 [[Hw Hh]|[Hh Hw]] Hu.
    + by apply bboxes_iou_disjoint_w.
    + by apply bboxes_iou_disjoint_h.
  - apply bboxes_iou_lower_bound.
  - done.
Qed.

(** C3 fails as stated: for the disjoint unit squares at the origin and at
    (2, 2) the result is 2^-23, which is positive, not 0.0. *)
Lemma bboxes_iou_values_counterexample :
  bboxes_iou (MkBox 0 0 1 1) (MkBox 2 2 3 3) = 0x1p-23%float
  /\ (bboxes_iou (MkBox 0 0 1 1) (MkBox 2 2 3 3) =? 0)%float = false
  /\ (0 <? bboxes_iou (MkBox 0 0 1 1) (MkBox 2 2 3 3))%float = true.
Proof. by vm_compute. Qed.

Lemma bboxes_iou_values_witness :
  bboxes_iou (MkBox 10 20 110 220) (MkBox 10 20 110 220) = 1%float
  /\ bboxes_iou (MkBox 0 0 1 1) (MkBox 2 2 3 3) = F64.eps32
  /\ bboxes_iou (MkBox 0 0 1 1) (MkBox 1 0 2 1) = F64.eps32.
Proof.
  destruct bboxes_iou_values as (Hsame & Hsep & Hdisj & _).
  split; [|split].
  - apply Hsame; by vm_compute.
  - apply Hdisj; [left; split|]; by vm_compute.
  - apply Hsep; [by vm_compute | by vm_compute | left; split; by vm_compute | by vm_compute].
Defined.

(** C4, as the code has it.  The quotient [inter_area / union_area] is
    computed without a guard.  When the union area is zero and the
    intersection area is zero, as for two boxes of zero area, the quotient
    0/0 is NaN, [np.maximum] propagates it, and the result is NaN, not
    epsilon. *)
Theorem bboxes_iou_zero_division (b1 b2 : box) :
  is_zero (union_area b1 b2) = true ->
  is_zero (inter_area b1 b2) = true ->
  is_nan (1 * inter_area b1 b2 / union_area b1 b2)%float = true
  /\ is_nan (bboxes_iou b1 b2) = true
  /\ (bboxes_iou b1 b2 =? F64.eps32)%float = false.
Proof.
  intros Hu Hi. pose proof (bboxes_iou_zero_union b1 b2 Hu Hi) as Hn.
  split; [|split; [done|]].
  - apply is_zero_spec in Hu, Hi. rewrite is_nan_spec, div_spec, mul_1_l.
    by destruct (Prim2SF (inter_area b1 b2)), (Prim2SF (union_area b1 b2)).
  - rewrite is_nan_spec in Hn. rewrite FloatAxioms.eqb_spec. unfold SFeqb.
    by destruct (Prim2SF (bboxes_iou b1 b2)).
Qed.

(** C4 fails as stated: two zero-area boxes have a zero union area, and
    the result is NaN instead of epsilon. *)
Lemma bboxes_iou_zero_division_counterexample :
  is_zero (union_area (MkBox 0 0 0 0) (MkBox 0 0 0 0)) = true
  /\ is_nan (bboxes_iou (MkBox 0 0 0 0) (MkBox 0 0 0 0)) = true
  /\ PrimFloat.Leibniz.eqb (bboxes_iou (MkBox 0 0 0 0) (MkBox 0 0 0 0)) F64.eps32 = false.
Proof. by vm_compute. Qed.

Lemma bboxes_iou_zero_division_witness :
  is_nan (bboxes_iou (MkBox 5 5 5 9) (MkBox 5 5 5 9)) = true.
Proof.
  apply (bboxes_iou_zero_division (MkBox 5 5 5 9) (MkBox 5 5 5 9)); by vm_compute.
Defined.

(** C5, as the code has it.  A second pass over the output of a first
    pass keeps every row, class by class in the same order; the whole
    output is the same list up to the order in which
    [list(set(class_ids))] enumerates the classes, and the same list when
    both passes enumerate them alike. *)
Theorem suppress_idempotent `{SetOrder} (pool : list cand) :
  suppress (suppress pool) ≡ₚ suppress pool
  /\ (forall c, class_rows c (suppress (suppress pool)) = class_rows c (suppress pool))
  /\ (forall rows, nms_class (nms_class rows []) [] = nms_class rows [])
  /\ (set_to_list (c_class <$> suppress pool) = set_to_list (c_class <$> pool) ->
      suppress (suppress pool) = suppress pool).
Proof.
  repeat split.
  - apply suppress_idempotent_perm.
  - apply suppress_idempotent_classes.
  - apply emit_idempotent.
  - apply suppress_idempotent_eq.
Qed.

Lemma suppress_idempotent_witness :
  @suppress cpython_order demo_pool
  = [MkCand (MkBox 0 0 100 100) 0 0.75; MkCand (MkBox 0 0 100 100) 15 0.5]
  /\ @suppress cpython_order (@suppress cpython_order demo_pool)
     = @suppress cpython_order demo_pool.
Proof.
  split; [by vm_compute|].
  apply (@suppress_idempotent cpython_order demo_pool). by vm_compute.
Defined.

(** C5 fails as stated for the output as a list: the interpreter
    enumerates the set built from the class ids 3, 11 as 11, 3 and the set
    built from 11, 3 as 3, 11 (both ids fall into slot 3 of the table of 8
    slots, the second one inserted moves to slot 0), so the second pass
    returns the two rows of the first pass in the opposite order. *)
Lemma suppress_idempotent_counterexample :
  let r3 := MkCand (MkBox 0 0 100 100) 3 0.75 in
  let r11 := MkCand (MkBox 0 0 100 100) 11 0.5 in
  set_to_list (SetOrder := cpython_order) [3; 11] = [11; 3]
  /\ set_to_list (SetOrder := cpython_order) [11; 3] = [3; 11]
  /\ @suppress cpython_order [r3; r11] = [r11; r3]
  /\ @suppress cpython_order (@suppress cpython_order [r3; r11]) = [r3; r11].
Proof. by vm_compute. Qed.

(** C6, as the code has it.  Every frame returned by either path has its
    minima clamped below at 0 and its maxima clamped above at the camera
    size, and a box whose computed [xmax] reaches or passes the camera
    width is reported with [xmax] equal to the camera width.  The minima
    are not clamped above nor the maxima below, so the corners need not be
    in order.  On the anchor path they are, [xmin <= xmax] and
    [ymin <= ymax], for every frame of a detector whose scale factors are
    non-negative and take the sides of the model input inside the camera
    frame ([scales_into_frame]): the box was clipped to the model input
    before.  On the direct path they are for the entries whose normalised
    corners are in order inside the unit square; in general
    [xmin <= xmax] holds exactly when the unclamped pixels satisfy
    [xmin' <= xmax'], [xmin' <= width] and [0 <= xmax'] (and likewise for
    [y]), which fails for a box beyond the right or the lower edge. *)
Theorem frames_clamped `{SetOrder} `{MaxReduce} (d : Detector) :
  (forall out frames, get_frames_ssd d out = Ok frames -> Forall (clamped d) frames)
  /\ (forall outputs frames,
        get_frames_yolo d outputs = Ok frames -> Forall (clamped d) frames)
  /\ (scales_into_frame d = true ->
      forall outputs frames,
        get_frames_yolo d outputs = Ok frames -> Forall ordered frames)
  /\ (0 <= camera_width d < 2 ^ 53 -> 0 <= camera_height d < 2 ^ 53 ->
      forall out frames,
        get_frames_ssd d out = Ok frames ->
        Forall (fun e => unit_box e = true) (ssd_entries out) ->
        Forall ordered frames)
  /\ (forall e f u v,
        ssd_frame d e = Ok (Some f) ->
        ssd_pixel (e_xmin e) (camera_width d) = Ok u ->
        ssd_pixel (e_xmax e) (camera_width d) = Ok v ->
        (camera_width d <= v -> frame_xmax f = camera_width d)
        /\ (frame_xmin f <= frame_xmax f
            <-> u <= v /\ u <= camera_width d /\ 0 <= v /\ 0 <= camera_width d))
  /\ (forall e f u v,
        ssd_frame d e = Ok (Some f) ->
        ssd_pixel (e_ymin e) (camera_height d) = Ok u ->
        ssd_pixel (e_ymax e) (camera_height d) = Ok v ->
        (camera_height d <= v -> frame_ymax f = camera_height d)
        /\ (frame_ymin f <= frame_ymax f
            <-> u <= v /\ u <= camera_height d /\ 0 <= v /\ 0 <= camera_height d))
  /\ (forall c f v,
        yolo_frame d c = Ok (Some f) ->
        F64.to_int (bx2 (c_box c) * scale_width d)%float = Ok v ->
        camera_width d <= v -> frame_xmax f = camera_width d).
Proof.
  split; [|split; [|split; [|split; [|split; [|split]]]]].
  - intros out frames (count & rs & _ & _ & Hrs & ->)%get_frames_ssd_frames.
    eapply frames_of_results; [|done]. apply ssd_frame_clamped.
  - intros outputs frames (best & rs & Hrs & ->)%get_frames_yolo_frames.
    eapply frames_of_results; [|done]. apply yolo_frame_clamped.
  - intros Hd outputs frames
      (anchors & xyscales & rows & cands & _ & _ & _ & _ & Hcands & Hf)%get_frames_yolo_inv.
    apply yolo_frames_frames in Hf as (rs & Hrs & ->).
    eapply frames_of_results_elem; [|exact Hrs].
    intros c f Hc Hfr.
    assert (Hin : c ∈ cands).
    { eapply list_elem_of_filter, elem_of_submseteq; [exact Hc|].
      apply suppress_submseteq. }
    destruct (mapM_Ok_elem _ _ _ _ Hcands Hin) as (r & _ & Hr).
    by apply (yolo_frame_ordered d (corners r) c f Hd (row_cand_box d r c Hr)).
  - intros Hw Hh out frames (count & rs & _ & _ & Hrs & ->)%get_frames_ssd_frames Hall.
    eapply frames_of_results_elem; [|exact Hrs].
    intros e f He Hfr. apply (ssd_frame_ordered d e f Hw Hh); [|done].
    rewrite Forall_forall in Hall. apply Hall.
    by eapply subseteq_take.
  - intros e f u v (cid & _ & _ & _ & _ & _ & Hbb)%ssd_frame_Some Hu Hv.
    apply ssd_bbox_spec in Hbb as (ymin & xmin & ymax & xmax & _ & Hu' & _ & Hv' & Hbb).
    rewrite Hu in Hu'. rewrite Hv in Hv'. injection Hu' as <-. injection Hv' as <-.
    unfold frame_xmax, frame_xmin. rewrite Hbb. cbn beta iota.
    split; [lia | apply clamp_ordered].
  - intros e f u v (cid & _ & _ & _ & _ & _ & Hbb)%ssd_frame_Some Hu Hv.
    apply ssd_bbox_spec in Hbb as (ymin & xmin & ymax & xmax & Hu' & _ & Hv' & _ & Hbb).
    rewrite Hu in Hu'. rewrite Hv in Hv'. injection Hu' as <-. injection Hv' as <-.
    unfold frame_ymax, frame_ymin. rewrite Hbb. cbn beta iota.
    split; [lia | apply clamp_ordered].
  - intros c f v (_ & _ & _ & _ & Hbb)%yolo_frame_Some Hv Hle.
    apply yolo_bbox_spec in Hbb as (xmin & xmax & ymin & ymax & _ & Hx & _ & _ & Hbb).
    rewrite Hv in Hx. injection Hx as <-.
    unfold frame_xmax. rewrite Hbb. cbn beta iota. lia.
Qed.

(** C6 fails as stated on the direct path: a box lying to the right of the
    frame is reported with [xmin = 960] beyond the width 640 and beyond its
    own [xmax = 640], and a box lying below the frame with [ymin = 960]
    beyond the height 640 and beyond its own [ymax = 640]. *)
Lemma frames_clamped_counterexample :
  let below := MkSsdEntry (F32.of_f64 1.5) (F32.of_f64 0.1) (F32.of_f64 2) (F32.of_f64 0.5)
                 (F32.of_Z 17) (F32.of_f64 0.75) in
  exists f g,
    get_frames_ssd demo_ssd (MkSsdOutputs [outside_entry; below] (F32.of_Z 2))
    = Ok [f; g]
    /\ bbox f = (960, 64, 640, 320)
    /\ frame_xmax f < frame_xmin f
    /\ camera_width demo_ssd < frame_xmin f
    /\ bbox g = (64, 960, 320, 640)
    /\ frame_ymax g < frame_ymin g
    /\ camera_height demo_ssd < frame_ymin g.
Proof.
  do 2 eexists. split; [by vm_compute|]. by vm_compute.
Qed.

Lemma frames_clamped_witness :
  scales_into_frame demo_yolo = true
  /\ (exists f,
        @get_frames_yolo cpython_order sequential_max demo_yolo [demo_tensor 0.75] = Ok [f]
        /\ clamped demo_yolo f /\ ordered f)
  /\ unit_box (demo_entry 17 0.75) = true
  /\ (exists g,
        get_frames_ssd demo_ssd
          (MkSsdOutputs [demo_entry 17 0.75; demo_entry 17 0.75] (F32.of_Z 2)) = Ok [g; g]
        /\ clamped demo_ssd g /\ ordered g)
  /\ (exists f,
        ssd_frame demo_ssd outside_entry = Ok (Some f)
        /\ frame_xmax f = camera_width demo_ssd).
Proof.
  destruct (@frames_clamped cpython_order sequential_max demo_yolo)
    as (_ & Hyc & Hyo & _).
  destruct (@frames_clamped cpython_order sequential_max demo_ssd)
    as (Hsc & _ & _ & Hso & Hx & _).
  assert (Hsf : scales_into_frame demo_yolo = true) by (by vm_compute).
  assert (Hub : unit_box (demo_entry 17 0.75) = true) by (by vm_compute).
  split; [exact Hsf|]. split; [|split; [exact Hub|split]].
  - assert (Hf : exists f, @get_frames_yolo cpython_order sequential_max demo_yolo
                             [demo_tensor 0.75] = Ok [f]).
    { eexists. by vm_compute. }
    destruct Hf as [f Hf]. exists f. split; [exact Hf|]. split.
    + exact (Forall_inv (Hyc _ _ Hf)).
    + exact (Forall_inv (Hyo Hsf _ _ Hf)).
  - assert (Hg : exists g, get_frames_ssd demo_ssd
                             (MkSsdOutputs [demo_entry 17 0.75; demo_entry 17 0.75]
                                (F32.of_Z 2)) = Ok [g; g]).
    { eexists. by vm_compute. }
    destruct Hg as [g Hg]. exists g. split; [exact Hg|]. split.
    + exact (Forall_inv (Hsc _ _ Hg)).
    + refine (Forall_inv (Hso _ _ _ _ Hg _)); [simpl; lia | simpl; lia |].
      repeat constructor; exact Hub.
  - eexists. split; [by vm_compute|].
    eapply (Hx outside_entry _ 960 1280); [by vm_compute | by vm_compute | by vm_compute |].
    simpl. lia.
Defined.

(** C7, as the code has it.  A scale of the anchor path decodes only if
    its grid is square.  Its stride is then the floor quotient of the model
    input width by the grid width and of the model input height by the
    grid height (the exact quotient only when the grid size divides the
    input size), and the row decoded for grid cell [(gx, gy)] and anchor
    [a], which is row [3 * (grid_w * gy + gx) + a] after the rows of the
    scales before, has
    [cx = ((raw_x * xyscale) - 0.5 * (xyscale - 1) + gx) * stride_x],
    [cy = ((raw_y * xyscale) - 0.5 * (xyscale - 1) + gy) * stride_y],
    [w = raw_w * anchor_w] and [h = raw_h * anchor_h], where the raw values
    are the elements [[0, gy, gx, a, 0..3]] of the output tensor: [gx] runs
    along the second grid axis of the tensor (the horizontal one) and [gy]
    along the first (the vertical one).  The product and difference on the
    raw [float32] values are single-precision operations; the sum with the
    grid index and the products with the stride and the anchor are
    binary64. *)
Theorem decode_scale_formula (d : Detector) (anchors : list (list (Z * Z)))
    (xyscales : list float) (outputs : list tensor) (rows : list row)
    (s : nat) (t : tensor) :
  decode_outputs d anchors xyscales 0 outputs = Ok rows ->
  outputs !! s = Some t ->
  let grid_w := dim2 t in
  let grid_h := dim1 t in
  let stride_x := image_width d / Z.of_nat grid_w in
  let stride_y := image_height d / Z.of_nat grid_h in
  exists anchor xyscale,
    anchors !! s = Some anchor /\ xyscales !! s = Some xyscale
    /\ grid_w = grid_h
    /\ strides d t = (stride_x, stride_y)
    /\ ((0 < grid_w)%nat ->
        stride_x * Z.of_nat grid_w <= image_width d < (stride_x + 1) * Z.of_nat grid_w)
    /\ ((0 < grid_h)%nat ->
        stride_y * Z.of_nat grid_h <= image_height d < (stride_y + 1) * Z.of_nat grid_h)
    /\ ((Z.of_nat grid_w | image_width d) -> stride_x * Z.of_nat grid_w = image_width d)
    /\ ((Z.of_nat grid_h | image_height d) -> stride_y * Z.of_nat grid_h = image_height d)
    /\ forall (gx gy a : nat) (aw ah : Z),
         (gx < grid_w)%nat -> (gy < grid_h)%nat -> anchor !! a = Some (aw, ah) ->
         (a < 3)%nat ->
         let raw := chan t gy gx a in
         let shift := F32.of_f64 (0.5 * (xyscale - 1))%float in
         let x32 := F32.sub (F32.mul (raw 0%nat) (F32.of_f64 xyscale)) shift in
         let y32 := F32.sub (F32.mul (raw 1%nat) (F32.of_f64 xyscale)) shift in
         rows !! (rows_before outputs s + (3 * (grid_w * gy + gx) + a))%nat
         = Some (MkRow
                   ((F32.to_f64 x32 + F64.of_Z (Z.of_nat gx)) * F64.of_Z stride_x)%float
                   ((F32.to_f64 y32 + F64.of_Z (Z.of_nat gy)) * F64.of_Z stride_y)%float
                   (F32.to_f64 (raw 2%nat) * F64.of_Z aw)%float
                   (F32.to_f64 (raw 3%nat) * F64.of_Z ah)%float
                   (F32.to_f64 (raw 4%nat))
                   ((fun k => F32.to_f64 (raw (5 + k)%nat)) <$> seq 0 (nclass t))).
Proof.
  intros Hdec Hs grid_w grid_h stride_x stride_y.
  destruct (decode_outputs_scales _ _ _ _ _ _ _ _ Hdec Hs)
    as (anchor & xyscale & rows_s & Ha & Hx & Hscale & Hsub).
  exists anchor, xyscale.
  pose proof (decode_scale_Ok _ _ _ _ _ Hscale) as [Heq _].
  pose proof (decode_scale_length _ _ _ _ _ Hscale) as [Hlen _].
  subst grid_w grid_h stride_x stride_y.
  split; [done|]. split; [done|]. split; [done|].
  split. { unfold strides. by rewrite Heq. }
  split. { intros Hpos.
           pose proof (Z.mul_div_le (image_width d) (Z.of_nat (dim2 t)) ltac:(lia)).
           pose proof (Z.mul_succ_div_gt (image_width d) (Z.of_nat (dim2 t)) ltac:(lia)).
           lia. }
  split. { intros Hpos.
           pose proof (Z.mul_div_le (image_height d) (Z.of_nat (dim1 t)) ltac:(lia)).
           pose proof (Z.mul_succ_div_gt (image_height d) (Z.of_nat (dim1 t)) ltac:(lia)).
           lia. }
  split. { intros [q Hq]. rewrite Hq.
           destruct (decide (Z.of_nat (dim2 t) = 0)) as [E|E].
           - rewrite E. lia.
           - by rewrite Z.div_mul. }
  split. { intros [q Hq]. rewrite Hq.
           destruct (decide (Z.of_nat (dim1 t) = 0)) as [E|E].
           - rewrite E. lia.
           - by rewrite Z.div_mul. }
  intros gx gy a aw ah Hgx Hgy Han Ha3 raw shift x32 y32.
  subst raw shift x32 y32.
  rewrite (decode_outputs_lookup _ _ _ _ _ _ _ _ _ _ _ _ Hdec Hs Ha Hx Hscale)
    by (rewrite Hlen; nia).
  rewrite (decode_scale_lookup _ _ _ _ _ gy gx a Hscale) by done.
  unfold decode_cell, cell, strides, xy_offset, meshgrid. simpl.
  rewrite (nth_lookup_Some _ _ _ _ Han), <- list_fmap_compose. by rewrite Heq.
Qed.

(** C7 fails as stated when the grid does not divide the model input: for
    a 300 x 300 input and a 19 x 19 grid the stride is 15, not 300 / 19,
    and [15 * 19 = 285] falls short of the input size; the centre decoded
    for the last cell from a raw offset of 0.5 is [18.5 * 15 = 277.5],
    where the quotient 300 / 19 would give about 292.1. *)
Lemma decode_scale_formula_counterexample :
  exists rows r,
    decode_outputs demo_yolo300
      [ [(10, 13); (16, 30); (33, 23)]; [(30, 61); (62, 45); (59, 119)];
        [(116, 90); (156, 198); (373, 326)] ]
      [1%float; 1%float; 1%float] 0 [grid19_tensor] = Ok rows
    /\ strides demo_yolo300 grid19_tensor = (15, 15)
    /\ 15 * Z.of_nat (dim2 grid19_tensor) = 285
    /\ 285 < image_width demo_yolo300
    /\ rows !! (3 * (19 * 18 + 18))%nat = Some r
    /\ r_cx r = 277.5%float /\ r_cy r = 277.5%float
    /\ (277.5 <? (0.5 + 18) * (300 / 19))%float = true.
Proof.
  do 2 eexists. split; [by vm_compute|]. by vm_compute.
Qed.

Lemma decode_scale_formula_witness :
  let anchors := [ [(12, 16); (19, 36); (40, 28)]; [(36, 75); (76, 55); (72, 146)];
                   [(142, 110); (192, 243); (459, 401)] ] in
  exists rows,
    decode_outputs demo_yolo4 anchors [1.2%float; 1.1%float; 1.05%float] 0
      [demo_tensor 0.75; varied_tensor] = Ok rows
    /\ strides demo_yolo4 varied_tensor = (208, 208)
    /\ rows !! 11%nat
       = Some (MkRow 91.487498760223389 301.27500247955322 33.1875 68.4375 0.4765625
                 [0.484375%float; 0.4921875%float]).
Proof.
  intros anchors.
  destruct (decode_outputs demo_yolo4 anchors [1.2%float; 1.1%float; 1.05%float] 0
              [demo_tensor 0.75; varied_tensor]) as [rows|] eqn:Hdec;
    [|vm_compute in Hdec; discriminate].
  destruct (decode_scale_formula demo_yolo4 _ _ _ _ 1 varied_tensor Hdec eq_refl)
    as (anchor & xyscale & Ha & Hx & _ & Hstr & _ & _ & _ & _ & Hrow).
  injection Ha as <-. injection Hx as <-.
  specialize (Hrow 0%nat 1%nat 2%nat 72 146 ltac:(simpl; lia) ltac:(simpl; lia)
                eq_refl ltac:(lia)).
  exists rows. split; [reflexivity|]. split; [exact Hstr|].
  etrans; [exact Hrow|]. by vm_compute.
Defined.

(** ** Strings of the label file *)

Lemma rstrip_cons (c : ascii) (r : string) :
  PyStr.rstrip (String c r)
  = match PyStr.rstrip r with
    | EmptyString => if PyStr.is_space c then EmptyString else String c EmptyString
    | r' => String c r'
    end.
Proof. done. Qed.

Lemma lstrip_cons (c : ascii) (r : string) :
  PyStr.lstrip (String c r) = if PyStr.is_space c then PyStr.lstrip r else String c r.
Proof. done. Qed.

Lemma rstrip_app (a b : string) :
  PyStr.rstrip b <> EmptyString -> PyStr.rstrip (a +:+ b) = a +:+ PyStr.rstrip b.
Proof.
  intros Hb. induction a as [|c a IH]; [done|].
  change (String c a +:+ ?x) with (String c (a +:+ x)). rewrite rstrip_cons, IH.
  destruct (a +:+ PyStr.rstrip b) eqn:E; [|done].
  destruct a; [|done]. simpl in E. done.
Qed.

Lemma rstrip_idem (s : string) : PyStr.rstrip (PyStr.rstrip s) = PyStr.rstrip s.
Proof.
  induction s as [|c r IH]; [done|]. rewrite rstrip_cons.
  destruct (PyStr.rstrip r) as [|c' r'] eqn:E.
  - destruct (PyStr.is_space c) eqn:Hc; [done|]. rewrite rstrip_cons. simpl. by rewrite Hc.
  - rewrite rstrip_cons, IH. done.
Qed.

Lemma lstrip_rstrip (s : string) :
  PyStr.lstrip (PyStr.rstrip s) = PyStr.rstrip (PyStr.lstrip s).
Proof.
  induction s as [|c r IH]; [done|]. rewrite rstrip_cons, lstrip_cons.
  destruct (PyStr.is_space c) eqn:Hc.
  - rewrite <- IH. destruct (PyStr.rstrip r) as [|c' r'] eqn:E; [done|].
    by rewrite lstrip_cons, Hc.
  - rewrite rstrip_cons. destruct (PyStr.rstrip r) as [|c' r'] eqn:E.
    + by rewrite lstrip_cons, Hc.
    + by rewrite lstrip_cons, Hc.
Qed.

Lemma strip_rstrip (s : string) : PyStr.strip (PyStr.rstrip s) = PyStr.strip s.
Proof. unfold PyStr.strip. by rewrite lstrip_rstrip, rstrip_idem. Qed.

Lemma strip_nonempty (s : string) :
  PyStr.strip s <> EmptyString -> PyStr.rstrip s <> EmptyString.
Proof.
  intros Hs Hr. apply Hs. unfold PyStr.strip. by rewrite <- lstrip_rstrip, Hr.
Qed.

Lemma no_white_space_cons c s :
  no_white_space (String c s) = negb (PyStr.is_space c) && no_white_space s.
Proof. done. Qed.

Lemma strip_no_white_space (s : string) : no_white_space s = true -> PyStr.strip s = s.
Proof.
  intros Hs. unfold PyStr.strip.
  assert (PyStr.lstrip s = s) as ->.
  { destruct s as [|c s]; [done|]. rewrite no_white_space_cons in Hs.
    apply andb_true_iff in Hs as [Hc _]. rewrite lstrip_cons.
    by destruct (PyStr.is_space c). }
  induction s as [|c s IH]; [done|]. rewrite no_white_space_cons in Hs.
  apply andb_true_iff in Hs as [Hc Hs]. rewrite rstrip_cons, (IH Hs).
  destruct s; [|done]. by destruct (PyStr.is_space c).
Qed.

Lemma split_once_app (a r : string) :
  no_white_space a = true ->
  PyStr.split_once (a +:+ String " " r) = (a, Some r).
Proof.
  induction a as [|c a IH]; intros Ha; [done|].
  rewrite no_white_space_cons in Ha. apply andb_true_iff in Ha as [Hc Ha].
  change (String c a +:+ ?b) with (String c (a +:+ b)).
  cbn [PyStr.split_once]. rewrite (IH Ha).
  destruct (Ascii.eqb_spec c " ") as [->|]; [done|done].
Qed.

(** A line written as a first column without white space, a space, and
    a rest that is not blank. *)
Lemma parse_label_line_text (first rest : string) (idx : Z) :
  no_white_space first = true ->
  PyStr.to_int first = Ok idx ->
  PyStr.strip rest <> EmptyString ->
  parse_label_line (first +:+ String " " rest)
  = Ok (idx, PyStr.replace_spaces (PyStr.strip rest)).
Proof.
  intros Hws Hidx Hrest. unfold parse_label_line.
  assert (Hne : first <> EmptyString).
  { intros ->. vm_compute in Hidx. discriminate. }
  assert (PyStr.strip (first +:+ String " " rest)
          = first +:+ String " " (PyStr.rstrip rest)) as ->.
  { unfold PyStr.strip.
    assert (PyStr.lstrip (first +:+ String " " rest) = first +:+ String " " rest) as ->.
    { destruct first as [|c f]; [done|]. rewrite no_white_space_cons in Hws.
      apply andb_true_iff in Hws as [Hc _].
      change (String c f +:+ ?b) with (String c (f +:+ b)).
      rewrite lstrip_cons. by destruct (PyStr.is_space c). }
    rewrite rstrip_app.
    - f_equal. rewrite rstrip_cons.
      destruct (PyStr.rstrip rest) eqn:E; [|done].
      by apply strip_nonempty in Hrest.
    - rewrite rstrip_cons. apply strip_nonempty in Hrest.
      by destruct (PyStr.rstrip rest). }
  rewrite (split_once_app _ _ Hws), (strip_no_white_space _ Hws), Hidx. simpl.
  by rewrite strip_rstrip.
Qed.

(** C8. Both label mappings are built by [__init__] from the same lines of
    the label file, keyed by model family.  Take line number [k] (counted
    from 0) to read: a first column [first] without white space, a space,
    and a rest that is not blank; its label is the rest, stripped, with
    [_] for each space.  For a model whose path contains ["yolo"], the line
    number [k] is the class index: [id2label] maps [k] to the label, and
    [label2id] maps the label back to [k].  For any other model the class
    index is the integer [int(first)] read from the first column:
    [id2label] maps it to the label and [label2id] maps the label back to
    it.  (A later line that repeats the same index or the same label
    overwrites the binding, as dictionary assignment does.) *)
Theorem label_table_dual (path version target : string) (lines : list string)
    (h w cw ch : Z) (thr : float) (d : Detector)
    (k : nat) (first rest : string) (idx : Z) :
  Forall (fun l => l <> EmptyString) lines ->
  Detector_init path version lines target h w cw ch thr = Ok d ->
  lines !! k = Some (first +:+ String " " rest) ->
  no_white_space first = true ->
  PyStr.to_int first = Ok idx ->
  PyStr.strip rest <> EmptyString ->
  let label := PyStr.replace_spaces (PyStr.strip rest) in
  let later_index_differs :=
    forall k' line' idx' label',
      (k < k')%nat -> lines !! k' = Some line' ->
      parse_label_line line' = Ok (idx', label') -> idx' <> idx in
  let later_label_differs :=
    forall k' line' idx' label',
      (k < k')%nat -> lines !! k' = Some line' ->
      parse_label_line line' = Ok (idx', label') -> label' <> label in
  (PyStr.contains "yolo" path = true ->
     id2label d !! Z.of_nat k = Some label
     /\ (later_label_differs -> label2id d !! label = Some (Z.of_nat k)))
  /\ (PyStr.contains "yolo" path = false ->
        (later_index_differs -> id2label d !! idx = Some label)
        /\ (later_label_differs -> label2id d !! label = Some idx)).
Proof.
  intros Hne [Hy Hload]%Detector_init_table Hk Hws Hint Hrest label Hidx Hlab.
  pose proof (parse_label_line_text first rest idx Hws Hint Hrest) as Hp.
  destruct (load_labels_lookup _ _ _ _ _ _ _ _ _ Hne Hload Hk Hp) as [L1 L2].
  rewrite Hy in L1, L2. simpl in L1, L2. split; intros Hc; rewrite Hc in L1, L2; simpl in *.
  - split; [|done]. apply L1. intros k' ? ? ? Hlt _ _. lia.
  - done.
Qed.

Lemma label_table_dual_witness :
  demo_lines !! 2%nat = Some ("12" +:+ String " " " stop sign
")
  /\ (exists d,
        Detector_init "models/yolov3-tiny.tflite" "yolov3-tiny" demo_lines "all"
          416 416 640 480 0.5 = Ok d
        /\ id2label d !! 2 = Some "stop_sign"%string
        /\ label2id d !! "stop_sign"%string = Some 2)
  /\ (exists d,
        Detector_init "models/mobilenet_ssd_v2_coco_quant_postprocess.tflite"
          "mobilenet_ssd_v2_coco_quant_postprocess" demo_lines "all"
          300 300 640 480 0.5 = Ok d
        /\ id2label d !! 12 = Some "stop_sign"%string
        /\ label2id d !! "stop_sign"%string = Some 12).
Proof.
  assert (Forall (fun l => l <> EmptyString) demo_lines) as Hne.
  { repeat constructor; done. }
  assert (forall (P : nat -> string -> Z -> string -> Prop),
            forall k' line' idx' label',
              (2 < k')%nat -> demo_lines !! k' = Some line' ->
              parse_label_line line' = Ok (idx', label') -> P k' line' idx' label')
    as Hlast.
  { intros P k' line' idx' label' Hlt Hk'.
    do 3 (destruct k' as [|k']; [lia|]). done. }
  split; [reflexivity|]. split.
  - destruct (Detector_init "models/yolov3-tiny.tflite" "yolov3-tiny" demo_lines "all"
                416 416 640 480 0.5) as [d|] eqn:Hinit;
      [|vm_compute in Hinit; discriminate].
    exists d. split; [done|].
    destruct (label_table_dual _ _ _ _ _ _ _ _ _ d 2 "12" " stop sign
" 12 Hne Hinit eq_refl eq_refl eq_refl ltac:(by vm_compute)) as [Hy _].
    destruct (Hy eq_refl) as [H1 H2]. split; [exact H1|].
    apply H2. apply (Hlast (fun _ _ _ label' => label' <> "stop_sign"%string)).
  - destruct (Detector_init "models/mobilenet_ssd_v2_coco_quant_postprocess.tflite"
                "mobilenet_ssd_v2_coco_quant_postprocess" demo_lines "all"
                300 300 640 480 0.5) as [d|] eqn:Hinit;
      [|vm_compute in Hinit; discriminate].
    exists d. split; [done|].
    destruct (label_table_dual _ _ _ _ _ _ _ _ _ d 2 "12" " stop sign
" 12 Hne Hinit eq_refl eq_refl eq_refl ltac:(by vm_compute)) as [_ Hs].
    destruct (Hs eq_refl) as [H1 H2]. split.
    + apply H1. apply (Hlast (fun _ _ idx' _ => idx' <> 12)).
    + apply H2. apply (Hlast (fun _ _ _ label' => label' <> "stop_sign"%string)).
Defined.




(** C10. The inner [while len(cls_bboxes) > 0] loop terminates: an
    iteration entered with a non-empty partition appends the row selected
    by [np.argmax] to [best_bboxes] and leaves a strictly shorter partition
    made of rows of the old one, so that after at most [len(cls_bboxes)]
    iterations the loop condition is false. *)
Theorem nms_while_exits (st : nms_state) :
  (cls_bboxes st <> [] ->
     (length (cls_bboxes (nms_body st)) < length (cls_bboxes st))%nat
     /\ exists best,
          cls_bboxes st !! np_argmax (c_score <$> cls_bboxes st) = Some best
          /\ best_bboxes (nms_body st) = best_bboxes st ++ [best]
          /\ cls_bboxes (nms_body st)
             ⊆ delete (np_argmax (c_score <$> cls_bboxes st)) (cls_bboxes st))
  /\ cls_bboxes (nms_while (length (cls_bboxes st)) st) = [].
Proof.
  split; [|by apply nms_while_exits_gen].
  intros Hne. split; [by apply nms_body_length|].
  destruct st as [l acc]. simpl in *.
  destruct (argmax_lookup l Hne) as [best Hb]. exists best.
  rewrite (nms_body_eq _ _ _ Hb). simpl. repeat split; [done|].
  apply list_subseteq_filter.
Qed.

Lemma nms_while_exits_witness :
  cls_bboxes (nms_while 2 (MkNms (class_rows 0 demo_pool) [])) = []
  /\ best_bboxes (nms_while 2 (MkNms (class_rows 0 demo_pool) []))
     = [MkCand (MkBox 0 0 100 100) 0 0.75].
Proof.
  split.
  - apply (nms_while_exits (MkNms (class_rows 0 demo_pool) [])).
  - by vm_compute.
Defined.

(** * Further properties *)

(** ** Buffer dimensions *)

Lemma round_up_bounds (value n : Z) :
  0 < n ->
  value <= n * ((value + (n - 1)) / n) < value + n.
Proof.
  intros Hn.
  pose proof (Z.div_mod (value + (n - 1)) n ltac:(lia)) as Hdm.
  pose proof (Z.mod_pos_bound (value + (n - 1)) n Hn) as Hb.
  lia.
Qed.

Lemma round_up_eq (value n : Z) :
  0 < n -> _round_up value n = Some (n * ((value + (n - 1)) / n)).
Proof.
  intros Hn. unfold _round_up. destruct (Z.eqb_spec n 0); [lia | reflexivity].
Qed.

Lemma round_up_multiple (value n : Z) :
  0 < n -> (n | value) -> _round_up value n = Some value.
Proof.
  intros Hn [k ->]. rewrite round_up_eq by assumption. f_equal.
  replace (k * n + (n - 1)) with ((n - 1) + k * n) by lia.
  rewrite Z.div_add by lia. rewrite Z.div_small by lia. lia.
Qed.

(** X1. For a positive [n], [_round_up value n] is the least multiple of
    [n] that is not below [value]; in particular it exceeds [value] by less
    than [n]. *)
Theorem round_up_least_multiple (value n : Z) :
  0 < n ->
  exists r,
    _round_up value n = Some r
    /\ (n | r)
    /\ value <= r < value + n
    /\ forall m, (n | m) -> value <= m -> r <= m.
Proof.
  intros Hn. exists (n * ((value + (n - 1)) / n)).
  pose proof (round_up_bounds value n Hn) as Hb.
  split; [|split; [|split]].
  - apply round_up_eq, Hn.
  - exists ((value + (n - 1)) / n). lia.
  - exact Hb.
  - intros m [k ->] Hm.
    set (q := (value + (n - 1)) / n) in *.
    assert (q <= k); [|nia].
    destruct (Z_lt_le_dec k q) as [Hlt|]; [|assumption].
    exfalso. assert (k + 1 <= q) by lia. nia.
Qed.

Lemma round_up_least_multiple_witness :
  exists r,
    _round_up 641 32 = Some r
    /\ (32 | r)
    /\ 641 <= r < 641 + 32
    /\ forall m, (32 | m) -> 641 <= m -> r <= m.
Proof. apply (round_up_least_multiple 641 32). lia. Defined.

(** X2. For a positive [n], the values [_round_up] leaves unchanged are
    exactly the multiples of [n]; rounding is monotone, and rounding twice
    is rounding once. *)
Theorem round_up_fixed_point (value n : Z) :
  0 < n ->
  (_round_up value n = Some value <-> (n | value))
  /\ (forall r, _round_up value n = Some r -> _round_up r n = Some r)
  /\ (forall value' r r',
        value <= value' -> _round_up value n = Some r ->
        _round_up value' n = Some r' -> r <= r').
Proof.
  intros Hn.
  assert (Hdef : forall v, _round_up v n = Some (n * ((v + (n - 1)) / n))).
  { intros v. apply round_up_eq, Hn. }
  split; [|split].
  - rewrite Hdef. split.
    + intros [= Heq]. exists ((value + (n - 1)) / n). lia.
    + intros Hdiv. rewrite <- Hdef. apply round_up_multiple; assumption.
  - intros r. rewrite Hdef. intros [= <-]. apply round_up_multiple; [assumption|].
    exists ((value + (n - 1)) / n). lia.
  - intros value' r r' Hle. rewrite !Hdef. intros [= <-] [= <-].
    apply Z.mul_le_mono_nonneg_l; [lia|].
    apply Z.div_le_mono; lia.
Qed.

Lemma round_up_fixed_point_witness :
  (_round_up 640 32 = Some 640 <-> (32 | 640))
  /\ (forall r, _round_up 640 32 = Some r -> _round_up r 32 = Some r)
  /\ (forall value' r r',
        640 <= value' -> _round_up 640 32 = Some r ->
        _round_up value' 32 = Some r' -> r <= r').
Proof. apply (round_up_fixed_point 640 32). lia. Defined.

(** X3. [_round_buffer_dims] never fails: it returns a width that is a
    multiple of 32 and a height that is a multiple of 16, each the input
    rounded up by less than one step, and it leaves such a pair
    unchanged. *)
Theorem round_buffer_dims_spec (width height : Z) :
  exists w h,
    _round_buffer_dims (width, height) = Some (w, h)
    /\ (32 | w) /\ (16 | h)
    /\ width <= w < width + 32
    /\ height <= h < height + 16
    /\ _round_buffer_dims (w, h) = Some (w, h).
Proof.
  destruct (round_up_least_multiple width 32 ltac:(lia)) as (w & Hw & Hdw & Hbw & _).
  destruct (round_up_least_multiple height 16 ltac:(lia)) as (h & Hh & Hdh & Hbh & _).
  exists w, h.
  assert (Hid : _round_buffer_dims (w, h) = Some (w, h)).
  { unfold _round_buffer_dims.
    rewrite (round_up_multiple w 32), (round_up_multiple h 16) by (assumption || lia).
    reflexivity. }
  split; [unfold _round_buffer_dims; rewrite Hw, Hh; reflexivity|].
  repeat split; try assumption; lia.
Qed.

(** ** The model file and the version read off it *)

Lemma Detector_init_fields path version lines target h w cw ch thr d :
  Detector_init path version lines target h w cw ch thr = Ok d ->
  is_yolo d = PyStr.contains "yolo" path
  /\ yolo_version d = version
  /\ image_width d = w /\ image_height d = h
  /\ camera_width d = cw /\ camera_height d = ch
  /\ threshold d = thr.
Proof.
  unfold Detector_init. intros Hd.
  apply bind_Ok in Hd as (tbl & _ & Hd).
  apply bind_Ok in Hd as (tid & _ & Hd).
  injection Hd as <-. simpl. repeat split; reflexivity.
Qed.

(** X4. The path [main] builds selects the decode path and the accelerator
    as the options say: it contains [yolo] exactly for the three anchor
    model names, and [edgetpu] exactly when [--tpu] is given. *)
Theorem main_model_path_family (model : string) (tpu : bool) :
  PyStr.contains "yolo" (main_model_path model tpu) = is_yolo_model model
  /\ path_is_tpu (main_model_path model tpu) = tpu.
Proof.
  unfold main_model_path, is_yolo_model, path_is_tpu.
  destruct (String.eqb model "yolov3"), (String.eqb model "yolov3-tiny"),
    (String.eqb model "yolov4"), (String.eqb model "face"), tpu;
    vm_compute; split; reflexivity.
Qed.

(** X5. The version [__init__] reads off the path is the file stem.  Without
    [--tpu] it is the model name, which [get_frames_yolo] knows; with
    [--tpu] the stem ends in [_edgetpu], no branch of [get_frames_yolo]
    matches it, and every call raises [NotImplementedError] whatever the
    outputs are. *)
Theorem edgetpu_yolo_not_implemented `{SetOrder} `{MaxReduce} (model target : string)
    (lines : list string) (h w cw ch : Z) (thr : float) (tpu : bool)
    (d : Detector) :
  is_yolo_model model = true ->
  Detector_init (main_model_path model tpu)
    (path_yolo_version (main_model_path model tpu))
    lines target h w cw ch thr = Ok d ->
  is_yolo d = true
  /\ (tpu = false ->
      yolo_version d = model
      /\ exists params, yolo_params (yolo_version d) = Ok params)
  /\ (tpu = true ->
      yolo_version d = (model ++ "_edgetpu")%string
      /\ forall outputs, get_frames_yolo d outputs = Raise NotImplementedError).
Proof.
  intros Hm Hd.
  apply Detector_init_fields in Hd as (Hy & Hv & _).
  rewrite (proj1 (main_model_path_family model tpu)) in Hy.
  split; [congruence|].
  unfold is_yolo_model in Hm. unfold get_frames_yolo. rewrite Hv. clear Hv Hy.
  unfold main_model_path.
  destruct (String.eqb_spec model "yolov3") as [->|_];
    [|destruct (String.eqb_spec model "yolov3-tiny") as [->|_];
      [|destruct (String.eqb_spec model "yolov4") as [->|_]; [|discriminate]]];
    (split; intros ->; (split; [vm_compute; reflexivity|]);
     [eexists; vm_compute; reflexivity | intros outputs; reflexivity]).
Qed.

Lemma edgetpu_yolo_not_implemented_witness :
  exists d,
    Detector_init (main_model_path "yolov3" true)
      (path_yolo_version (main_model_path "yolov3" true))
      demo_lines "all" 416 416 640 480 0.5 = Ok d
    /\ yolo_version d = "yolov3_edgetpu"%string
    /\ @get_frames_yolo cpython_order sequential_max d [demo_tensor 0.75]
       = Raise NotImplementedError.
Proof.
  eexists. split; [vm_compute; reflexivity|].
  split;
    apply (@edgetpu_yolo_not_implemented cpython_order sequential_max "yolov3" "all"
             demo_lines 416 416 640 480 0.5 true);
    reflexivity.
Defined.

(** X6. Whatever version [get_frames_yolo] accepts comes with as many
    xy-scales as anchor lists, two or three of them, and three anchors per
    list: the scale index of an output is in range for the one exactly when
    it is for the other, and each of the three anchor slots of a cell has
    its anchor. *)
Theorem yolo_params_shape (version : string) (anchors : list (list (Z * Z)))
    (xyscales : list float) :
  yolo_params version = Ok (anchors, xyscales) ->
  length anchors = length xyscales
  /\ (2 <= length anchors <= 3)%nat
  /\ Forall (fun anchor => length anchor = 3%nat) anchors
  /\ Forall (fun s => (1 <=? s)%float = true /\ (s <=? 1.2)%float = true) xyscales.
Proof.
  unfold yolo_params.
  destruct (String.eqb version "yolov3-tiny");
    [|destruct (String.eqb version "yolov3");
      [|destruct (String.eqb version "yolov4"); [|discriminate]]];
    intros [= <- <-]; simpl; (split; [reflexivity|]); (split; [lia|]);
    split; repeat constructor.
Qed.

Lemma yolo_params_shape_witness :
  exists anchors xyscales,
    yolo_params "yolov4" = Ok (anchors, xyscales)
    /\ length anchors = length xyscales
    /\ (2 <= length anchors <= 3)%nat
    /\ Forall (fun anchor => length anchor = 3%nat) anchors
    /\ Forall (fun s => (1 <=? s)%float = true /\ (s <=? 1.2)%float = true) xyscales.
Proof.
  eexists _, _. split; [reflexivity|].
  apply (yolo_params_shape "yolov4"). reflexivity.
Defined.

(** ** Flipping *)

Lemma fmap_reverse_involutive {A} (image : list (list A)) :
  reverse <$> (reverse <$> image) = image.
Proof.
  rewrite <- list_fmap_compose. rewrite <- (list_fmap_id image) at 2.
  apply list_fmap_ext. intros _ row _. simpl. apply reverse_involutive.
Qed.

(** X7. The flip code [CvCamera] stores makes [yield_image] apply exactly
    the flips asked for: each row is reversed when [hflip] is set and the
    order of the rows is reversed when [vflip] is set.  No flip is applied
    only when neither is set, and flipping twice gives the image back. *)
Theorem flip_image_spec {A} (hflip vflip : bool) (image : list (list A)) :
  flip_image hflip vflip image
  = (if vflip then reverse else id) ((if hflip then fmap reverse else id) image)
  /\ flip_image hflip vflip (flip_image hflip vflip image) = image
  /\ (flipcode hflip vflip = None <-> hflip = false /\ vflip = false).
Proof.
  destruct hflip, vflip; unfold flip_image, cv2_flip; simpl.
  - split; [reflexivity|]. split; [|split; [discriminate | intros [? ?]; discriminate]].
    rewrite fmap_reverse, reverse_involutive. apply fmap_reverse_involutive.
  - split; [reflexivity|]. split; [|split; [discriminate | intros [? ?]; discriminate]].
    apply fmap_reverse_involutive.
  - split; [reflexivity|]. split; [|split; [discriminate | intros [? ?]; discriminate]].
    apply reverse_involutive.
  - split; [reflexivity|]. split; [reflexivity|]. split; [intros _; split; reflexivity | reflexivity].
Qed.

(** ** Input scaling *)

Lemma pixel_in_unit_all : forallb pixel_in_unit (seqZ 0 256) = true.
Proof. vm_compute. reflexivity. Qed.

Lemma pixel_table_increasing : increasing_table pixel_table = true.
Proof. vm_compute. reflexivity. Qed.

Lemma pixel_table_elem (v : Z) :
  0 <= v < 256 -> In (v, normalize_pixel v) pixel_table.
Proof.
  intros Hv. apply list_elem_of_In. unfold pixel_table.
  apply list_elem_of_fmap. exists v. split; [reflexivity|].
  apply elem_of_seqZ. lia.
Qed.

Lemma forallb_seqZ (P : Z -> bool) (n v : Z) :
  forallb P (seqZ 0 n) = true -> 0 <= v < n -> P v = true.
Proof.
  intros Hall Hv.
  rewrite forallb_forall in Hall. apply Hall.
  apply list_elem_of_In, elem_of_seqZ. lia.
Qed.

(** X8. The scaling of the anchor family's input maps the 256 channel
    values into the unit interval of single precision: 0 goes to 0, 255 and
    only 255 goes to 1, and the map is strictly increasing, so distinct
    channel values stay distinct. *)
Theorem normalize_pixel_range (v : Z) :
  0 <= v <= 255 ->
  SpecFloat.valid_binary F32.prec32 F32.emax32 (normalize_pixel v) = true
  /\ SFleb (S754_zero false) (normalize_pixel v) = true
  /\ SFleb (normalize_pixel v) (F32.of_Z 1) = true
  /\ (SFeqb (normalize_pixel v) (F32.of_Z 1) = true <-> v = 255)
  /\ forall v', v < v' <= 255 ->
       SFltb (normalize_pixel v) (normalize_pixel v') = true.
Proof.
  intros Hv.
  pose proof (forallb_seqZ _ 256 v pixel_in_unit_all ltac:(lia)) as Hu.
  unfold pixel_in_unit in Hu.
  apply andb_true_iff in Hu as [Hu H4].
  apply andb_true_iff in Hu as [Hu H3].
  apply andb_true_iff in Hu as [H1 H2].
  apply Bool.eqb_prop in H4.
  repeat split; try assumption.
  - rewrite H4. intros ?%Z.eqb_eq. assumption.
  - rewrite H4. intros ->. reflexivity.
  - intros v' Hv'.
    pose proof pixel_table_increasing as Hb. unfold increasing_table in Hb.
    rewrite forallb_forall in Hb.
    specialize (Hb _ (pixel_table_elem v ltac:(lia))).
    rewrite forallb_forall in Hb.
    specialize (Hb _ (pixel_table_elem v' ltac:(lia))) as Hp. simpl in Hp.
    destruct (Z.ltb_spec v v'); [exact Hp | lia].
Qed.

Lemma normalize_pixel_range_witness :
  SpecFloat.valid_binary F32.prec32 F32.emax32 (normalize_pixel 128) = true
  /\ SFleb (S754_zero false) (normalize_pixel 128) = true
  /\ SFleb (normalize_pixel 128) (F32.of_Z 1) = true
  /\ (SFeqb (normalize_pixel 128) (F32.of_Z 1) = true <-> 128 = 255)
  /\ forall v', 128 < v' <= 255 ->
       SFltb (normalize_pixel 128) (normalize_pixel v') = true.
Proof. apply (normalize_pixel_range 128). lia. Defined.

(** ** Suppression: what is emitted *)

(** X9. Suppression invents nothing and repeats nothing: the rows it
    emits form a sub-multiset of the pool, so each is a row of the pool with
    its box, class and score unchanged, and there are no more of them than
    the pool has. *)
Theorem suppress_sub_pool `{SetOrder} (pool : list cand) :
  suppress pool ⊆+ pool
  /\ suppress pool ⊆ pool
  /\ (length (suppress pool) <= length pool)%nat
  /\ (NoDup pool -> NoDup (suppress pool)).
Proof.
  pose proof (suppress_submseteq pool) as Hs.
  split; [exact Hs|]. split; [|split].
  - intros x Hx. by eapply elem_of_submseteq.
  - by apply submseteq_length.
  - intros Hnd. apply submseteq_Permutation in Hs as [k Hk].
    rewrite Hk in Hnd. by apply NoDup_app in Hnd as [Hnd _].
Qed.

Lemma emit_sorted (l : list cand) :
  Forall (fun c => is_nan (c_score c) = false) l ->
  StronglySorted (fun a b => (c_score b <=? c_score a)%float = true) (emit l).
Proof.
  induction l as [|l best Hb IH] using emit_ind; intros Hnan.
  { rewrite emit_nil. constructor. }
  rewrite (emit_cons _ _ Hb).
  set (S := filter (fun c => keep best c = true) (delete (np_argmax (c_score <$> l)) l)) in *.
  assert (S ⊆ l) as HS.
  { intros x Hx. apply list_elem_of_filter in Hx as [_ Hx].
    by eapply list_subseteq_delete. }
  constructor.
  - apply IH. rewrite Forall_forall in Hnan. apply Forall_forall.
    intros x Hx. apply Hnan, HS, Hx.
  - apply Forall_forall. intros x Hx%emit_subseteq%HS.
    assert ((c_score <$> l) !! np_argmax (c_score <$> l) = Some (c_score best)) as Hs.
    { by rewrite list_lookup_fmap, Hb. }
    assert (is_nan (c_score best) = false) as Hbn.
    { rewrite Forall_forall in Hnan. apply Hnan. by eapply list_elem_of_lookup_2. }
    pose proof (np_argmax_max _ _ Hs Hbn) as Hall.
    rewrite Forall_fmap, Forall_forall in Hall. by apply Hall.
Qed.

(** X10. When no score of the pool is NaN, the rows emitted for one class
    come in the order of their scores, highest first: the loop picks the
    maximum of what remains and never raises a remaining score. *)
Theorem emitted_scores_sorted `{SetOrder} (pool : list cand) (cls : Z) :
  Forall (fun c => is_nan (c_score c) = false) pool ->
  StronglySorted (fun a b => (c_score b <=? c_score a)%float = true)
    (class_rows cls (suppress pool)).
Proof.
  intros Hnan. rewrite class_rows_suppress. apply emit_sorted.
  rewrite Forall_forall in Hnan. apply Forall_forall.
  intros x [_ Hx]%list_elem_of_filter. by apply Hnan.
Qed.

Lemma emitted_scores_sorted_witness :
  StronglySorted (fun a b => (c_score b <=? c_score a)%float = true)
    (class_rows 0 (@suppress cpython_order demo_pool)).
Proof.
  apply (@emitted_scores_sorted cpython_order demo_pool 0).
  repeat constructor.
Defined.

Lemma emit_pairwise (l : list cand) :
  StronglySorted
    (fun a b => (iou_threshold <? bboxes_iou (c_box a) (c_box b))%float = false
                /\ positive_score b = true)
    (emit l).
Proof.
  induction l as [|l best Hb IH] using emit_ind.
  { rewrite emit_nil. constructor. }
  rewrite (emit_cons _ _ Hb). constructor; [exact IH|].
  apply Forall_forall. intros x Hx%emit_subseteq.
  apply list_elem_of_filter in Hx as [Hk _]. unfold keep in Hk.
  apply andb_true_iff in Hk as [Hk Hp]. split; [|exact Hp].
  by apply negb_true_iff in Hk.
Qed.

(** X11. Of two rows emitted for the same class, the later one overlaps
    the earlier one by an IoU that does not exceed the threshold 0.213, and
    it has a positive score: whatever overlapped an emitted row more was
    dropped before it could be picked. *)
Theorem emitted_pairwise_iou `{SetOrder} (pool : list cand) (cls : Z) :
  StronglySorted
    (fun a b => (iou_threshold <? bboxes_iou (c_box a) (c_box b))%float = false
                /\ positive_score b = true)
    (class_rows cls (suppress pool)).
Proof. rewrite class_rows_suppress. apply emit_pairwise. Qed.

(** ** What the frames of a call have in common *)

Lemma ltb_nan_l (x y : float) : is_nan x = true -> (x <? y)%float = false.
Proof.
  rewrite is_nan_spec, ltb_spec. by destruct (Prim2SF x).
Qed.

Lemma ltb_nan_r (x y : float) : is_nan y = true -> (x <? y)%float = false.
Proof.
  rewrite is_nan_spec, ltb_spec.
  destruct (Prim2SF y); try done. by destruct (Prim2SF x).
Qed.

Lemma ltb_asym (x y : float) : (x <? y)%float = true -> (y <? x)%float = false.
Proof.
  rewrite !ltb_spec. unfold SFltb.
  sf_cases (Prim2SF x); sf_cases (Prim2SF y); simpl; try done;
    change (Pos.compare_cont Eq ?a ?b) with (Pos.compare a b);
    cmp_cases; simpl; try done; lia.
Qed.

(** A row that passes the mask is not below the threshold. *)
Lemma mask_not_below d c : mask d c = true -> below_threshold d (c_score c) = false.
Proof.
  unfold mask, score_mask, below_threshold.
  intros [_ Hs]%andb_true_iff. by apply ltb_asym.
Qed.

(** X12. No frame is reported with a probability below the threshold.  On
    the anchor path the probability is strictly above it, since a row
    reaches suppression only with a score above the threshold and leaves it
    unchanged; the test [prob < self.threshold] of the frame loop (line
    560) therefore never holds there. *)
Theorem frames_reach_threshold `{SetOrder} `{MaxReduce} (d : Detector) :
  (forall out frames,
     get_frames_ssd d out = Ok frames ->
     Forall (fun f => (prob f <? threshold d)%float = false) frames)
  /\ (forall outputs frames,
        get_frames_yolo d outputs = Ok frames ->
        Forall (fun f => (threshold d <? prob f)%float = true) frames)
  /\ (forall cands,
        Forall (fun c => below_threshold d (c_score c) = false
                         /\ (threshold d <? c_score c)%float = true)
          (suppress (filter (fun c => mask d c = true) cands))).
Proof.
  assert (Hpool : forall cands,
            Forall (fun c => mask d c = true)
              (suppress (filter (fun c => mask d c = true) cands))).
  { intros cands. apply Forall_forall. intros c Hc.
    pose proof (elem_of_submseteq _ _ _ Hc (suppress_submseteq _)) as Hc'.
    by apply list_elem_of_filter in Hc' as [Hm _]. }
  split; [|split].
  - intros out frames (count & rs & _ & _ & Hrs & ->)%get_frames_ssd_frames.
    eapply frames_of_results; [|done].
    intros e f (cid & _ & _ & _ & Hb & -> & _)%ssd_frame_Some. exact Hb.
  - intros outputs frames (anchors & xyscales & rows & cands & _ & _ & _ & _ & _ & Hf)%get_frames_yolo_inv.
    apply yolo_frames_frames in Hf as (rs & Hrs & ->).
    apply Forall_forall. intros f Hf.
    apply list_elem_of_bind in Hf as (r & Hf & Hr).
    destruct r as [f'|]; [|by apply elem_of_nil in Hf].
    apply list_elem_of_singleton in Hf as ->.
    destruct (mapM_Ok_elem _ _ _ _ Hrs Hr) as (c & Hc & Hfc).
    apply yolo_frame_Some in Hfc as (_ & _ & _ & -> & _).
    specialize (Hpool cands). rewrite Forall_forall in Hpool.
    specialize (Hpool c Hc). unfold mask in Hpool.
    by apply andb_true_iff in Hpool as [_ Hs].
  - intros cands. eapply Forall_impl; [apply Hpool|].
    intros c Hm. split; [by apply mask_not_below|].
    unfold mask in Hm. by apply andb_true_iff in Hm as [_ Hs].
Qed.

Lemma target_accepts d cid :
  target_rejects d cid = false -> target_id d = -1 \/ target_id d = cid.
Proof.
  unfold target_rejects. intros Ht.
  destruct (Z.eqb_spec (target_id d) (-1)); [by left|].
  destruct (Z.eqb_spec (target_id d) cid); [by right|done].
Qed.

(** X13. Every frame carries the label the table gives for a class id the
    target lets through.  When a target class is set, all frames of a call
    carry the one label of that class. *)
Theorem frames_named_by_table `{SetOrder} `{MaxReduce} (d : Detector) :
  let named (f : frame) :=
    exists cid, id2label d !! cid = Some (name f)
                /\ (target_id d = -1 \/ target_id d = cid) in
  (forall out frames, get_frames_ssd d out = Ok frames -> Forall named frames)
  /\ (forall outputs frames, get_frames_yolo d outputs = Ok frames -> Forall named frames)
  /\ (forall f, named f -> target_id d <> -1 ->
        id2label d !! target_id d = Some (name f)).
Proof.
  intros named. split; [|split].
  - intros out frames (count & rs & _ & _ & Hrs & ->)%get_frames_ssd_frames.
    eapply frames_of_results; [|done].
    intros e f (cid & _ & Hn & Ht & _)%ssd_frame_Some.
    exists cid. split; [done|]. by apply target_accepts.
  - intros outputs frames (best & rs & Hrs & ->)%get_frames_yolo_frames.
    eapply frames_of_results; [|done].
    intros c f (Hn & Ht & _)%yolo_frame_Some.
    exists (c_class c). split; [done|]. by apply target_accepts.
  - intros f (cid & Hn & [Ht| ->]) Hne; done.
Qed.

(** ** The count of the direct path *)

Lemma mapM_Ok_length {A B} (f : A -> result B) (l : list A) (rs : list B) :
  mapM f l = Ok rs -> length rs = length l.
Proof.
  revert rs. induction l as [|x l IH]; intros rs; simpl.
  - by intros [= <-].
  - intros (b & _ & (bs & Hbs & [= <-])%bind_Ok)%bind_Ok. simpl. f_equal. by apply IH.
Qed.

Lemma length_option_frames (rs : list (option frame)) :
  (length (rs ≫= option_list) <= length rs)%nat.
Proof.
  induction rs as [|r rs IH]; [done|].
  rewrite bind_cons, length_app. destruct r; simpl; lia.
Qed.

Lemma ssd_loop_take d n entries i acc :
  (i + n <= length entries)%nat ->
  ssd_loop d (take (i + n) entries) i n acc = ssd_loop d entries i n acc.
Proof.
  revert entries i acc. induction n as [|n IH]; intros entries i acc Hle; [done|].
  simpl. rewrite lookup_take_lt by lia.
  destruct (entries !! i) as [e|]; [|done].
  destruct (ssd_frame d e) as [r|]; simpl; [|done].
  replace (i + S n)%nat with (S i + n)%nat by lia. apply IH. lia.
Qed.

(** X14. The direct path reads the first [count] entries and no others: it
    reports at most [count] frames, [count] does not exceed the number of
    entries, and a count of zero or below gives no frame.  With a single
    detection slot it returns only for such a count.  Removing the slots
    beyond [count] changes nothing, unless exactly one slot is left, whose
    tensors [squeeze()] would reshape. *)
Theorem ssd_frame_count (d : Detector) (out : ssd_outputs) (frames : list frame) :
  get_frames_ssd d out = Ok frames ->
  exists count,
    F32.to_int (ssd_count out) = Ok count
    /\ (length frames <= Z.to_nat count <= length (ssd_entries out))%nat
    /\ (count <= 0 -> frames = [])
    /\ (length (ssd_entries out) = 1%nat -> count <= 0)
    /\ (Z.to_nat count <> 1%nat ->
        get_frames_ssd d (MkSsdOutputs (take (Z.to_nat count) (ssd_entries out))
                            (ssd_count out))
        = Ok frames).
Proof.
  intros Hf. pose proof Hf as (count & rs & Hc & Hn & Hrs & ->)%get_frames_ssd_frames.
  exists count. split; [done|].
  assert (Hlen : length rs = Z.to_nat count).
  { apply mapM_Ok_length in Hrs. rewrite length_take in Hrs. lia. }
  assert (Hone : length (ssd_entries out) = 1%nat -> count <= 0).
  { intros H1. revert Hf. unfold get_frames_ssd. rewrite Hc. simpl.
    destruct (ssd_entries out) as [|e0 [|e1 rest]]; [done| |done].
    destruct (Z.ltb_spec 0 count); [done | lia]. }
  split; [|split; [|split; [done|]]].
  - split; [|done]. rewrite <- Hlen. apply length_option_frames.
  - intros Hle. destruct rs; [done|]. simpl in Hlen. lia.
  - intros Hcnt.
    rewrite (get_frames_ssd_loop d _ count); cbn [ssd_count ssd_entries]; [|done|].
    + pose proof (ssd_loop_take d (Z.to_nat count) (ssd_entries out) 0 [] ltac:(simpl; lia))
        as Hg.
      simpl in Hg. rewrite Hg.
      destruct (decide (length (ssd_entries out) = 1%nat)) as [H1|H1].
      * specialize (Hone H1). replace (Z.to_nat count) with 0%nat in * by lia.
        destruct rs; [done | simpl in Hlen; lia].
      * by rewrite <- (get_frames_ssd_loop d out count).
    + rewrite length_take. lia.
Qed.

Lemma ssd_frame_count_witness :
  let entries := [demo_entry 17 0.75; demo_entry 99 0.75; demo_entry 0 0.75] in
  let frames := [MkFrame "cat" 0.75 (64, 64, 320, 320)] in
  get_frames_ssd demo_ssd (MkSsdOutputs entries (F32.of_Z 2)) = Ok frames
  /\ exists count,
       F32.to_int (F32.of_Z 2) = Ok count
       /\ (length frames <= Z.to_nat count <= length entries)%nat
       /\ (count <= 0 -> frames = [])
       /\ (length entries = 1%nat -> count <= 0)
       /\ (Z.to_nat count <> 1%nat ->
           get_frames_ssd demo_ssd
             (MkSsdOutputs (take (Z.to_nat count) entries) (F32.of_Z 2))
           = Ok frames).
Proof.
  assert (Hf : get_frames_ssd demo_ssd
                 (MkSsdOutputs [demo_entry 17 0.75; demo_entry 99 0.75; demo_entry 0 0.75]
                    (F32.of_Z 2))
               = Ok [MkFrame "cat" 0.75 (64, 64, 320, 320)]) by (by vm_compute).
  split; [exact Hf|].
  exact (ssd_frame_count demo_ssd _ _ Hf).
Defined.

Lemma ssd_loop_overrun d entries n acc rs :
  mapM (ssd_frame d) entries = Ok rs -> (length entries < n)%nat ->
  ssd_loop d entries 0 n acc = Raise IndexError.
Proof.
  revert n acc rs. induction entries as [|x entries IH]; intros n acc rs Hrs Hn.
  - destruct n; [simpl in Hn; lia | done].
  - destruct n as [|n]; [simpl in Hn; lia|].
    simpl in Hrs. apply bind_Ok in Hrs as (r & Hr & (rs' & Hrs' & _)%bind_Ok).
    rewrite ssd_loop_cons, Hr. simpl. eapply IH; [done | simpl in Hn; lia].
Qed.

(** X15. A count beyond the number of entries never yields frames: the
    call raises, and it is the [IndexError] of the first missing entry when
    every entry present decodes. *)
Theorem ssd_count_overrun (d : Detector) (out : ssd_outputs) (count : Z) :
  F32.to_int (ssd_count out) = Ok count ->
  Z.of_nat (length (ssd_entries out)) < count ->
  (exists e, get_frames_ssd d out = Raise e)
  /\ (forall rs, mapM (ssd_frame d) (ssd_entries out) = Ok rs ->
        get_frames_ssd d out = Raise IndexError).
Proof.
  intros Hc Hlt. split.
  - destruct (get_frames_ssd d out) as [frames|e] eqn:Hf; [|by exists e].
    apply get_frames_ssd_frames in Hf as (count' & rs & Hc' & Hn & _).
    rewrite Hc in Hc'. injection Hc' as <-. lia.
  - intros rs Hrs. unfold get_frames_ssd. rewrite Hc. simpl.
    destruct (ssd_entries out) as [|e0 [|e1 rest]] eqn:He.
    + eapply ssd_loop_overrun; [done | simpl in *; lia].
    + simpl in Hlt. destruct (Z.ltb_spec 0 count); [done | lia].
    + eapply ssd_loop_overrun; [done | lia].
Qed.

Lemma ssd_count_overrun_witness :
  (exists e, get_frames_ssd demo_ssd (MkSsdOutputs [demo_entry 17 0.75] (F32.of_Z 2))
             = Raise e)
  /\ (forall rs, mapM (ssd_frame demo_ssd) [demo_entry 17 0.75] = Ok rs ->
        get_frames_ssd demo_ssd (MkSsdOutputs [demo_entry 17 0.75] (F32.of_Z 2))
        = Raise IndexError).
Proof.
  apply (ssd_count_overrun demo_ssd (MkSsdOutputs [demo_entry 17 0.75] (F32.of_Z 2)) 2).
  - by vm_compute.
  - simpl. lia.
Defined.

(** ** NaN scores and a NaN threshold *)

(** X16. The two paths treat a NaN differently.  The direct path tests
    [prob < threshold], which is false for a NaN on either side: an entry
    with a NaN score is reported, and with a NaN threshold no entry is
    dropped for its score.  The anchor path tests [scores > threshold]
    first, which is false as well: a row with a NaN score never reaches
    suppression, and with a NaN threshold no row does. *)
Theorem nan_score_paths (d : Detector) :
  (forall (e : ssd_entry) (cid : Z) (nm : string) (bb : Z * Z * Z * Z),
     F32.to_int (e_class e) = Ok cid -> id2label d !! cid = Some nm ->
     target_rejects d cid = false ->
     is_nan (F32.to_f64 (e_score e)) = true \/ is_nan (threshold d) = true ->
     ssd_bbox d e = Ok bb ->
     ssd_frame d e = Ok (Some (MkFrame nm (F32.to_f64 (e_score e)) bb)))
  /\ (forall c : cand,
        is_nan (c_score c) = true \/ is_nan (threshold d) = true ->
        mask d c = false)
  /\ (forall cands : list cand,
        is_nan (threshold d) = true ->
        filter (fun c => mask d c = true) cands = []).
Proof.
  assert (Hmask : forall c : cand,
            is_nan (c_score c) = true \/ is_nan (threshold d) = true ->
            mask d c = false).
  { intros c Hn. unfold mask, score_mask.
    assert ((threshold d <? c_score c)%float = false) as ->;
      [|by rewrite andb_false_r].
    destruct Hn; [by apply ltb_nan_r | by apply ltb_nan_l]. }
  split; [|split].
  - intros e cid nm bb Hc Hn Ht Hnan Hbb. unfold ssd_frame.
    rewrite Hc. simpl. rewrite Hn, Ht.
    assert (below_threshold d (F32.to_f64 (e_score e)) = false) as ->.
    { unfold below_threshold. destruct Hnan; [by apply ltb_nan_l | by apply ltb_nan_r]. }
    by rewrite Hbb.
  - exact Hmask.
  - intros cands Hn. induction cands as [|c cands IH]; [done|].
    rewrite filter_cons_False; [done|]. rewrite Hmask; [done | by right].
Qed.

(** ** The label file and the target *)

Lemma replace_spaces_no_space (s : string) :
  PyStr.contains " " (PyStr.replace_spaces s) = false.
Proof.
  induction s as [|c r IH]; [done|].
  cbn [PyStr.replace_spaces PyStr.contains String.prefix].
  rewrite IH, orb_false_r.
  destruct (Ascii.eqb_spec c " ") as [->|Hc].
  - by destruct (ascii_dec " " "_").
  - by destruct (ascii_dec " " c) as [<-|_].
Qed.

Lemma split_once_space (s a r : string) :
  PyStr.split_once s = (a, Some r) -> PyStr.contains " " s = true.
Proof.
  revert a. induction s as [|c s IH]; intros a; [done|].
  cbn [PyStr.split_once].
  destruct (Ascii.eqb_spec c " ") as [->|Hc].
  - intros _. cbn [PyStr.contains String.prefix].
    destruct (ascii_dec " " " ") as [_|Hn]; [by destruct s | done].
  - destruct (PyStr.split_once s) as [a' [r'|]] eqn:Hs; intros [= <- <-].
    cbn [PyStr.contains]. rewrite (IH a' eq_refl). apply orb_true_r.
Qed.

Lemma parse_label_line_Ok (line : string) (idx : Z) (label : string) :
  parse_label_line line = Ok (idx, label) ->
  exists a rest,
    PyStr.split_once (PyStr.strip line) = (a, Some rest)
    /\ PyStr.to_int (PyStr.strip a) = Ok idx
    /\ label = PyStr.replace_spaces (PyStr.strip rest).
Proof.
  unfold parse_label_line.
  destruct (PyStr.split_once (PyStr.strip line)) as [a [rest|]] eqn:Hs.
  - intros (i & Hi & [= <- <-])%bind_Ok. eauto.
  - intros (i & Hi & [=])%bind_Ok.
Qed.

Lemma parse_label_line_no_space (line : string) (idx : Z) (label : string) :
  parse_label_line line = Ok (idx, label) -> PyStr.contains " " label = false.
Proof.
  intros (a & rest & _ & _ & ->)%parse_label_line_Ok. apply replace_spaces_no_space.
Qed.

(** X17. A line of the label file is accepted only when, stripped, it has
    a space: the text before the first space must read as an integer and the
    rest becomes the label, in which no space is left.  A line without a
    space raises, and a line of white space only raises [ValueError]. *)
Theorem parse_label_line_cases (line : string) :
  (forall idx label,
     parse_label_line line = Ok (idx, label) ->
     PyStr.contains " " (PyStr.strip line) = true
     /\ PyStr.contains " " label = false)
  /\ (PyStr.contains " " (PyStr.strip line) = false ->
      parse_label_line line = Raise ValueError
      \/ parse_label_line line = Raise IndexError)
  /\ (PyStr.strip line = EmptyString -> parse_label_line line = Raise ValueError).
Proof.
  split; [|split].
  - intros idx label (a & rest & Hs & _ & ->)%parse_label_line_Ok. split.
    + by eapply split_once_space.
    + apply replace_spaces_no_space.
  - intros Hns. unfold parse_label_line.
    destruct (PyStr.split_once (PyStr.strip line)) as [a [rest|]] eqn:Hs.
    + apply split_once_space in Hs. congruence.
    + destruct (PyStr.to_int (PyStr.strip a)) as [i|[]] eqn:Hi; simpl; auto.
      all: exfalso; revert Hi; unfold PyStr.to_int;
        repeat (match goal with |- context [match ?x with _ => _ end] => destruct x end);
        done.
  - intros Hs. unfold parse_label_line. rewrite Hs. done.
Qed.

Lemma load_labels_labels (P : string -> Prop) yolo lines off tbl tbl' :
  (forall line idx label, parse_label_line line = Ok (idx, label) -> P label) ->
  load_labels yolo lines off tbl = Ok tbl' ->
  (forall z s, tbl_id2label tbl !! z = Some s -> P s) ->
  (forall s z, tbl_label2id tbl !! s = Some z -> P s) ->
  (forall z s, tbl_id2label tbl' !! z = Some s -> P s)
  /\ (forall s z, tbl_label2id tbl' !! s = Some z -> P s).
Proof.
  intros HP. revert off tbl. induction lines as [|line rest IH]; intros off tbl.
  - simpl. intros [= <-]. done.
  - destruct (decide (line = EmptyString)) as [->|Hne].
    { simpl. intros [= <-]. done. }
    intros (idx & label & Hp & Hload)%load_labels_cons H1 H2; [|done].
    apply (IH _ _ Hload); simpl.
    + intros z s. destruct (decide (line_key yolo off idx = z)) as [->|Hz].
      * rewrite lookup_insert_eq. intros [= <-]. by eapply HP.
      * rewrite lookup_insert_ne by done. apply H1.
    + intros s z. destruct (decide (label = s)) as [->|Hs].
      * intros _. by eapply HP.
      * rewrite lookup_insert_ne by done. apply H2.
Qed.

Lemma Detector_init_target path version lines target h w cw ch thr d :
  Detector_init path version lines target h w cw ch thr = Ok d ->
  (target = "all"%string /\ target_id d = -1)
  \/ (target <> "all"%string /\ label2id d !! target = Some (target_id d)).
Proof.
  unfold Detector_init.
  intros ([i2l l2i] & Hload & (tid & Ht & [= <-])%bind_Ok)%bind_Ok. simpl in *.
  destruct (String.eqb_spec target "all") as [->|Hne].
  - left. injection Ht as <-. done.
  - right. split; [done|]. destruct (l2i !! target); [|done]. by injection Ht as ->.
Qed.

(** X18. No label of the table contains a space, in either direction of
    the table, since spaces are replaced when a line is read.  A target
    given with a space therefore never names a class: the constructor
    succeeds only for a target without one. *)
Theorem labels_have_no_space (path version target : string) (lines : list string)
    (h w cw ch : Z) (thr : float) (d : Detector) :
  Detector_init path version lines target h w cw ch thr = Ok d ->
  (forall z s, id2label d !! z = Some s -> PyStr.contains " " s = false)
  /\ (forall s z, label2id d !! s = Some z -> PyStr.contains " " s = false)
  /\ PyStr.contains " " target = false.
Proof.
  intros Hd.
  pose proof (Detector_init_table _ _ _ _ _ _ _ _ _ _ Hd) as [_ Hload].
  destruct (load_labels_labels (fun s => PyStr.contains " " s = false)
              _ _ _ _ _ parse_label_line_no_space Hload) as [H1 H2]; [done..|].
  simpl in H1, H2. split; [exact H1|]. split; [exact H2|].
  destruct (Detector_init_target _ _ _ _ _ _ _ _ _ _ Hd) as [[-> _]|[_ Ht]]; [done|].
  by eapply H2.
Qed.

Lemma labels_have_no_space_witness :
  exists d,
    Detector_init "models/mobilenet_ssd_v2_coco_quant_postprocess.tflite"
      "mobilenet_ssd_v2_coco_quant_postprocess" demo_lines "stop_sign"
      300 300 640 480 0.5 = Ok d
    /\ id2label d !! 12 = Some "stop_sign"%string
    /\ (forall z s, id2label d !! z = Some s -> PyStr.contains " " s = false)
    /\ (forall s z, label2id d !! s = Some z -> PyStr.contains " " s = false)
    /\ PyStr.contains " " "stop_sign" = false.
Proof.
  eexists. split; [by vm_compute|]. split; [by vm_compute|].
  eapply (labels_have_no_space
            "models/mobilenet_ssd_v2_coco_quant_postprocess.tflite"
            "mobilenet_ssd_v2_coco_quant_postprocess" "stop_sign" demo_lines
            300 300 640 480 0.5).
  by vm_compute.
Defined.

Lemma load_labels_offsets lines off tbl tbl' :
  Forall (fun l => l <> EmptyString) lines ->
  load_labels true lines off tbl = Ok tbl' ->
  0 <= off ->
  (forall z, is_Some (tbl_id2label tbl !! z) <-> 0 <= z < off) ->
  (forall s z, tbl_label2id tbl !! s = Some z -> tbl_id2label tbl !! z = Some s) ->
  (forall z, is_Some (tbl_id2label tbl' !! z) <-> 0 <= z < off + Z.of_nat (length lines))
  /\ (forall s z, tbl_label2id tbl' !! s = Some z -> tbl_id2label tbl' !! z = Some s).
Proof.
  intros Hne. revert off tbl. induction Hne as [|line rest Hl Hrest IH]; intros off tbl.
  - simpl. intros [= <-] Hoff Hdom Hrt. split; [|done].
    intros z. rewrite Hdom. lia.
  - intros (idx & label & Hp & Hload)%load_labels_cons Hoff Hdom Hrt; [|done].
    simpl line_key in Hload.
    destruct (IH _ _ Hload) as [I1 I2]; [lia| | |].
    + intros z. simpl. destruct (decide (off = z)) as [->|Hz].
      * rewrite lookup_insert_eq. split; [lia | by eexists].
      * rewrite lookup_insert_ne by done. rewrite Hdom. lia.
    + intros s z. simpl. destruct (decide (label = s)) as [->|Hs].
      * rewrite lookup_insert_eq. intros [= <-]. by rewrite lookup_insert_eq.
      * rewrite lookup_insert_ne by done. intros Hsz.
        pose proof (Hrt _ _ Hsz) as Hzs.
        assert (off <> z) as Hz.
        { intros <-. assert (is_Some (tbl_id2label tbl !! off)) as Hi by (by eexists).
          apply Hdom in Hi. lia. }
        by rewrite lookup_insert_ne.
    + split; [|exact I2]. intros z. rewrite I1. simpl length. lia.
Qed.

(** X19. In the anchor family the table is keyed by line offsets: the
    class ids it knows are exactly 0 to [n - 1] for a file of [n] lines,
    whatever the first columns say.  The id recorded for a label always
    leads back to that label, so a named target selects a class id in range
    whose label is the target. *)
Theorem yolo_table_offsets (path version target : string) (lines : list string)
    (h w cw ch : Z) (thr : float) (d : Detector) :
  Forall (fun l => l <> EmptyString) lines ->
  PyStr.contains "yolo" path = true ->
  Detector_init path version lines target h w cw ch thr = Ok d ->
  (forall z, is_Some (id2label d !! z) <-> 0 <= z < Z.of_nat (length lines))
  /\ (forall s z, label2id d !! s = Some z -> id2label d !! z = Some s)
  /\ (target <> "all"%string ->
      0 <= target_id d < Z.of_nat (length lines)
      /\ id2label d !! target_id d = Some target).
Proof.
  intros Hne Hy Hd.
  pose proof (Detector_init_table _ _ _ _ _ _ _ _ _ _ Hd) as [Hyd Hload].
  rewrite Hyd, Hy in Hload.
  destruct (load_labels_offsets _ _ _ _ Hne Hload) as [H1 H2]; [lia| | |].
  - intros z. simpl. rewrite lookup_empty. split; [by intros [? ?] | lia].
  - intros s z. simpl. by rewrite lookup_empty.
  - simpl in H1, H2. split; [|split]; [intros z; rewrite H1; lia | exact H2 |].
    intros Hna.
    destruct (Detector_init_target _ _ _ _ _ _ _ _ _ _ Hd) as [[-> _]|[_ Ht]]; [done|].
    apply H2 in Ht. split; [|done].
    assert (is_Some (id2label d !! target_id d)) as Hi by (by eexists).
    apply H1 in Hi. lia.
Qed.

Lemma yolo_table_offsets_witness :
  exists d,
    Detector_init "yolo/yolov3-tiny.tflite" "yolov3-tiny" demo_lines "stop_sign"
      416 416 640 480 0.5 = Ok d
    /\ (forall z, is_Some (id2label d !! z) <-> 0 <= z < Z.of_nat (length demo_lines))
    /\ (forall s z, label2id d !! s = Some z -> id2label d !! z = Some s)
    /\ ("stop_sign"%string <> "all"%string ->
        0 <= target_id d < Z.of_nat (length demo_lines)
        /\ id2label d !! target_id d = Some "stop_sign"%string).
Proof.
  eexists. split; [by vm_compute|].
  eapply (yolo_table_offsets "yolo/yolov3-tiny.tflite" "yolov3-tiny" "stop_sign"
            demo_lines 416 416 640 480 0.5).
  - repeat constructor; discriminate.
  - by vm_compute.
  - by vm_compute.
Defined.

(** X20. How the target is resolved once the label file has been read:
    [all] gives the id -1, under which no class is rejected; a label of the
    table gives its id; any other target raises [ValueError]. *)
Theorem target_resolution (path version target : string) (lines : list string)
    (h w cw ch : Z) (thr : float) (tbl : label_table) :
  load_labels (PyStr.contains "yolo" path) lines 0 empty_table = Ok tbl ->
  match Detector_init path version lines target h w cw ch thr with
  | Ok d =>
      id2label d = tbl_id2label tbl /\ label2id d = tbl_label2id tbl
      /\ ((target = "all"%string /\ target_id d = -1
           /\ forall cid, target_rejects d cid = false)
          \/ (target <> "all"%string
              /\ tbl_label2id tbl !! target = Some (target_id d)))
  | Raise e =>
      e = ValueError /\ target <> "all"%string /\ tbl_label2id tbl !! target = None
  end.
Proof.
  intros Hload. unfold Detector_init. rewrite Hload. simpl.
  destruct (String.eqb_spec target "all") as [->|Hne]; simpl.
  - split; [done|]. split; [done|]. left. done.
  - destruct (tbl_label2id tbl !! target) as [i|] eqn:Hi; simpl.
    + split; [done|]. split; [done|]. right. done.
    + done.
Qed.

Lemma target_resolution_witness :
  load_labels (PyStr.contains "yolo" "models/ssd.tflite") demo_lines 0 empty_table
  = Ok (LabelTable
          {[ 0 := "person"%string; 1 := "bicycle"%string; 12 := "stop_sign"%string ]}
          {[ "person"%string := 0; "bicycle"%string := 1; "stop_sign"%string := 12 ]})
  /\ Detector_init "models/ssd.tflite" "ssd" demo_lines "stop sign" 300 300 640 480 0.5
     = Raise ValueError.
Proof.
  assert (Hl : load_labels (PyStr.contains "yolo" "models/ssd.tflite") demo_lines 0
                 empty_table
               = Ok (LabelTable
                       {[ 0 := "person"%string; 1 := "bicycle"%string;
                          12 := "stop_sign"%string ]}
                       {[ "person"%string := 0; "bicycle"%string := 1;
                          "stop_sign"%string := 12 ]})).
  { by vm_compute. }
  split; [exact Hl|].
  pose proof (target_resolution "models/ssd.tflite" "ssd" "stop sign" demo_lines
                300 300 640 480 0.5 _ Hl) as Ht.
  destruct (Detector_init "models/ssd.tflite" "ssd" demo_lines "stop sign"
              300 300 640 480 0.5) as [d|e].
  - destruct Ht as (_ & _ & [(Heq & _)|(_ & Hs)]); [discriminate Heq|].
    exfalso. revert Hs. by vm_compute.
  - destruct Ht as (-> & _). reflexivity.
Defined.

(** ** Integers as floats *)

(** X21. Integers survive the conversions the code applies to them: an
    integer below 2^53 in magnitude converted with [float()] and read back
    with [int()] is unchanged, and so is an integer below 2^24 in magnitude
    held in a [float32] tensor, such as a class id or the detection
    count. *)
Theorem int_float_round_trip (z : Z) :
  (- 2 ^ 53 < z < 2 ^ 53 -> F64.to_int (F64.of_Z z) = Ok z)
  /\ (- 2 ^ 24 < z < 2 ^ 24 -> F32.to_int (F32.of_Z z) = Ok z).
Proof.
  split; intros Hz.
  - unfold F64.to_int. rewrite of_Z_SF by done.
    by apply (sf_to_int_normalize prec emax).
  - unfold F32.to_int, F32.of_Z.
    by apply (sf_to_int_normalize F32.prec32 F32.emax32).
Qed.

(** ** Pixel coordinates when the camera frame has the model's size *)

(** X22. When the camera frame has the size of the model input, both
    scale factors are exactly 1 and the pixel box of the anchor path is the
    box itself, truncated toward zero and clamped. *)
Theorem yolo_bbox_same_size (d : Detector) (b : box) :
  camera_width d = image_width d -> camera_height d = image_height d ->
  0 < image_width d < 2 ^ 53 -> 0 < image_height d < 2 ^ 53 ->
  scale_width d = 1%float /\ scale_height d = 1%float
  /\ yolo_bbox d b
     = (xmin ← F64.to_int (bx1 b);
        xmax ← F64.to_int (bx2 b);
        ymin ← F64.to_int (by1 b);
        ymax ← F64.to_int (by2 b);
        Ok (Z.max 0 xmin, Z.max 0 ymin,
            Z.min (camera_width d) xmax, Z.min (camera_height d) ymax)).
Proof.
  intros Hw Hh Hiw Hih.
  assert (Hsw : scale_width d = 1%float).
  { unfold scale_width. rewrite Hw. destruct (of_Z_pos _ Hiw). by apply div_self. }
  assert (Hsh : scale_height d = 1%float).
  { unfold scale_height. rewrite Hh. destruct (of_Z_pos _ Hih). by apply div_self. }
  split; [done|]. split; [done|].
  unfold yolo_bbox. by rewrite Hsw, Hsh, !mul_1_r.
Qed.

Lemma yolo_bbox_same_size_witness :
  let d := MkDetector true "yolov3" demo_labels ∅ (-1) 416 416 416 416 0.5 in
  scale_width d = 1%float /\ scale_height d = 1%float
  /\ yolo_bbox d (MkBox 10.5 20.25 500 300.75) = Ok (10, 20, 416, 300).
Proof.
  pose proof (yolo_bbox_same_size
                (MkDetector true "yolov3" demo_labels ∅ (-1) 416 416 416 416 0.5)
                (MkBox 10.5 20.25 500 300.75)
                eq_refl eq_refl ltac:(simpl; lia) ltac:(simpl; lia)) as (H1 & H2 & H3).
  split; [exact H1|]. split; [exact H2|].
  rewrite H3. by vm_compute.
Defined.

(** ** Class and score of a row *)

Lemma is_nan_eq (x : float) : is_nan x = true -> x = nan.
Proof.
  rewrite is_nan_spec. intros Hx. apply Prim2SF_inj.
  by destruct (Prim2SF x).
Qed.

Lemma fold_maximum_nan (l : list float) (a : float) :
  is_nan a = true -> fold_left F64.maximum l a = a.
Proof.
  intros Ha. induction l as [|x l IH]; [done|].
  simpl. by rewrite (maximum_nan a x Ha).
Qed.

(** [np.max] returns the value the scan of [np.argmax] stops at. *)
Lemma fold_maximum_maxval (l : list float) (mp : float) :
  is_nan mp = false -> fold_left F64.maximum l mp = maxval_from l mp.
Proof.
  revert mp. induction l as [|x l IH]; intros mp Hmp; [done|].
  simpl. unfold F64.maximum at 2. rewrite Hmp, orb_false_r.
  destruct (x <=? mp)%float; simpl; [by apply IH|].
  destruct (is_nan x) eqn:Hx; [by apply fold_maximum_nan | by apply IH].
Qed.

Lemma np_argmax_seq_max (l : list float) :
  l <> [] -> l !! np_argmax l = Some (seq_max l).
Proof.
  destruct l as [|x r]; [done|]. intros _. unfold np_argmax, seq_max.
  destruct (is_nan x) eqn:Hx.
  - simpl. f_equal. symmetry. by apply fold_maximum_nan.
  - rewrite (fold_maximum_maxval r x Hx).
    by apply (argmax_from_lookup [x] r x 0%nat).
Qed.

Lemma same_value_nan (x y : float) :
  same_value x y = true -> is_nan x = is_nan y.
Proof.
  unfold same_value. rewrite !is_nan_spec, FloatAxioms.eqb_spec. unfold SFeqb.
  by sf_cases (Prim2SF x); sf_cases (Prim2SF y).
Qed.

Lemma same_value_leb (x y z : float) :
  same_value y z = true -> (x <=? y)%float = (x <=? z)%float.
Proof.
  unfold same_value. rewrite !is_nan_spec, FloatAxioms.eqb_spec, !leb_spec.
  unfold SFeqb, SFleb.
  sf_cases (Prim2SF x); sf_cases (Prim2SF y); sf_cases (Prim2SF z); simpl; try done;
    change (Pos.compare_cont Eq ?a ?b) with (Pos.compare a b);
    cmp_cases; simpl; try done; try lia.
Qed.

(** X23. The class of a candidate is an index into the row's class
    probabilities, and its score is, as a number, the product of
    objectness and class probability at that index: the two are equal
    under [==], or both NaN.  (Of two products that are zeros of opposite
    sign, [np.max] may return either, so the score need not have the sign
    of the product at the class index.)  Unless the score is NaN, no
    product of the row exceeds it. *)
Theorem row_cand_score_at_class `{MaxReduce} (d : Detector) (r : row) (c : cand) :
  row_cand d r = Ok c ->
  0 <= c_class c < Z.of_nat (length (r_probs r))
  /\ (exists v,
        ((fun x => r_conf r * x)%float <$> r_probs r) !! Z.to_nat (c_class c) = Some v
        /\ same_value (c_score c) v = true)
  /\ (is_nan (c_score c) = false ->
      Forall (fun x => (r_conf r * x <=? c_score c)%float = true) (r_probs r))
  /\ c_box c = clip_box d (corners r).
Proof.
  unfold row_cand.
  set (p := (fun x => r_conf r * x)%float <$> r_probs r).
  assert (Hlen : length p = length (r_probs r)) by apply length_fmap.
  destruct p as [|x p'] eqn:Hp; [done|]. rewrite <- Hp in *.
  assert (Hne : p <> []) by (by rewrite Hp).
  intros [= <-]. simpl.
  pose proof (np_argmax_lt p Hne) as Hlt.
  pose proof (np_argmax_seq_max p Hne) as Hmax.
  pose proof (np_max_value p) as Hv.
  split; [lia|]. rewrite Nat2Z.id. split; [by exists (seq_max p)|]. split; [|done].
  intros Hnan. rewrite (same_value_nan _ _ Hv) in Hnan.
  pose proof (np_argmax_max _ _ Hmax Hnan) as Hall.
  unfold p in Hall. rewrite Forall_fmap in Hall.
  eapply Forall_impl; [exact Hall|]. simpl. intros y Hy.
  by rewrite (same_value_leb _ _ _ Hv).
Qed.

Lemma row_cand_score_at_class_witness :
  let r := MkRow 8 8 4 4 0.5 [0.25; 0.75; 0.5]%float in
  exists c,
    @row_cand sequential_max demo_yolo r = Ok c
    /\ c_class c = 1 /\ c_score c = 0.375%float
    /\ exists v,
         ((fun x => r_conf r * x)%float <$> r_probs r) !! Z.to_nat (c_class c) = Some v
         /\ same_value (c_score c) v = true.
Proof.
  eexists. split; [by vm_compute|]. split; [by vm_compute|]. split; [by vm_compute|].
  apply (@row_cand_score_at_class sequential_max demo_yolo
           (MkRow 8 8 4 4 0.5 [0.25; 0.75; 0.5]%float)).
  by vm_compute.
Defined.

(** ** Clipping *)

(** X24. A box without NaN coordinates comes out of the clipping inside
    the model input and with its corners in order: [0 <= x1 <= x2 <= width]
    and [0 <= y1 <= y2 <= height], the box that is zeroed for being inverted
    included. *)
Theorem clip_box_inside (d : Detector) (b : box) :
  0 <= image_width d < 2 ^ 53 -> 0 <= image_height d < 2 ^ 53 ->
  is_nan (bx1 b) = false -> is_nan (by1 b) = false ->
  is_nan (bx2 b) = false -> is_nan (by2 b) = false ->
  let r := clip_box d b in
  (0 <=? bx1 r)%float = true /\ (bx1 r <=? bx2 r)%float = true
  /\ (bx2 r <=? F64.of_Z (image_width d))%float = true
  /\ (0 <=? by1 r)%float = true /\ (by1 r <=? by2 r)%float = true
  /\ (by2 r <=? F64.of_Z (image_height d))%float = true.
Proof.
  intros Hw Hh Hx1 Hy1 Hx2 Hy2.
  destruct (of_Z_nonneg _ Hw) as [Hw0 Hwn]. destruct (of_Z_nonneg _ Hh) as [Hh0 Hhn].
  assert (H0 : is_nan 0 = false) by done.
  assert (Hx1n : is_nan (F64.maximum (bx1 b) 0) = false).
  { by destruct (maximum_cases (bx1 b) 0) as [-> | ->]. }
  assert (Hy1n : is_nan (F64.maximum (by1 b) 0) = false).
  { by destruct (maximum_cases (by1 b) 0) as [-> | ->]. }
  assert (Hx2n : is_nan (F64.minimum (bx2 b) (F64.of_Z (image_width d))) = false).
  { by destruct (minimum_cases (bx2 b) (F64.of_Z (image_width d))) as [-> | ->]. }
  assert (Hy2n : is_nan (F64.minimum (by2 b) (F64.of_Z (image_height d))) = false).
  { by destruct (minimum_cases (by2 b) (F64.of_Z (image_height d))) as [-> | ->]. }
  unfold clip_box. change (F64.of_Z 0) with 0%float.
  set (x1 := F64.maximum (bx1 b) 0) in *. set (y1 := F64.maximum (by1 b) 0) in *.
  set (x2 := F64.minimum (bx2 b) (F64.of_Z (image_width d))) in *.
  set (y2 := F64.minimum (by2 b) (F64.of_Z (image_height d))) in *.
  cbn zeta. cbn [bx1 bx2 by1 by2].
  destruct (x2 <? x1)%float eqn:Hx; [|destruct (y2 <? y1)%float eqn:Hy]; simpl.
  - repeat split; done.
  - repeat split; done.
  - repeat split.
    + apply (maximum_ge (bx1 b) 0); done.
    + by apply ltb_false_leb.
    + apply (minimum_le (bx2 b) (F64.of_Z (image_width d))); done.
    + apply (maximum_ge (by1 b) 0); done.
    + by apply ltb_false_leb.
    + apply (minimum_le (by2 b) (F64.of_Z (image_height d))); done.
Qed.

Lemma clip_box_inside_witness :
  let r := clip_box demo_yolo (MkBox (-5) 20 500 300) in
  r = MkBox 0 20 416 300
  /\ (0 <=? bx1 r)%float = true /\ (bx1 r <=? bx2 r)%float = true
  /\ (bx2 r <=? F64.of_Z (image_width demo_yolo))%float = true
  /\ (0 <=? by1 r)%float = true /\ (by1 r <=? by2 r)%float = true
  /\ (by2 r <=? F64.of_Z (image_height demo_yolo))%float = true.
Proof.
  split; [by vm_compute|].
  apply (clip_box_inside demo_yolo (MkBox (-5) 20 500 300));
    first [ (simpl; lia) | reflexivity ].
Defined.

(** ** The rows of a call *)

(** X25. Decoding yields the rows of the outputs one output after the
    other, in the order of the outputs: the rows are the concatenation of
    one block per output, the block at position [s] being that of output
    [s] decoded with the anchors and the xy-scale at position [i + s].  A
    block has three rows per grid cell, those of cell [(gi, gj)] at
    positions [3 * (dim2 * gi + gj) + a] for the anchors [a = 0, 1, 2], and
    each of its rows has as many class probabilities as its output has
    classes. *)
Theorem decode_rows_count (d : Detector) (anchors : list (list (Z * Z)))
    (xyscales : list float) (i : nat) (outputs : list tensor) (rows : list row) :
  decode_outputs d anchors xyscales i outputs = Ok rows ->
  length rows = sum_list ((fun t => 3 * (dim1 t * dim2 t))%nat <$> outputs)
  /\ exists blocks : list (list row),
       rows = concat blocks
       /\ length blocks = length outputs
       /\ forall s t,
            outputs !! s = Some t ->
            exists anchor xyscale block,
              anchors !! (i + s)%nat = Some anchor
              /\ xyscales !! (i + s)%nat = Some xyscale
              /\ blocks !! s = Some block
              /\ length block = (3 * (dim1 t * dim2 t))%nat
              /\ Forall (fun r => length (r_probs r) = nclass t) block
              /\ forall gi gj a,
                   (gi < dim1 t)%nat -> (gj < dim2 t)%nat -> (a < 3)%nat ->
                   block !! (3 * (dim2 t * gi + gj) + a)%nat
                   = Some (decode_cell d t anchor xyscale gi gj a).
Proof.
  revert i rows. induction outputs as [|t outputs IH]; intros i rows.
  - simpl. intros [= <-]. split; [done|]. by exists [].
  - simpl. destruct (anchors !! i) as [anchor|] eqn:Ha; [|done].
    destruct (xyscales !! i) as [xyscale|] eqn:Hx; [|done].
    intros (rows0 & H0 & (more & Hmore & [= <-])%bind_Ok)%bind_Ok.
    destruct (decode_scale_length _ _ _ _ _ H0) as [Hl0 Hp0].
    destruct (IH _ _ Hmore) as (Hl & blocks & Hcat & Hlen & Hb). split.
    + rewrite length_app, Hl0, Hl. done.
    + exists (rows0 :: blocks). split; [by rewrite Hcat|].
      split; [by rewrite !length_cons, Hlen|].
      intros [|s] u Hu; simpl in Hu.
      * injection Hu as <-. rewrite Nat.add_0_r.
        exists anchor, xyscale, rows0. repeat split; try done.
        intros gi gj a Hgi Hgj Ha3. by apply decode_scale_lookup.
      * destruct (Hb s u Hu) as (an & xs & bl & ? & ? & ? & ?).
        exists an, xs, bl. replace (i + S s)%nat with (S i + s)%nat by lia. done.
Qed.

Lemma decode_rows_count_witness :
  let anchors := [[(10, 14); (23, 27); (37, 58)]; [(81, 82); (135, 169); (344, 319)]] in
  exists rows blocks,
    decode_outputs demo_yolo anchors [1%float; 1%float] 0 [grid_tensor; demo_tensor 0.75]
    = Ok rows
    /\ length rows = 15%nat
    /\ rows = concat blocks
    /\ length blocks = 2%nat.
Proof.
  intros anchors.
  assert (H : exists rows,
             decode_outputs demo_yolo anchors [1%float; 1%float] 0
               [grid_tensor; demo_tensor 0.75] = Ok rows).
  { eexists. by vm_compute. }
  destruct H as [rows Hrows].
  destruct (decode_rows_count _ _ _ _ _ _ Hrows) as (Hlen & blocks & Hcat & Hbl & _).
  exists rows, blocks. split; [exact Hrows|]. split; [exact Hlen|].
  split; [exact Hcat | exact Hbl].
Defined.

(** ** What a successful call of the anchor path requires *)

Lemma concatenable_spec (outputs : list tensor) :
  concatenable outputs = true ->
  outputs <> [] /\ forall t u, t ∈ outputs -> u ∈ outputs -> nclass t = nclass u.
Proof.
  destruct outputs as [|t0 rest]; [done|]. simpl. intros Hall. split; [done|].
  rewrite forallb_forall in Hall.
  assert (Hc : forall u, u ∈ t0 :: rest -> nclass u = nclass t0).
  { intros u [->|Hu]%elem_of_cons; [done|].
    apply Nat.eqb_eq, Hall. by apply list_elem_of_In. }
  intros t u Ht Hu. by rewrite (Hc t Ht), (Hc u Hu).
Qed.

(** X26. [get_frames_yolo] returns only under these conditions: the
    version is one it knows; there is at least one output and no more
    outputs than the version has scales; every output has a square grid; all
    outputs have the same number of classes; and an output with a non-empty
    grid has at least one class. *)
Theorem get_frames_yolo_requirements `{SetOrder} `{MaxReduce} (d : Detector)
    (outputs : list tensor) (frames : list frame) :
  get_frames_yolo d outputs = Ok frames ->
  exists anchors xyscales,
    yolo_params (yolo_version d) = Ok (anchors, xyscales)
    /\ outputs <> []
    /\ (length outputs <= length anchors)%nat
    /\ Forall (fun t => dim1 t = dim2 t) outputs
    /\ (forall t u, t ∈ outputs -> u ∈ outputs -> nclass t = nclass u)
    /\ Forall (fun t => dim1 t = 0%nat \/ (0 < nclass t)%nat) outputs.
Proof.
  intros (anchors & xyscales & rows & cands & Hp & Hrows & Hc & Hax & Hcands & _)%get_frames_yolo_inv.
  exists anchors, xyscales. split; [done|].
  destruct (concatenable_spec _ Hc) as [Hne Hcls].
  split; [done|]. split; [|split; [|split; [done|]]].
  - destruct (decide (length outputs = 0%nat)) as [->|Hlen]; [lia|].
    destruct (lookup_lt_is_Some_2 outputs (length outputs - 1)) as [t Ht]; [lia|].
    destruct (decode_outputs_scales _ _ _ _ _ _ _ _ Hrows Ht) as (an & _ & _ & Ha & _).
    apply lookup_lt_Some in Ha. lia.
  - apply Forall_forall. intros t [s Ht]%list_elem_of_lookup_1.
    destruct (decode_outputs_scales _ _ _ _ _ _ _ _ Hrows Ht) as (an & xs & rs & _ & _ & Hs & _).
    by apply decode_scale_Ok in Hs as [Hsq _].
  - apply Forall_forall. intros t [s Ht]%list_elem_of_lookup_1.
    destruct (decode_outputs_scales _ _ _ _ _ _ _ _ Hrows Ht) as (an & xs & rs & _ & _ & Hs & Hsub).
    destruct (dim1 t) as [|n] eqn:Hd; [by left|]. right.
    pose proof (decode_scale_Ok _ _ _ _ _ Hs) as [Hsq _].
    assert (Hr : rs !! (3 * (dim2 t * 0 + 0) + 0)%nat
                 = Some (decode_cell d t an xs 0 0 0)).
    { apply decode_scale_lookup; [done|lia..]. }
    apply list_elem_of_lookup_2 in Hr.
    assert (Hin : decode_cell d t an xs 0 0 0 ∈ rows).
    { apply sublist_submseteq in Hsub. by eapply elem_of_submseteq. }
    apply list_elem_of_lookup_1 in Hin as [k Hk].
    destruct (mapM_Ok_lookup _ _ _ _ _ Hcands Hk) as (c & Hrc & _).
    destruct (decode_scale_length _ _ _ _ _ Hs) as [_ Hprobs].
    rewrite Forall_forall in Hprobs. specialize (Hprobs _ Hr).
    unfold row_cand in Hrc.
    destruct (r_probs (decode_cell d t an xs 0 0 0)) as [|x l]; [done|].
    simpl in Hprobs. lia.
Qed.

Lemma get_frames_yolo_requirements_witness :
  exists f anchors xyscales,
    @get_frames_yolo cpython_order sequential_max demo_yolo [demo_tensor 0.75] = Ok [f]
    /\ yolo_params (yolo_version demo_yolo) = Ok (anchors, xyscales)
    /\ [demo_tensor 0.75] <> []
    /\ (length [demo_tensor 0.75] <= length anchors)%nat.
Proof.
  assert (Hf : exists f, @get_frames_yolo cpython_order sequential_max demo_yolo [demo_tensor 0.75]
                         = Ok [f]).
  { eexists. by vm_compute. }
  destruct Hf as [f Hf].
  destruct (@get_frames_yolo_requirements cpython_order sequential_max demo_yolo _ _ Hf)
    as (anchors & xyscales & Hp & Hne & Hlen & _).
  exists f, anchors, xyscales.
  split; [exact Hf|]. split; [exact Hp|]. split; [exact Hne | exact Hlen].
Defined.

(** ** A call returns all its frames or none *)

Lemma ssd_pixel_nan (size : Z) : ssd_pixel S754_nan size = Raise ValueError.
Proof.
  unfold ssd_pixel, F64.to_int, F32.to_f64. rewrite mul_spec.
  change (Prim2SF (SF2Prim S754_nan)) with S754_nan. done.
Qed.

Lemma F32_mul_nan_l (y : F32.t) : F32.mul S754_nan y = S754_nan.
Proof. done. Qed.

(** X27. The direct path has no partial results: if the body of the loop
    raises for one of the first [count] entries, the call raises.  This is
    what happens for an accepted entry whose first coordinate is NaN, which
    [int()] refuses with [ValueError]; an entry that is skipped is never
    converted, so its coordinates cannot make the call fail. *)
Theorem ssd_all_or_nothing (d : Detector) (out : ssd_outputs) (count : Z) (k : nat)
    (e : ssd_entry) :
  F32.to_int (ssd_count out) = Ok count ->
  ssd_entries out !! k = Some e -> Z.of_nat k < count ->
  (forall err, ssd_frame d e = Raise err -> exists err', get_frames_ssd d out = Raise err')
  /\ (forall cid nm,
        F32.to_int (e_class e) = Ok cid -> id2label d !! cid = Some nm ->
        target_rejects d cid = false ->
        below_threshold d (F32.to_f64 (e_score e)) = false ->
        e_ymin e = S754_nan ->
        ssd_frame d e = Raise ValueError)
  /\ (forall e', e_class e' = e_class e -> e_score e' = e_score e ->
        ssd_frame d e = Ok None -> ssd_frame d e' = Ok None).
Proof.
  intros Hc He Hk. split; [|split].
  - intros err Herr.
    destruct (get_frames_ssd d out) as [frames|err'] eqn:Hf; [|by exists err'].
    apply get_frames_ssd_frames in Hf as (count' & rs & Hc' & Hn & Hrs & _).
    rewrite Hc in Hc'. injection Hc' as <-.
    assert (Hk' : take (Z.to_nat count) (ssd_entries out) !! k = Some e).
    { rewrite lookup_take_lt by lia. done. }
    destruct (mapM_Ok_lookup _ _ _ _ _ Hrs Hk') as (r & Hr & _). congruence.
  - intros cid nm Hcid Hnm Ht Hb Hnan. unfold ssd_frame.
    rewrite Hcid. simpl. rewrite Hnm, Ht, Hb. unfold ssd_bbox.
    by rewrite Hnan, ssd_pixel_nan.
  - intros e' Hcls Hsc. unfold ssd_frame. rewrite Hcls, Hsc.
    destruct (F32.to_int (e_class e)) as [cid|]; simpl; [|done].
    destruct (id2label d !! cid); [|done].
    destruct (target_rejects d cid); [done|].
    destruct (below_threshold d _); [done|].
    by destruct (ssd_bbox d e).
Qed.

Lemma ssd_all_or_nothing_witness :
  let bad := MkSsdEntry S754_nan (F32.of_f64 0.1) (F32.of_f64 0.5) (F32.of_f64 0.5)
               (F32.of_Z 17) (F32.of_f64 0.75) in
  let out := MkSsdOutputs [demo_entry 0 0.75; bad] (F32.of_Z 2) in
  ssd_frame demo_ssd bad = Raise ValueError
  /\ exists err', get_frames_ssd demo_ssd out = Raise err'.
Proof.
  destruct (ssd_all_or_nothing demo_ssd
              (MkSsdOutputs
                 [demo_entry 0 0.75;
                  MkSsdEntry S754_nan (F32.of_f64 0.1) (F32.of_f64 0.5) (F32.of_f64 0.5)
                    (F32.of_Z 17) (F32.of_f64 0.75)] (F32.of_Z 2))
              2 1 _ ltac:(by vm_compute) eq_refl ltac:(lia)) as (H1 & H2 & _).
  assert (Hbad : ssd_frame demo_ssd
                   (MkSsdEntry S754_nan (F32.of_f64 0.1) (F32.of_f64 0.5) (F32.of_f64 0.5)
                      (F32.of_Z 17) (F32.of_f64 0.75)) = Raise ValueError).
  { apply (H2 17 "cat"%string); by vm_compute. }
  split; [exact Hbad|]. exact (H1 _ Hbad).
Defined.
